(** * Speech: pronunciation practice and AI companion

    A shallow embedding of the pure and the stateful kernels of
    [src/app.py] and [src/ai_app.py], and the properties of them that the
    specification states.

    Conventions of the embedding.
    - A Python [str] is the list of its characters.  A character is a code
      point below 256 (an [ascii] read as Latin-1); [str.lower],
      [str.isspace] and the regular-expression class [\s] are given on
      that range exactly as CPython computes them.
    - [len], indices and word counts are [nat]; [retries], HTTP status codes
      and attempt numbers are [Z].
    - A Python [float] is idealised as an exact rational ([Q]): products and
      quotients are exact, and [round(x, 2)] rounds the exact value half to
      even.
    - A [dict] is a [gmap]; a decoded JSON document is the inductive type
      [pyval], whose objects are association lists. *)

From Stdlib Require Import Ascii String QArith Qround Lqa.
From stdpp Require Import gmap strings list fin_maps sorting.

#[local] Set Warnings "-register-all".
#[local] Open Scope Z_scope.
#[local] Open Scope nat_scope.

(** ** Python strings *)

Abbreviation str := (list ascii).

Definition lit (s : string) : str := list_ascii_of_string s.
Arguments lit : simpl never.

Definition code (c : ascii) : nat := nat_of_ascii c.

(** [str.isspace] on one character, which is also the class [\s] of [re] on
    [str] patterns and the separator set of [str.split()] and
    [str.strip()]. *)
Definition is_space (c : ascii) : bool :=
  let n := code c in
  ((9 <=? n) && (n <=? 13)) || ((28 <=? n) && (n <=? 32))
  || (n =? 133) || (n =? 160).

Definition space : ascii := ascii_of_nat 32.

(** [s.split()]: the maximal runs of characters that are not whitespace.
    [tok] is the run being scanned. *)
Fixpoint split_scan (tok s : str) : list str :=
  match s with
  | [] => match tok with [] => [] | _ => [tok] end
  | c :: s' =>
      if is_space c
      then match tok with
           | [] => split_scan [] s'
           | _ => tok :: split_scan [] s'
           end
      else split_scan (tok ++ [c]) s'
  end.

Definition split (s : str) : list str := split_scan [] s.

(** A word: a non-empty run without whitespace. *)
Definition word (w : str) : Prop :=
  w ≠ [] ∧ Forall (λ c, is_space c = false) w.

(** [sep.join(ws)] *)
Fixpoint join (sep : str) (ws : list str) : str :=
  match ws with
  | [] => []
  | [w] => w
  | w :: ws' => w ++ sep ++ join sep ws'
  end.

(** [s.strip()] *)
Fixpoint lstrip (s : str) : str :=
  match s with
  | c :: s' => if is_space c then lstrip s' else s
  | [] => []
  end.

Definition rstrip (s : str) : str := rev (lstrip (rev s)).

Definition strip (s : str) : str := rstrip (lstrip s).

(** [s.endswith(suffix)] *)
Definition endswith (s suffix : str) : bool :=
  bool_decide (drop (length s - length suffix) s = suffix).

(** Truthiness of a list ([if xs:]). *)
Definition truthy {A} (xs : list A) : bool :=
  match xs with [] => false | _ => true end.

(** ** ai_app.py: the reply handed to the text-to-speech engine *)

(** [synthesize_conversational], up to the point where [text] is handed to
    [gTTS]: the value of [text] after the truncation. *)
Definition synthesize_conversational (text : str) : str :=
  let words := split text in
  if 150 <? length words
  then join (lit " ") (take 150 words) ++ lit "..."
  else text.

(** A reply of 200 words. *)
Definition reply_200 : str := mjoin (replicate 200 (lit "word ")).

(** ** ai_app.py: the conversation history *)

(** A conversation turn.  [text] is [None] when the entry has no ["text"]
    key or holds [None] there: [entry.get("text") or ""] reads both
    as the empty string. *)
Record turn := Turn { author : str; text : option str }.

Definition entry_words (entry : turn) : nat :=
  length (split (default [] (text entry))).

(** The loop of [_truncate_history] over [reversed(messages)];
    [trimmed] grows at its end, as [trimmed.append(entry)] does. *)
Fixpoint truncate_loop (entries : list turn) (total_words : nat)
    (trimmed : list turn) : list turn :=
  match entries with
  | [] => trimmed
  | entry :: rest =>
      let words := entry_words entry in
      if (3000 <? total_words + words) && truthy trimmed
      then trimmed
      else truncate_loop rest (total_words + words) (trimmed ++ [entry])
  end.

Definition _truncate_history (messages : list turn) : list turn :=
  rev (truncate_loop (rev messages) 0 []).

(** The number of words of a list of turns. *)
Definition total_words (turns : list turn) : nat :=
  sum_list_with entry_words turns.

(** ** Python values and exceptions *)

(** A decoded JSON document, as [response.json()] and
    [request.get_json()] return it. *)
Inductive pyval :=
  | PNone
  | PBool (b : bool)
  | PInt (n : Z)
  | PFloat (q : Q)
  | PStr (s : str)
  | PList (xs : list pyval)
  | PDict (items : list (str * pyval)).

(** Truthiness of a value ([if v:], [v or d]). *)
Definition truth (v : pyval) : bool :=
  match v with
  | PNone => false
  | PBool b => b
  | PInt n => negb (n =? 0)%Z
  | PFloat q => negb (Qeq_bool q 0)
  | PStr s => truthy s
  | PList xs => truthy xs
  | PDict items => truthy items
  end.

(** [d.get(key)] on the items of a dict: [None] stands for an absent key. *)
Fixpoint dict_get (items : list (str * pyval)) (key : str) : option pyval :=
  match items with
  | [] => None
  | (k, v) :: items' => if bool_decide (k = key) then Some v else dict_get items' key
  end.

(** The exceptions the handlers tell apart: [requests.exceptions.HTTPError]
    with the status code of its response ([None] when it carries no
    response), and the other subclasses of [Exception], [RuntimeError] with
    its message among them. *)
Inductive exn :=
  | HTTPError (status_code : option Z)
  | RuntimeError (msg : str)
  | Exception (kind : str).

Inductive result (A : Type) :=
  | Return (a : A)
  | Raise (e : exn).
Arguments Return {A} a.
Arguments Raise {A} e.

(** ** ai_app.py: the remote dialogue client *)

(** What the network does with one [requests.post]: the call itself raises,
    or a response arrives with a status code and a body that decodes as JSON
    or does not. *)
Inductive http_reply :=
  | PostFails (e : exn)
  | Response (status_code : Z) (body : option pyval).

(** The observable effects of [call_gemini_api]: how many requests were
    posted, and the naps taken, oldest first, in seconds. *)
Record world := World { posts : nat; sleeps : list Q }.

(** Computations that read or change the world and may raise. *)
Definition M (A : Type) : Type := world → result A * world.

#[global] Instance M_ret : MRet M := λ A a w, (Return a, w).

#[global] Instance M_bind : MBind M := λ A B k m w,
  match m w with
  | (Return a, w') => k a w'
  | (Raise e, w') => (Raise e, w')
  end.

Definition raise {A} (e : exn) : M A := λ w, (Raise e, w).

(** [try: m except Exception as exc: handler(exc)] *)
Definition try_except {A} (m : M A) (handler : exn → M A) : M A :=
  λ w, match m w with
       | (Return a, w') => (Return a, w')
       | (Raise e, w') => handler e w'
       end.

Definition lift {A} (r : result A) : M A := λ w, (r, w).

Section Gemini.

(** [str(content)], the builtin, taken as given. *)
Variable py_str : pyval → str.

(** The network: the reply to each successive request, counted from 0. *)
Variable network : nat → http_reply.

Definition requests_post : M http_reply :=
  λ w, (Return (network (posts w)),
        {| posts := S (posts w); sleeps := sleeps w |}).

Definition time_sleep (seconds : Q) : M unit :=
  λ w, (Return tt, {| posts := posts w; sleeps := sleeps w ++ [seconds] |}).

(** [response.raise_for_status()] *)
Definition raise_for_status (status_code : Z) : result unit :=
  if ((400 <=? status_code) && (status_code <? 600))%Z
  then Raise (HTTPError (Some status_code))
  else Return tt.

(** [response.json()] *)
Definition response_json (body : option pyval) : result pyval :=
  match body with
  | Some data => Return data
  | None => Raise (Exception (lit "JSONDecodeError"))
  end.

(** [part.get("text", "")] of one element of the parts, as [str.join]
    consumes it. *)
Definition part_text (part : pyval) : result str :=
  match part with
  | PDict items =>
      match dict_get items (lit "text") with
      | None => Return []
      | Some (PStr s) => Return s
      | Some _ => Raise (Exception (lit "TypeError"))
      end
  | _ => Raise (Exception (lit "AttributeError"))
  end.

Fixpoint join_parts (parts : list pyval) : result str :=
  match parts with
  | [] => Return []
  | part :: parts' =>
      match part_text part with
      | Raise e => Raise e
      | Return s =>
          match join_parts parts' with
          | Raise e => Raise e
          | Return rest => Return (s ++ rest)
          end
      end
  end.

(** ["".join(part.get("text", "") for part in content.get("parts", []))]:
    the parts are iterated whatever they are. *)
Definition join_content_parts (items : list (str * pyval)) : result str :=
  match dict_get items (lit "parts") with
  | None => Return []
  | Some (PList parts) => join_parts parts
  | Some (PStr []) | Some (PDict []) => Return []
  | Some (PStr _) | Some (PDict _) => Raise (Exception (lit "AttributeError"))
  | Some _ => Raise (Exception (lit "TypeError"))
  end.

(** [candidates[0]], for truthy candidates *)
Definition first_candidate (candidates : pyval) : result pyval :=
  match candidates with
  | PList (c :: _) => Return c
  | PStr (c :: _) => Return (PStr [c])
  | PDict _ => Raise (Exception (lit "KeyError"))
  | _ => Raise (Exception (lit "TypeError"))
  end.

(** The body of the [try] after the response has arrived and decoded:
    from [data.get("candidates")] to the [return]. *)
Definition parse_reply (data : pyval) : result pyval :=
  match data with
  | PDict items =>
      let candidates :=
        match dict_get items (lit "candidates") with
        | Some v => if truth v then v else PList []
        | None => PList []
        end in
      if negb (truth candidates)
      then Raise (RuntimeError (lit "No response from Gemini API"))
      else
        match first_candidate candidates with
        | Raise e => Raise e
        | Return (PDict cand) =>
            match default PNone (dict_get cand (lit "content")) with
            | PDict content =>
                match dict_get content (lit "text") with
                | Some text => Return text
                | None =>
                    match join_content_parts content with
                    | Raise e => Raise e
                    | Return s => Return (PStr s)
                    end
                end
            | content => Return (PStr (py_str content))
            end
        | Return _ => Raise (Exception (lit "AttributeError"))
        end
  | _ => Raise (Exception (lit "AttributeError"))
  end.

(** One pass through the body of the [try]. *)
Definition attempt_body : M pyval :=
  reply ← requests_post;
  match reply with
  | PostFails e => raise e
  | Response status_code body =>
      lift (raise_for_status status_code);;
      data ← lift (response_json body);
      lift (parse_reply data)
  end.

(** [range(lo, hi)] *)
Definition py_range (lo hi : Z) : list Z :=
  (λ i, (lo + Z.of_nat i)%Z) <$> seq 0 (Z.to_nat (hi - lo)).

(** [backoff * (2 ** (attempt - 1))] *)
Definition nap (backoff : Q) (attempt : Z) : Q :=
  (backoff * inject_Z (2 ^ (attempt - 1)))%Q.

(** The [for attempt in ...] loop with what follows it; [attempts] are the
    attempt numbers still to come. *)
Fixpoint retry_loop (retries : Z) (backoff : Q) (attempts : list Z)
    (last_exc : option exn) : M pyval :=
  match attempts with
  | [] =>
      match last_exc with
      | Some e => raise e
      | None => raise (RuntimeError (lit "Gemini API call failed"))
      end
  | attempt :: rest =>
      try_except attempt_body (λ exc,
        match exc with
        | HTTPError status =>
            if bool_decide (status = Some 503%Z) && (attempt <? retries)%Z
            then time_sleep (nap backoff attempt);;
                 retry_loop retries backoff rest (Some exc)
            else raise exc
        | _ =>
            if (attempt <? retries)%Z
            then time_sleep (nap backoff attempt);;
                 retry_loop retries backoff rest (Some exc)
            else raise exc
        end)
  end.

(** [call_gemini_api(message_list, retries, backoff)].  The request body
    is built from [message_list] and does not bear on the control flow:
    what the network answers is given by [network]. *)
Definition call_gemini_api (retries : Z) (backoff : Q) : M pyval :=
  retry_loop retries backoff (py_range 1 (retries + 1)) None.

End Gemini.

(** The world before the call. *)
Definition fresh : world := {| posts := 0; sleeps := [] |}.

Section GeminiOutcome.

Variable py_str : pyval → str.

(** What one attempt makes of the network's reply. *)
Definition outcome (reply : http_reply) : result pyval :=
  match reply with
  | PostFails e => Raise e
  | Response status_code body =>
      match raise_for_status status_code with
      | Raise e => Raise e
      | Return _ =>
          match response_json body with
          | Raise e => Raise e
          | Return data => parse_reply py_str data
          end
      end
  end.

(** The failures after which the handlers sleep and go on when attempts
    remain: HTTP 503, and every exception that is not an [HTTPError]. *)
Definition retryable (e : exn) : Prop :=
  match e with
  | HTTPError status => status = Some 503%Z
  | _ => True
  end.

Definition fails_retryably (reply : http_reply) : Prop :=
  ∃ e, outcome reply = Raise e ∧ retryable e.

(** The naps after the first [k] attempts. *)
Definition naps (backoff : Q) (k : nat) : list Q :=
  (λ i, nap backoff (Z.of_nat (S i))) <$> seq 0 k.

End GeminiOutcome.

(** A part that bears text [s]: an object whose ["text"] is the string [s],
    or an object without ["text"], for the empty string. *)
Definition text_of_part (part : pyval) (s : str) : Prop :=
  match part with
  | PDict items =>
      match dict_get items (lit "text") with
      | Some (PStr t) => s = t
      | None => s = []
      | Some _ => False
      end
  | _ => False
  end.

(** A response has no candidates when ["candidates"] is absent or falsy. *)
Definition no_candidates (items : list (str * pyval)) : Prop :=
  match dict_get items (lit "candidates") with
  | Some v => truth v = false
  | None => True
  end.

Definition no_response : exn := RuntimeError (lit "No response from Gemini API").

(** Stand-in for [str] in examples that never call it. *)
Definition no_str : pyval → str := λ _, [].

(** A reply whose first candidate carries the text ["hi"]. *)
Definition reply_hi : http_reply :=
  Response 200 (Some (PDict
    [(lit "candidates",
      PList [PDict [(lit "content", PDict [(lit "text", PStr (lit "hi"))])]])])).

(** Two HTTP 503 responses, then [reply_hi]. *)
Definition network_503_503_ok (n : nat) : http_reply :=
  match n with
  | 0 | 1 => Response 503 None
  | _ => reply_hi
  end.

(** A response without candidates, then [reply_hi]. *)
Definition network_empty_then_ok (n : nat) : http_reply :=
  match n with
  | 0 => Response 200 (Some (PDict []))
  | _ => reply_hi
  end.

(** HTTP 404 on every request. *)
Definition network_404 (n : nat) : http_reply := Response 404 None.

(** ** ai_app.py: removing a played reply *)

(** [s.rfind(c)]: the last index of [c] in [s], or -1. *)
Fixpoint rfind_from (c : ascii) (s : str) (i : nat) (found : Z) : Z :=
  match s with
  | [] => found
  | x :: s' =>
      rfind_from c s' (S i) (if bool_decide (x = c) then Z.of_nat i else found)
  end.

Definition rfind (c : ascii) (s : str) : Z := rfind_from c s 0 (-1).

Definition slash : ascii := ascii_of_nat 47.

(** [os.path.basename] of [posixpath]: [p[p.rfind('/') + 1:]]. *)
Definition basename (p : str) : str := drop (Z.to_nat (rfind slash p + 1)) p.

(** What the view returns: [jsonify({"error": message}), status], or
    [jsonify({"status": "ok"})], or, from the [except] clause,
    [jsonify({"error": str(exc)}), 500]. *)
Inductive flask_response :=
  | JsonError (status : Z) (message : str)
  | JsonOk
  | InternalError (exc : exn).

Definition status_of (r : flask_response) : Z :=
  match r with
  | JsonError status _ => status
  | JsonOk => 200
  | InternalError _ => 500
  end.

(** [v or d] *)
Definition or_else (v : option pyval) (d : pyval) : pyval :=
  match v with
  | Some v => if truth v then v else d
  | None => d
  end.

(** The body of [cleanup_audio], for a request that passed
    [login_required].  [request_json] is what
    [request.get_json(silent=True)] returns, [None] standing for a body that
    is not JSON; [files] are the names of the files in the upload folder. *)
Definition cleanup_audio (request_json : option pyval) (files : gset str)
    : flask_response * gset str :=
  match or_else request_json (PDict []) with
  | PDict payload =>
      match or_else (dict_get payload (lit "filename")) (PStr []) with
      | PStr raw =>
          let original := strip raw in
          if negb (truthy original)
          then (JsonError 400 (lit "Filename required"), files)
          else
            let filename := basename original in
            if negb (bool_decide (filename = original))
               || negb (endswith filename (lit ".mp3"))
            then (JsonError 400 (lit "Invalid filename"), files)
            else (JsonOk,
                  if bool_decide (filename ∈ files)
                  then files ∖ {[filename]}
                  else files)
      | _ => (InternalError (Exception (lit "AttributeError")), files)
      end
  | _ => (InternalError (Exception (lit "AttributeError")), files)
  end.

(** The request [{"filename": name}]. *)
Definition filename_request (name : str) : option pyval :=
  Some (PDict [(lit "filename", PStr name)]).

(** ** app.py: the progress cache *)

Record progress_entry := ProgressEntry {
  entry_id : str;
  sentence_id : option pyval;
  content_type : str;
  target : option pyval;
  transcript : str;
  score : Q;
  created_at : Z
}.

(** The module state [save_progress_entry] works on: the dict
    [PROGRESS_CACHE], and the documents of the Firestore client, [None] when
    there is no client; a document is filed under the user and its own id. *)
Record store := Store {
  PROGRESS_CACHE : gmap str (list progress_entry);
  firestore : option (gmap (str * str) progress_entry)
}.

(** What the environment decides in one call: the value of
    [uuid.uuid4().hex], the clock, and whether the remote write goes
    through. *)
Record environment := Environment {
  uuid4_hex : str;
  now : Z;
  remote_write_ok : bool
}.

Definition new_entry (content : list (str * pyval)) (transcript : str)
    (score : Q) (content_type : str) (env : environment) : progress_entry :=
  {| entry_id := uuid4_hex env;
     sentence_id := dict_get content (lit "id");
     content_type := content_type;
     target := dict_get content (lit "text");
     transcript := transcript;
     score := score;
     created_at := now env |}.

Definition save_progress_entry (user_id : str) (content : list (str * pyval))
    (transcript : str) (score : Q) (content_type : str)
    (env : environment) (st : store) : store :=
  if negb (truthy user_id) then st
  else
    let entry := new_entry content transcript score content_type env in
    let remote :=
      match firestore st with
      | Some docs =>
          if remote_write_ok env
          then Some (<[(user_id, entry_id entry) := entry]> docs)
          else Some docs
      | None => None
      end in
    let history := default [] (PROGRESS_CACHE st !! user_id) ++ [entry] in
    let history :=
      if 100 <? length history
      then drop (length history - 100) history
      else history in
    {| PROGRESS_CACHE := <[user_id := history]> (PROGRESS_CACHE st);
       firestore := remote |}.

(** The states the module can be in: the cache starts empty and changes by
    [save_progress_entry] only. *)
Inductive reachable : store → Prop :=
  | reachable_start remote :
      reachable {| PROGRESS_CACHE := ∅; firestore := remote |}
  | reachable_save st user_id content transcript score content_type env :
      reachable st →
      reachable (save_progress_entry user_id content transcript score
                   content_type env st).

(** A first call, on the empty cache without a remote store. *)
Definition store0 : store := {| PROGRESS_CACHE := ∅; firestore := None |}.

Definition environment0 : environment :=
  {| uuid4_hex := lit "0f"; now := 0; remote_write_ok := true |}.

(** ** app.py: the similarity scorer *)

(** [c.lower()] for a code point below 256: the letters [A]-[Z], and the
    capital letters of Latin-1 (192 to 222, the sign 215 apart), move up
    by 32. *)
Definition lower_char (c : ascii) : ascii :=
  let n := code c in
  if ((65 <=? n) && (n <=? 90))
     || ((192 <=? n) && (n <=? 222) && negb (n =? 215))
  then ascii_of_nat (n + 32)
  else c.

Definition lower (s : str) : str := lower_char <$> s.

(** The character class [[a-z0-9\s]]. *)
Definition is_lower_az (c : ascii) : bool := (97 <=? code c) && (code c <=? 122).

Definition is_digit (c : ascii) : bool := (48 <=? code c) && (code c <=? 57).

Definition in_class (c : ascii) : bool :=
  is_lower_az c || is_digit c || is_space c.

(** [re.sub(r"[^a-z0-9\s]", " ", s)] *)
Definition blank_outside_class (s : str) : str :=
  (λ c, if in_class c then c else space) <$> s.

Definition normalize_text (value : str) : str :=
  let cleaned := blank_outside_class (lower value) in
  join (lit " ") (split cleaned).

(** Normalisation in the words of the specification: lowercase, strip
    (delete) every character outside [[a-z0-9\s]], collapse whitespace. *)
Definition normalize_text_claimed (value : str) : str :=
  join (lit " ") (split (filter (λ c, in_class c = true) (lower value))).

(** A letter [a]-[z] or a digit. *)
Definition alnum (c : ascii) : bool := is_lower_az c || is_digit c.

(** The maximal runs of characters that satisfy [keep]; [tok] is the run
    being scanned. *)
Fixpoint runs_scan (keep : ascii → bool) (tok s : str) : list str :=
  match s with
  | [] => match tok with [] => [] | _ => [tok] end
  | c :: s' =>
      if keep c
      then runs_scan keep (tok ++ [c]) s'
      else match tok with
           | [] => runs_scan keep [] s'
           | _ => tok :: runs_scan keep [] s'
           end
  end.

Definition runs (keep : ascii → bool) (s : str) : list str :=
  runs_scan keep [] s.

(** *** difflib.SequenceMatcher(None, a, b)

    The standard library's matcher, as [calculate_similarity] uses it:
    no junk function, and the automatic junk heuristic left on. *)

Module SequenceMatcher.

(** A matching block [(i, j, k)]: [a[i:i+k] == b[j:j+k]]. *)
Definition block : Type := nat * nat * nat.

(** A region [(alo, ahi, blo, bhi)] of the queue. *)
Definition region : Type := nat * nat * nat * nat.

Section Matcher.

Variables a b : str.

(** The first loop of [__chain_b]: [b2j.setdefault(elt, []).append(i)] for
    the elements [bs] of [b] from index [i] on. *)
Fixpoint chain_b_loop (bs : str) (i : nat) (b2j : gmap ascii (list nat))
    : gmap ascii (list nat) :=
  match bs with
  | [] => b2j
  | elt :: bs' =>
      chain_b_loop bs' (S i) (<[elt := default [] (b2j !! elt) ++ [i]]> b2j)
  end.

(** [__chain_b]: the indices in [b] of every element, the popular elements
    purged when [b] has 200 elements or more.  Without a junk function
    [bjunk] stays empty. *)
Definition chain_b : gmap ascii (list nat) :=
  let b2j := chain_b_loop b 0 ∅ in
  let n := length b in
  if 200 <=? n
  then
    let ntest := n / 100 + 1 in
    filter (λ item, ¬ (ntest < length item.2)) b2j
  else b2j.

(** [j2len.get(j - 1, 0)]: index [-1] is never a key. *)
Definition j2len_get_pred (j2len : gmap nat nat) (j : nat) : nat :=
  match j with
  | 0 => 0
  | S j' => default 0 (j2len !! j')
  end.

(** [a[i] == b[j]], for indices within the two strings *)
Definition same_at (i j : nat) : bool :=
  match a !! i, b !! j with
  | Some x, Some y => bool_decide (x = y)
  | _, _ => false
  end.

Section LongestMatch.

Variable b2j : gmap ascii (list nat).
Variables alo ahi blo bhi : nat.

(** The loop [for j in b2j.get(a[i], nothing)] for one [i].  The new best
    block starts at [i-k+1] and [j-k+1], written with the addition first for
    the subtraction on [nat] to be exact. *)
Fixpoint scan_row (js : list nat) (i : nat) (j2len newj2len : gmap nat nat)
    (best : block) : gmap nat nat * block :=
  match js with
  | [] => (newj2len, best)
  | j :: js' =>
      if j <? blo then scan_row js' i j2len newj2len best
      else if bhi <=? j then (newj2len, best)
      else
        let k := j2len_get_pred j2len j + 1 in
        let newj2len := <[j := k]> newj2len in
        let '(besti, bestj, bestsize) := best in
        let best := if bestsize <? k then (i + 1 - k, j + 1 - k, k) else best in
        scan_row js' i j2len newj2len best
  end.

(** The loop [for i in range(alo, ahi)]. *)
Fixpoint scan_rows (rows : list nat) (j2len : gmap nat nat) (best : block)
    : block :=
  match rows with
  | [] => best
  | i :: rows' =>
      let js := match a !! i with
                | Some elt => default [] (b2j !! elt)
                | None => []
                end in
      let '(newj2len, best) := scan_row js i j2len ∅ best in
      scan_rows rows' newj2len best
  end.

(** [while besti > alo and bestj > blo and a[besti-1] == b[bestj-1]] *)
Fixpoint extend_back (besti bestj bestsize : nat) : block :=
  match besti with
  | 0 => (besti, bestj, bestsize)
  | S i' =>
      if (alo <? besti) && (blo <? bestj) && same_at i' (bestj - 1)
      then extend_back i' (bestj - 1) (bestsize + 1)
      else (besti, bestj, bestsize)
  end.

(** [while besti+bestsize < ahi and bestj+bestsize < bhi and
    a[besti+bestsize] == b[bestj+bestsize]], by recursion on the distance
    [todo] from [besti+bestsize] to [ahi]. *)
Fixpoint extend_forward (todo besti bestj bestsize : nat) : nat :=
  match todo with
  | 0 => bestsize
  | S todo' =>
      if (besti + bestsize <? ahi) && (bestj + bestsize <? bhi)
         && same_at (besti + bestsize) (bestj + bestsize)
      then extend_forward todo' besti bestj (bestsize + 1)
      else bestsize
  end.

(** [find_longest_match(alo, ahi, blo, bhi)].  [isbjunk] is false of every
    element, so that of the four extension loops the two for junk never
    run. *)
Definition find_longest_match : block :=
  let '(besti, bestj, bestsize) :=
    scan_rows (seq alo (ahi - alo)) ∅ (alo, blo, 0) in
  let '(besti, bestj, bestsize) := extend_back besti bestj bestsize in
  let bestsize :=
    extend_forward (ahi - (besti + bestsize)) besti bestj bestsize in
  (besti, bestj, bestsize).

End LongestMatch.

(** The loop [while queue] of [get_matching_blocks].  The queue is a stack:
    its head here is the end of the Python list.  [fuel] bounds the
    number of turns. *)
Fixpoint match_loop (b2j : gmap ascii (list nat)) (fuel : nat)
    (queue : list region) (matching_blocks : list block)
    : option (list block) :=
  match queue with
  | [] => Some matching_blocks
  | (alo, ahi, blo, bhi) :: queue =>
      match fuel with
      | 0 => None
      | S fuel =>
          let '(i, j, k) := find_longest_match b2j alo ahi blo bhi in
          if k =? 0 then match_loop b2j fuel queue matching_blocks
          else
            let matching_blocks := matching_blocks ++ [(i, j, k)] in
            let queue :=
              if (alo <? i) && (blo <? j)
              then (alo, i, blo, j) :: queue else queue in
            let queue :=
              if (i + k <? ahi) && (j + k <? bhi)
              then (i + k, ahi, j + k, bhi) :: queue else queue in
            match_loop b2j fuel queue matching_blocks
      end
  end.

(** The order of tuples. *)
Definition block_le (x y : block) : Prop :=
  let '(i1, j1, k1) := x in
  let '(i2, j2, k2) := y in
  i1 < i2 ∨ (i1 = i2 ∧ (j1 < j2 ∨ (j1 = j2 ∧ k1 ≤ k2))).

#[global] Instance block_le_dec x y : Decision (block_le x y).
Proof. destruct x as [[??]?], y as [[??]?]. simpl. apply _. Defined.

(** The loop that merges adjacent blocks. *)
Fixpoint collapse (blocks : list block) (i1 j1 k1 : nat)
    (non_adjacent : list block) : list block :=
  match blocks with
  | [] => if k1 =? 0 then non_adjacent else non_adjacent ++ [(i1, j1, k1)]
  | (i2, j2, k2) :: blocks' =>
      if (i1 + k1 =? i2) && (j1 + k1 =? j2)
      then collapse blocks' i1 j1 (k1 + k2) non_adjacent
      else collapse blocks' i2 j2 k2
             (if k1 =? 0 then non_adjacent else non_adjacent ++ [(i1, j1, k1)])
  end.

(** [get_matching_blocks()]; [None] if the loop were to run out of fuel,
    which it does not. *)
Definition get_matching_blocks : option (list block) :=
  let la := length a in
  let lb := length b in
  match match_loop chain_b (2 * la + 1) [(0, la, 0, lb)] [] with
  | Some matching_blocks =>
      let sorted := merge_sort block_le matching_blocks in
      Some (collapse sorted 0 0 0 [] ++ [(la, lb, 0)])
  | None => None
  end.

(** [_calculate_ratio(matches, length)] *)
Definition calculate_ratio (matches length : nat) : Q :=
  if length =? 0 then 1
  else (2 * inject_Z (Z.of_nat matches) / inject_Z (Z.of_nat length))%Q.

(** [ratio()] *)
Definition ratio : option Q :=
  match get_matching_blocks with
  | Some blocks =>
      let matches := sum_list_with (λ triple : block, triple.2) blocks in
      Some (calculate_ratio matches (length a + length b))
  | None => None
  end.

End Matcher.

End SequenceMatcher.

(** [round(x, 2)] on the exact value: the nearest multiple of 1/100, a tie
    going to the even one. *)
Definition round_half_even (x : Q) : Z :=
  let f := Qfloor x in
  let r := (x - inject_Z f)%Q in
  match (r ?= 1 # 2)%Q with
  | Lt => f
  | Gt => (f + 1)%Z
  | Eq => if Z.even f then f else (f + 1)%Z
  end.

Definition round2 (x : Q) : Q := (inject_Z (round_half_even (x * 100)) / 100)%Q.

(** [calculate_similarity]; [None] only if the matcher were to run out of
    fuel. *)
Definition calculate_similarity (reference attempt : str) : option Q :=
  let reference_normalized := normalize_text reference in
  let attempt_normalized := normalize_text attempt in
  if negb (truthy reference_normalized) || negb (truthy attempt_normalized)
  then Some 0%Q
  else
    match SequenceMatcher.ratio reference_normalized attempt_normalized with
    | Some ratio => Some (round2 (ratio * 100))
    | None => None
    end.

(** *** Invariants of the matcher *)

(** The lengths recorded in [j2len] for the rows below [n] fit between the
    low ends of the region and their own cell. *)
Definition row_within (alo blo bhi n : nat) (j2len : gmap nat nat) : Prop :=
  ∀ j k, j2len !! j = Some k → 1 ≤ k ∧ alo + k ≤ n ∧ blo + k ≤ j + 1 ∧ j < bhi.

(** A block within the rows from [alo] to [n] and the columns from [blo] to
    [bhi]. *)
Definition block_within (alo blo bhi n : nat) (best : SequenceMatcher.block)
    : Prop :=
  let '(besti, bestj, bestsize) := best in
  alo ≤ besti ∧ besti + bestsize ≤ n ∧ blo ≤ bestj ∧ bestj + bestsize ≤ bhi.

Definition region_ok (r : SequenceMatcher.region) : Prop :=
  let '(alo, ahi, blo, bhi) := r in alo ≤ ahi ∧ blo ≤ bhi.

(** What bounds the turns of the queue loop still to come. *)
Definition weight (queue : list SequenceMatcher.region) : nat :=
  sum_list_with (λ r : SequenceMatcher.region,
    let '(alo, ahi, _, _) := r in 2 * (ahi - alo) + 1) queue.

(** The room the regions of the queue leave in [a] and in [b]. *)
Definition room_a (queue : list SequenceMatcher.region) : nat :=
  sum_list_with (λ r : SequenceMatcher.region,
    let '(alo, ahi, _, _) := r in ahi - alo) queue.

Definition room_b (queue : list SequenceMatcher.region) : nat :=
  sum_list_with (λ r : SequenceMatcher.region,
    let '(_, _, blo, bhi) := r in bhi - blo) queue.

(** [sum(triple[-1] for triple in blocks)] *)
Definition matches (blocks : list SequenceMatcher.block) : nat :=
  sum_list_with (λ triple : SequenceMatcher.block, triple.2) blocks.

(** The indices at which [c] occurs in [s], counted from [i]. *)
Fixpoint positions (c : ascii) (s : str) (i : nat) : list nat :=
  match s with
  | [] => []
  | x :: s' =>
      if bool_decide (x = c) then i :: positions c s' (S i)
      else positions c s' (S i)
  end.

(** The length of the run of elements with an entry in [b2j] that ends just
    before index [i] of [s]. *)
Fixpoint indexed_run (b2j : gmap ascii (list nat)) (s : str) (i : nat) : nat :=
  match i with
  | 0 => 0
  | S i' =>
      match s !! i' with
      | Some c =>
          if bool_decide (is_Some (b2j !! c))
          then S (indexed_run b2j s i') else 0
      | None => 0
      end
  end.

(** A block that is what it claims to be: [a[i:i+k] == b[j:j+k]], both
    slices within the strings. *)
Definition block_matches (a b : str) (x : SequenceMatcher.block) : Prop :=
  let '(i, j, k) := x in
  ∀ t, t < k → ∃ c, a !! (i + t) = Some c ∧ b !! (j + t) = Some c.

(** The lengths recorded in [j2len] for the row below [i] are lengths of
    matches that end just before row [i], in their own column. *)
Definition row_matches (a b : str) (i : nat) (j2len : gmap nat nat) : Prop :=
  ∀ j k, j2len !! j = Some k →
         k ≤ i ∧ k ≤ j + 1 ∧ block_matches a b (i - k, j + 1 - k, k).

(** ** Further inputs for examples *)

(** The system instruction of [process_audio], by default. *)
Definition system_msg0 : turn :=
  Turn (lit "system") (Some (lit "You are restricted to respond in 20 words.")).

(** A user turn of 3001 words. *)
Definition long_turn : turn :=
  Turn (lit "user") (Some (mjoin (replicate 3001 (lit "word ")))).


(** ** app.py: regular expressions *)

(** The fragment of [re] that the module uses: character classes,
    concatenation and repetition.  Matching is by derivatives; [^] and [$]
    are part of [match_line] below. *)
Module re.

Inductive regex :=
  | Empty
  | Eps
  | Class (p : ascii → bool)
  | Cat (r s : regex)
  | Alt (r s : regex)
  | Star (r : regex).

(** [r+] *)
Definition Plus (r : regex) : regex := Cat r (Star r).

Fixpoint nullable (r : regex) : bool :=
  match r with
  | Empty => false
  | Eps => true
  | Class _ => false
  | Cat r s => nullable r && nullable s
  | Alt r s => nullable r || nullable s
  | Star _ => true
  end.

Fixpoint deriv (c : ascii) (r : regex) : regex :=
  match r with
  | Empty => Empty
  | Eps => Empty
  | Class p => if p c then Eps else Empty
  | Cat r s =>
      if nullable r
      then Alt (Cat (deriv c r) s) (deriv c s)
      else Cat (deriv c r) s
  | Alt r s => Alt (deriv c r) (deriv c s)
  | Star r => Cat (deriv c r) (Star r)
  end.

(** The whole of [s] matches [r]. *)
Fixpoint fullmatch (r : regex) (s : str) : bool :=
  match s with
  | [] => nullable r
  | c :: s' => fullmatch (deriv c r) s'
  end.

(** Some prefix of [s] matches [r]. *)
Fixpoint prefix_matches (r : regex) (s : str) : bool :=
  nullable r
  || match s with
     | [] => false
     | c :: s' => prefix_matches (deriv c r) s'
     end.

(** [re.search(r, s)] as a truth value: some substring of [s] matches. *)
Fixpoint search (r : regex) (s : str) : bool :=
  prefix_matches r s
  || match s with
     | [] => false
     | _ :: s' => search r s'
     end.

Definition newline : ascii := ascii_of_nat 10.

(** [re.match] of the pattern [^r$] as a truth value.  Without the
    [MULTILINE] flag, [$] matches at the end of the string and just before
    a newline that ends the string. *)
Definition match_line (r : regex) (s : str) : bool :=
  fullmatch r s
  || match last s with
     | Some c => bool_decide (c = newline) && fullmatch r (removelast s)
     | None => false
     end.

(** The strings a pattern denotes. *)
Inductive lang : regex → str → Prop :=
  | lang_eps : lang Eps []
  | lang_class p c : p c = true → lang (Class p) [c]
  | lang_cat r s u v : lang r u → lang s v → lang (Cat r s) (u ++ v)
  | lang_alt_l r s u : lang r u → lang (Alt r s) u
  | lang_alt_r r s u : lang s u → lang (Alt r s) u
  | lang_star_nil r : lang (Star r) []
  | lang_star_cons r u v :
      u ≠ [] → lang r u → lang (Star r) v → lang (Star r) (u ++ v).

End re.

(** ** app.py: validation of sign-up forms *)

Definition at_sign : ascii := ascii_of_nat 64.
Definition dot : ascii := ascii_of_nat 46.

(** The class [[^@\s]]. *)
Definition address_char (c : ascii) : bool :=
  negb (bool_decide (c = at_sign) || is_space c).

(** [EMAIL_PATTERN], between [^] and [$]: [[^@\s]+@[^@\s]+\.[^@\s]+]. *)
Definition EMAIL_PATTERN : re.regex :=
  re.Cat (re.Plus (re.Class address_char))
    (re.Cat (re.Class (λ c, bool_decide (c = at_sign)))
       (re.Cat (re.Plus (re.Class address_char))
          (re.Cat (re.Class (λ c, bool_decide (c = dot)))
             (re.Plus (re.Class address_char))))).

Definition _validate_email (email : str) : option str :=
  if negb (truthy email) then Some (lit "Email is required.")
  else if negb (re.match_line EMAIL_PATTERN email)
  then Some (lit "Enter a valid email address.")
  else None.

(** The classes [[A-Za-z]] and [[0-9]]. *)
Definition is_letter (c : ascii) : bool :=
  ((65 <=? code c) && (code c <=? 90)) || ((97 <=? code c) && (code c <=? 122)).

Definition _validate_password (password : str) : list str :=
  if negb (truthy password) then [lit "Password is required."]
  else
    (if length password <? 8
     then [lit "Password must be at least 8 characters long."] else [])
    ++ (if negb (re.search (re.Class is_letter) password)
        then [lit "Password must include at least one letter."] else [])
    ++ (if negb (re.search (re.Class is_digit) password)
        then [lit "Password must include at least one number."] else []).

(** ** app.py: the dashboard *)

(** The value an entry holds under ["score"]: no such key, [None], or a
    float. *)
Inductive score_value :=
  | NoScore
  | NullScore
  | Score (q : Q).

(** An entry as the dashboard reads it: its id, its score, and the time
    under ["created_at"], [None] when that key is missing. *)
Record session := Session {
  session_id : str;
  session_score : score_value;
  session_created_at : option Z
}.

(** A cached entry, read that way. *)
Definition session_of (entry : progress_entry) : session :=
  {| session_id := entry_id entry;
     session_score := Score (score entry);
     session_created_at := Some (created_at entry) |}.

(** [sorted(xs, key=key, reverse=True)]: largest key first, entries of
    equal key in the order they had. *)
Fixpoint insert_desc {A} (key : A → Z) (x : A) (xs : list A) : list A :=
  match xs with
  | [] => [x]
  | y :: xs' =>
      if (key x <? key y)%Z then y :: insert_desc key x xs' else x :: xs
  end.

Definition sorted_desc {A} (key : A → Z) (xs : list A) : list A :=
  foldr (insert_desc key) [] xs.

(** [xs[:stop]] *)
Definition slice_to {A} (stop : Z) (xs : list A) : list A :=
  if (stop <? 0)%Z
  then take (Z.to_nat (Z.of_nat (length xs) + stop)) xs
  else take (Z.to_nat stop) xs.

(** [fetch_progress_entries(user_id, limit)].  [streamed] are the payloads
    the Firestore query yields before it ends or fails, with their ids and
    coerced timestamps; without a client nothing is queried. *)
Definition fetch_progress_entries (user_id : str) (limit : Z)
    (streamed : list session) (st : store) : list session :=
  let entries :=
    match firestore st with
    | Some _ => streamed
    | None => []
    end in
  if negb (truthy entries)
  then
    let fallback := default [] (PROGRESS_CACHE st !! user_id) in
    session_of <$> slice_to limit (sorted_desc created_at fallback)
  else entries.

(** [float(entry.get("score", 0.0))] for the entries whose score is not
    [None]. *)
Definition scores_of (entries : list session) : list Q :=
  omap (λ entry, match session_score entry with
                 | Score q => Some q
                 | _ => None
                 end) entries.

(** [max(scores, default=None)]: the first of the largest scores. *)
Definition py_max (scores : list Q) : option Q :=
  match scores with
  | [] => None
  | q :: scores' =>
      Some (fold_left (λ best x, if Qle_bool x best then best else x)
              scores' q)
  end.

(** [sum(scores)] *)
Definition py_sum (scores : list Q) : Q := fold_left Qplus scores 0%Q.

Record summary := Summary {
  total_sessions : nat;
  average_score : option Q;
  best_score : option Q;
  last_score : option Q;
  last_practiced : option Z
}.

Definition summarise_progress (entries : list session) : result summary :=
  match entries with
  | [] =>
      Return {| total_sessions := 0; average_score := None;
                best_score := None; last_score := None;
                last_practiced := None |}
  | last_entry :: _ =>
      let scores := scores_of entries in
      let best_score := py_max scores in
      let average_score :=
        if truthy scores
        then Some (py_sum scores / inject_Z (Z.of_nat (length scores)))%Q
        else None in
      let last_score :=
        if truthy scores
        then match session_score last_entry with
             | Score q => Return (Some q)
             | NoScore => Return (Some 0%Q)
             | NullScore => Raise (Exception (lit "TypeError"))
             end
        else Return None in
      match last_score with
      | Raise e => Raise e
      | Return last_score =>
          Return {| total_sessions := length entries;
                    average_score := average_score;
                    best_score := best_score;
                    last_score := last_score;
                    last_practiced := session_created_at last_entry |}
      end
  end.

(** The view [dashboard], up to the values handed to the template. *)
Definition dashboard (current_user_id : str) (streamed : list session)
    (st : store) : result summary * list session :=
  let entries := fetch_progress_entries current_user_id 50 streamed st in
  (summarise_progress entries, entries).

(** Three sessions, the second without a score. *)
Definition sessions3 : list session :=
  [Session (lit "c") (Score 80) (Some 30%Z);
   Session (lit "b") NoScore (Some 20%Z);
   Session (lit "a") (Score 60) (Some 10%Z)].

(** ** ai_app.py: one exchange with the companion *)

(** What [recognizer.recognize_google] does: it returns a transcript, or
    raises [UnknownValueError], [RequestError] with a message, or another
    exception. *)
Inductive recognition :=
  | Heard (transcript : str)
  | UnknownValueError
  | RequestError (msg : str)
  | RecognitionFails (e : exn).

(** What one request to [process_audio] meets: the upload and the
    collaborators.
    - [audio_data]: whether [request.files.get("audio_data")] is truthy;
    - [uuid4_webm], [uuid4_mp3]: the two values of [uuid.uuid4().hex];
    - [capture]: saving the upload, the [ffmpeg] run and the reading of the
      waveform; [Some (e, files)] when one of them raises [e], with [files]
      left behind in the temporary folder;
    - [gemini]: the network of [call_gemini_api], which may depend on the
      messages sent;
    - [unlinks]: the removal of the two temporary files; [Some (e, first)]
      when it raises [e], in the second [unlink] if [first] holds and in
      the first one otherwise;
    - [gtts]: [Some (e, written)] when the synthesis raises [e], [written]
      telling whether the output file exists all the same. *)
Record booth := Booth {
  audio_data : bool;
  uuid4_webm : str;
  uuid4_mp3 : str;
  capture : option (exn * gset str);
  recognize_google : recognition;
  gemini : list turn → nat → http_reply;
  unlinks : option (exn * bool);
  gtts : option (exn * bool);
  AI_SYSTEM_PROMPT : str
}.

(** What the view works on: [session["history"]] and the names of the files
    in the temporary folder and in the upload folder. *)
Record studio := Studio {
  session_history : list turn;
  tmp_folder : gset str;
  upload_folder : gset str
}.

(** What the view returns: [jsonify({"error": message}), status], the
    answer of the [except] clause, [jsonify({"error": str(exc)}), 500], or
    the reply. *)
Inductive audio_response :=
  | AudioError (status : Z) (message : str)
  | AudioFailure (exc : exn)
  | AudioReply (transcript response_text audio_filename : str).

Definition star : ascii := ascii_of_nat 42.

(** [s.replace("*", "")] *)
Definition remove_stars (s : str) : str :=
  filter (λ c, c ≠ star) s.

(** The [try] around [recognize_google]. *)
Definition transcribe_speech (r : recognition) : result str :=
  match r with
  | Heard transcript => Return transcript
  | UnknownValueError => Return []
  | RequestError msg =>
      Raise (RuntimeError (lit "Speech recognition error: " ++ msg))
  | RecognitionFails e => Raise e
  end.

(** The body of [process_audio], for a request that passed
    [login_required]. *)
Definition process_audio (py_str : pyval → str) (b : booth) (st : studio)
    : audio_response * studio :=
  let history := session_history st in
  let system_msg := Turn (lit "system") (Some (AI_SYSTEM_PROMPT b)) in
  if negb (audio_data b)
  then (AudioError 400 (lit "No audio_data provided"), st)
  else
    let webm_path := uuid4_webm b ++ lit ".webm" in
    let wav_path := uuid4_webm b ++ lit ".wav" in
    match capture b with
    | Some (exc, remains) =>
        (AudioFailure exc,
         {| session_history := session_history st;
            tmp_folder := tmp_folder st ∪ remains;
            upload_folder := upload_folder st |})
    | None =>
        let tmp := tmp_folder st ∪ {[webm_path]} ∪ {[wav_path]} in
        match transcribe_speech (recognize_google b) with
        | Raise exc =>
            (AudioFailure exc,
             {| session_history := session_history st;
                tmp_folder := tmp;
                upload_folder := upload_folder st |})
        | Return transcript =>
            let history := history ++ [Turn (lit "user") (Some transcript)] in
            let messages := _truncate_history (system_msg :: history) in
            let failed exc :=
              (AudioFailure exc,
               {| session_history := history;
                  tmp_folder := tmp;
                  upload_folder := upload_folder st |}) in
            match (call_gemini_api py_str (gemini b messages) 3 1 fresh).1 with
            | Raise exc => failed exc
            | Return (PStr reply) =>
                let response_text := remove_stars reply in
                let history :=
                  history ++ [Turn (lit "assistant") (Some response_text)] in
                match unlinks b with
                | Some (exc, first) =>
                    (AudioFailure exc,
                     {| session_history := history;
                        tmp_folder :=
                          if first then tmp ∖ {[webm_path]} else tmp;
                        upload_folder := upload_folder st |})
                | None =>
                    let tmp := tmp ∖ {[webm_path]} ∖ {[wav_path]} in
                    let mp3_name := lit "resp_" ++ uuid4_mp3 b ++ lit ".mp3" in
                    match gtts b with
                    | Some (exc, remains) =>
                        (AudioFailure exc,
                         {| session_history := history;
                            tmp_folder := tmp;
                            upload_folder :=
                              if remains then upload_folder st ∪ {[mp3_name]}
                              else upload_folder st |})
                    | None =>
                        (AudioReply transcript response_text mp3_name,
                         {| session_history := history;
                            tmp_folder := tmp;
                            upload_folder :=
                              upload_folder st ∪ {[mp3_name]} |})
                    end
                end
            | Return _ => failed (Exception (lit "AttributeError"))
            end
        end
    end.

(** The sessions that can arise: a fresh one, and the ones [process_audio]
    leaves. *)
Inductive studio_reachable (py_str : pyval → str) : studio → Prop :=
  | studio_start tmp uploads :
      studio_reachable py_str
        {| session_history := []; tmp_folder := tmp; upload_folder := uploads |}
  | studio_step b st :
      studio_reachable py_str st →
      studio_reachable py_str (process_audio py_str b st).2.

(** A turn that a session may hold: a user turn, or an assistant turn
    without asterisks. *)
Definition stored_turn (t : turn) : Prop :=
  author t = lit "user"
  ∨ (author t = lit "assistant"
     ∧ ∃ s, text t = Some s ∧ star ∉ s).

(** Every assistant turn comes directly after a user turn. *)
Fixpoint replies_follow_users (previous : option turn) (history : list turn)
    : Prop :=
  match history with
  | [] => True
  | t :: history' =>
      (author t = lit "assistant" →
       ∃ u, previous = Some u ∧ author u = lit "user")
      ∧ replies_follow_users (Some t) history'
  end.

(** A request whose recognition and dialogue go well. *)
Definition booth_hi : booth :=
  {| audio_data := true;
     uuid4_webm := lit "0a";
     uuid4_mp3 := lit "0b";
     capture := None;
     recognize_google := Heard (lit "hello");
     gemini := λ _, λ _, reply_hi;
     unlinks := None;
     gtts := None;
     AI_SYSTEM_PROMPT := lit "You are restricted to respond in 20 words." |}.

(** A request whose dialogue call meets HTTP 404. *)
Definition booth_404 : booth :=
  {| audio_data := true;
     uuid4_webm := lit "0a";
     uuid4_mp3 := lit "0b";
     capture := None;
     recognize_google := Heard (lit "hello");
     gemini := λ _, network_404;
     unlinks := None;
     gtts := None;
     AI_SYSTEM_PROMPT := lit "You are restricted to respond in 20 words." |}.

Definition studio0 : studio :=
  {| session_history := []; tmp_folder := ∅; upload_folder := ∅ |}.

(** ** app.py: the user directory *)

(** A record of [USERS]: a dict with the keys ["email"],
    ["password_hash"] and ["role"]. *)
Record user_record := UserRecord {
  record_email : str;
  record_password_hash : str;
  record_role : str
}.

(** A document of the Firestore collection ["users"]; a field is [None]
    when the document does not have it, and a string when it does. *)
Record user_doc := UserDoc {
  doc_email : option str;
  doc_password_hash : option str;
  doc_role : option str
}.

(** [class User]: [id] and [role]. *)
Record User := mkUser { get_id : str; user_role : str }.

Definition is_admin (user : User) : bool :=
  bool_decide (user_role user = lit "admin").

(** The state the account views work on.
    - [USERS]: the module's dict;
    - [users_collection]: the documents of the collection ["users"], [None]
      when Firestore is not to be had (the module [firestore] is [None]);
    - [FIRESTORE_CLIENT]: whether the global of that name holds a client;
    - [remote_calls]: for each of the coming remote calls (the creation of
      the client, and the calls of the client), whether it goes through;
      the calls beyond the list go through;
    - [current_user]: the signed-in user, [None] for an anonymous visitor;
    - [flashes]: the flashed messages with their categories, oldest
      first. *)
Record site := Site {
  USERS : gmap str user_record;
  users_collection : option (gmap str user_doc);
  FIRESTORE_CLIENT : bool;
  remote_calls : list bool;
  current_user : option User;
  flashes : list (str * str)
}.

(** Computations on the site. *)
Definition Act (A : Type) : Type := site → A * site.

#[global] Instance Act_ret : MRet Act := λ A a st, (a, st).

#[global] Instance Act_bind : MBind Act := λ A B k m st,
  match m st with
  | (a, st') => k a st'
  end.

Definition set_USERS (users : gmap str user_record) : Act unit := λ st,
  (tt, {| USERS := users; users_collection := users_collection st;
          FIRESTORE_CLIENT := FIRESTORE_CLIENT st;
          remote_calls := remote_calls st; current_user := current_user st;
          flashes := flashes st |}).

Definition set_users_collection (docs : gmap str user_doc) : Act unit := λ st,
  (tt, {| USERS := USERS st; users_collection := Some docs;
          FIRESTORE_CLIENT := FIRESTORE_CLIENT st;
          remote_calls := remote_calls st; current_user := current_user st;
          flashes := flashes st |}).

Definition set_FIRESTORE_CLIENT : Act unit := λ st,
  (tt, {| USERS := USERS st; users_collection := users_collection st;
          FIRESTORE_CLIENT := true;
          remote_calls := remote_calls st; current_user := current_user st;
          flashes := flashes st |}).

(** One remote call: [true] when it goes through. *)
Definition remote_call : Act bool := λ st,
  match remote_calls st with
  | [] => (true, st)
  | ok :: rest =>
      (ok, {| USERS := USERS st; users_collection := users_collection st;
              FIRESTORE_CLIENT := FIRESTORE_CLIENT st;
              remote_calls := rest; current_user := current_user st;
              flashes := flashes st |})
  end.

(** [flash(message, category)] *)
Definition flash (message category : str) : Act unit := λ st,
  (tt, {| USERS := USERS st; users_collection := users_collection st;
          FIRESTORE_CLIENT := FIRESTORE_CLIENT st;
          remote_calls := remote_calls st; current_user := current_user st;
          flashes := flashes st ++ [(message, category)] |}).

(** [login_user(user)] *)
Definition login_user (user : User) : Act unit := λ st,
  (tt, {| USERS := USERS st; users_collection := users_collection st;
          FIRESTORE_CLIENT := FIRESTORE_CLIENT st;
          remote_calls := remote_calls st; current_user := Some user;
          flashes := flashes st |}).

Definition get_site : Act site := λ st, (st, st).

(** [for err in errors: flash(err, "error")] *)
Fixpoint flash_errors (errors : list str) : Act unit :=
  match errors with
  | [] => mret tt
  | err :: errors' => flash err (lit "error");; flash_errors errors'
  end.

(** [request.form.get(key, "")] *)
Definition form_get (form : gmap str str) (key : str) : str :=
  default [] (form !! key).

(** [v or d] on strings *)
Definition str_or (v d : str) : str := if truthy v then v else d.

Definition ROLE_OPTIONS : list str := [lit "admin"; lit "user"].

(** The record that the document [data] of id [id] gives, if it gives one:
    what [_fetch_user_from_firestore] and the loop of
    [_refresh_users_from_firestore] make of a document. *)
Definition record_of_document (id : str) (data : user_doc)
    : option user_record :=
  let email := strip (str_or (default [] (doc_email data)) id) in
  let password_hash := default [] (doc_password_hash data) in
  if negb (truthy email) || negb (truthy password_hash) then None
  else Some {| record_email := email;
               record_password_hash := password_hash;
               record_role := default (lit "user") (doc_role data) |}.

(** The loop of [_refresh_users_from_firestore] over the documents that
    the stream yields. *)
Fixpoint refresh_loop (documents : list (str * user_doc))
    (users : gmap str user_record) : gmap str user_record :=
  match documents with
  | [] => users
  | (id, data) :: documents' =>
      refresh_loop documents'
        match record_of_document id data with
        | Some record => <[lower (record_email record) := record]> users
        | None => users
        end
  end.

(** [_refresh_users_from_firestore], once it has the client: the stream,
    which may fail, and the loop.  The documents are streamed in the order
    in which the map lists them. *)
Definition stream_users (docs : gmap str user_doc) : Act unit :=
  ok ← remote_call;
  if ok : bool
  then st ← get_site;
       set_USERS (refresh_loop (map_to_list docs) (USERS st))
  else mret tt.

(** [init_firebase].  When the client is created, it ends with
    [_refresh_users_from_firestore()], whose [_get_firestore_client()]
    returns the client just created. *)
Definition init_firebase : Act unit :=
  st ← get_site;
  if FIRESTORE_CLIENT st then mret tt
  else
    match users_collection st with
    | None => mret tt
    | Some docs =>
        ok ← remote_call;
        if ok : bool
        then set_FIRESTORE_CLIENT;; stream_users docs
        else mret tt
    end.

(** [_get_firestore_client]: the documents that the client reaches, [None]
    when there is no client. *)
Definition _get_firestore_client : Act (option (gmap str user_doc)) :=
  st ← get_site;
  if FIRESTORE_CLIENT st then mret (users_collection st)
  else
    init_firebase;;
    st ← get_site;
    mret (if FIRESTORE_CLIENT st then users_collection st else None).

Definition _refresh_users_from_firestore : Act unit :=
  client ← _get_firestore_client;
  match client with
  | None => mret tt
  | Some docs => stream_users docs
  end.

Definition _persist_user_to_firestore (record : user_record) : Act unit :=
  st ← get_site;
  match users_collection st with
  | None => mret tt
  | Some _ =>
      let email := strip (record_email record) in
      let password_hash := record_password_hash record in
      if negb (truthy email) || negb (truthy password_hash) then mret tt
      else
        client ← _get_firestore_client;
        match client with
        | None => mret tt
        | Some docs =>
            ok ← remote_call;
            if ok : bool
            then set_users_collection
                   (<[lower email :=
                        {| doc_email := Some email;
                           doc_password_hash := Some password_hash;
                           doc_role := Some (record_role record) |}]>
                      docs)
            else mret tt
        end
  end.

Definition _store_user (email password_hash role : str) : Act unit :=
  let record := {| record_email := email;
                   record_password_hash := password_hash;
                   record_role := role |} in
  st ← get_site;
  set_USERS (<[lower email := record]> (USERS st));;
  _persist_user_to_firestore record.

Definition _fetch_user_from_firestore (email : str)
    : Act (option user_record) :=
  if negb (truthy email) then mret None
  else
    client ← _get_firestore_client;
    match client with
    | None => mret None
    | Some docs =>
        ok ← remote_call;
        if negb (ok : bool) then mret None
        else
          match docs !! lower email with
          | None => mret None
          | Some data =>
              match record_of_document (lower email) data with
              | None => mret None
              | Some record =>
                  st ← get_site;
                  set_USERS
                    (<[lower (record_email record) := record]> (USERS st));;
                  mret (Some record)
              end
          end
    end.

Definition _delete_user_from_firestore (email : str) : Act unit :=
  st ← get_site;
  match users_collection st with
  | None => mret tt
  | Some _ =>
      let email := strip email in
      if negb (truthy email) then mret tt
      else
        client ← _get_firestore_client;
        match client with
        | None => mret tt
        | Some docs =>
            ok ← remote_call;
            if ok : bool then set_users_collection (delete (lower email) docs)
            else mret tt
        end
  end.

(** [USERS.get(key) or _fetch_user_from_firestore(email)] *)
Definition known_user (key email : str) : Act (option user_record) :=
  st ← get_site;
  match USERS st !! key with
  | Some record => mret (Some record)
  | None => _fetch_user_from_firestore email
  end.

(** [User.get(email)] *)
Definition User_get (email : str) : Act (option User) :=
  record ← known_user (lower email) email;
  mret ((λ record, mkUser (record_email record) (record_role record))
          <$> record).

Definition _count_admins (users : gmap str user_record) : nat :=
  size (filter (λ entry, record_role entry.2 = lit "admin") users).

(** The checks on the password and its confirmation; [missing] is the
    message for an empty confirmation. *)
Definition password_errors (password confirm missing : str) : list str :=
  _validate_password password
  ++ (if negb (truthy confirm) then [missing]
      else if negb (bool_decide (password = confirm))
      then [lit "Passwords do not match."]
      else []).

(** The checks on a new account's email: [_validate_email], then the
    lookup of an account that has it. *)
Definition new_email_errors (email_raw : str) : Act (list str) :=
  let email_error := option_list (_validate_email email_raw) in
  if truthy email_raw
  then
    existing_user ← known_user (lower email_raw) email_raw;
    mret (email_error
          ++ match existing_user with
             | Some _ => [lit "An account with this email already exists."]
             | None => []
             end)
  else mret email_error.

Section Accounts.

(** [werkzeug.security.generate_password_hash], taken as given; the salt it
    draws is left out. *)
Variable generate_password_hash : str → str.

(** [register], up to the redirect or the page it answers with. *)
Definition register (method : str) (form : gmap str str) : Act unit :=
  st ← get_site;
  match current_user st with
  | Some _ => mret tt
  | None =>
      if negb (bool_decide (method = lit "POST")) then mret tt
      else
        let email_raw := strip (form_get form (lit "email")) in
        let password := form_get form (lit "password") in
        let confirm := form_get form (lit "confirm_password") in
        email_errors ← new_email_errors email_raw;
        let errors :=
          email_errors
          ++ password_errors password confirm
               (lit "Please confirm your password.") in
        if truthy errors then flash_errors errors
        else
          _store_user email_raw (generate_password_hash password)
            (lit "user");;
          login_user (mkUser email_raw (lit "user"));;
          flash (lit "Registration successful!") (lit "success")
  end.

Definition _admin_create_user (form : gmap str str) : Act unit :=
  let email_raw := strip (form_get form (lit "email")) in
  let password := form_get form (lit "password") in
  let confirm := form_get form (lit "confirm_password") in
  let role := lower (str_or (form_get form (lit "role")) (lit "user")) in
  email_errors ← new_email_errors email_raw;
  let errors :=
    email_errors
    ++ password_errors password confirm (lit "Please confirm the password.")
    ++ (if negb (bool_decide (role ∈ ROLE_OPTIONS))
        then [lit "Invalid role selection."] else []) in
  if truthy errors then flash_errors errors
  else
    _store_user email_raw (generate_password_hash password) role;;
    flash (lit "User created successfully.") (lit "success").

(** [USERS.get(lookup_key)], and the remote lookup when that is [None] and
    the email is not empty. *)
Definition find_record (lookup_key email : str) : Act (option user_record) :=
  st ← get_site;
  match USERS st !! lookup_key with
  | Some record => mret (Some record)
  | None =>
      if truthy email then _fetch_user_from_firestore email else mret None
  end.

Definition _admin_update_user (form : gmap str str) : Act unit :=
  let original_email := strip (form_get form (lit "original_email")) in
  let lookup_key := lower original_email in
  record ← find_record lookup_key original_email;
  match record with
  | None => flash (lit "User not found.") (lit "error")
  | Some record =>
      let new_email := strip (form_get form (lit "email")) in
      let role :=
        lower (str_or (form_get form (lit "role")) (record_role record)) in
      let password := form_get form (lit "password") in
      let confirm := form_get form (lit "confirm_password") in
      email_errors ←
        match _validate_email new_email with
        | Some email_error => mret [email_error]
        | None =>
            if negb (bool_decide (lower new_email = lower original_email))
            then
              existing_user ← known_user (lower new_email) new_email;
              mret match existing_user with
                   | Some _ => [lit "Another user already uses that email."]
                   | None => []
                   end
            else mret []
        end;
      let errors :=
        email_errors
        ++ (if negb (bool_decide (role ∈ ROLE_OPTIONS))
            then [lit "Invalid role selection."] else [])
        ++ (if truthy password || truthy confirm
            then password_errors password confirm
                   (lit "Please confirm the password.")
            else []) in
      if truthy errors then flash_errors errors
      else
        st ← get_site;
        let was_admin := bool_decide (record_role record = lit "admin") in
        let will_be_admin := bool_decide (role = lit "admin") in
        if was_admin && negb will_be_admin && (_count_admins (USERS st) <=? 1)
        then flash (lit "At least one admin must remain.") (lit "error")
        else
          let new_record :=
            {| record_email := new_email;
               record_password_hash :=
                 if truthy password then generate_password_hash password
                 else record_password_hash record;
               record_role := role |} in
          let original_key := lookup_key in
          let new_key := lower new_email in
          set_USERS (<[new_key := new_record]> (delete original_key (USERS st)));;
          _persist_user_to_firestore new_record;;
          (if negb (bool_decide (new_key = original_key))
              && truthy original_email
           then _delete_user_from_firestore original_email
           else mret tt);;
          st ← get_site;
          (match current_user st with
           | Some user =>
               if bool_decide (lower (get_id user) = lower original_email)
               then
                 login_user (mkUser (record_email new_record)
                               (record_role new_record));;
                 flash (lit "Your profile has been updated.") (lit "info")
               else mret tt
           | None => mret tt
           end);;
          flash (lit "User updated successfully.") (lit "success")
  end.

Definition _admin_delete_user (form : gmap str str) : Act unit :=
  let email_raw := strip (form_get form (lit "email")) in
  let lookup_key := lower email_raw in
  record ← find_record lookup_key email_raw;
  match record with
  | None => flash (lit "User not found.") (lit "error")
  | Some record =>
      st ← get_site;
      if match current_user st with
         | Some user => bool_decide (lower (get_id user) = lookup_key)
         | None => false
         end
      then flash (lit "You cannot delete your own account while signed in.")
             (lit "error")
      else if bool_decide (record_role record = lit "admin")
              && (_count_admins (USERS st) <=? 1)
      then flash (lit "At least one admin must remain.") (lit "error")
      else
        set_USERS (delete lookup_key (USERS st));;
        (if truthy email_raw then _delete_user_from_firestore email_raw
         else mret tt);;
        flash (lit "User deleted.") (lit "success")
  end.

(** [admin_users], for a signed-in admin (a request that passed
    [login_required] and [_require_admin]), up to the redirect or the page
    it answers with.  [args] is [request.args].  On a [GET], the users are
    refreshed and the selected user is looked up; when one is found,
    [fetch_progress_entries] asks for the client once more. *)
Definition admin_users (method : str) (args form : gmap str str)
    : Act unit :=
  if bool_decide (method = lit "POST")
  then
    let action := lower (form_get form (lit "action")) in
    if bool_decide (action = lit "create") then _admin_create_user form
    else if bool_decide (action = lit "update") then _admin_update_user form
    else if bool_decide (action = lit "delete") then _admin_delete_user form
    else flash (lit "Unknown action.") (lit "error")
  else
    _refresh_users_from_firestore;;
    let selected_email := strip (form_get args (lit "user")) in
    if truthy selected_email
    then
      selected_user ← known_user (lower selected_email) selected_email;
      match selected_user with
      | Some _ => _get_firestore_client;; mret tt
      | None => mret tt
      end
    else mret tt.

End Accounts.

(** The documents are filed as the application files them: under the
    lowercased email they hold, or under an id that reads as an email when
    they hold none. *)
Definition filed_by_email (st : site) : Prop :=
  ∀ docs id data,
    users_collection st = Some docs → docs !! id = Some data →
    lower (strip (str_or (default [] (doc_email data)) id)) = id.

(** The client is not about to be created: it exists, or Firestore is not
    to be had.  (Its creation refreshes [USERS] from the documents.) *)
Definition client_settled (st : site) : Prop :=
  FIRESTORE_CLIENT st = true ∨ users_collection st = None.

(** The two together. *)
Definition remote_in_order (st : site) : Prop :=
  client_settled st ∧ filed_by_email st.

(** An action that leaves [USERS] as it is, and the client settled. *)
Definition keeps_records {A} (m : Act A) : Prop :=
  ∀ st, client_settled st →
        USERS (m st).2 = USERS st ∧ client_settled (m st).2.

Definition keeps_order {A} (m : Act A) : Prop :=
  ∀ st, remote_in_order st → remote_in_order (m st).2.

(** An action that deletes no record and leaves the documents and the
    signed-in user as they are. *)
Definition gentle {A} (m : Act A) : Prop :=
  ∀ st,
    current_user (m st).2 = current_user st ∧
    users_collection (m st).2 = users_collection st ∧
    ∀ key, is_Some (USERS st !! key) → is_Some (USERS (m st).2 !! key).

(** Some record of [USERS] has the role ["admin"]. *)
Definition has_admin (st : site) : Prop :=
  ∃ key record,
    USERS st !! key = Some record ∧ record_role record = lit "admin".

(** A site with one admin, who is signed in, and without Firestore. *)
Definition site0 : site :=
  {| USERS := {[lit "coach@example.com" :=
                  {| record_email := lit "coach@example.com";
                     record_password_hash := lit "hash";
                     record_role := lit "admin" |}]};
     users_collection := None;
     FIRESTORE_CLIENT := false;
     remote_calls := [];
     current_user := Some (mkUser (lit "coach@example.com") (lit "admin"));
     flashes := [] |}.

(** The form that asks to delete the account of the admin of [site0]. *)
Definition form_delete_coach : gmap str str :=
  {[lit "action" := lit "delete"; lit "email" := lit "Coach@example.com"]}.

(** The form that asks to make the admin of [site0] a plain user. *)
Definition form_demote_coach : gmap str str :=
  {[lit "action" := lit "update";
    lit "original_email" := lit "coach@example.com";
    lit "email" := lit "coach@example.com";
    lit "role" := lit "user"]}.

(** The same site with its Firestore client, the admin's document in the
    collection, and nobody signed in. *)
Definition site1 : site :=
  {| USERS := {[lit "coach@example.com" :=
                  {| record_email := lit "coach@example.com";
                     record_password_hash := lit "hash";
                     record_role := lit "admin" |}]};
     users_collection :=
       Some {[lit "coach@example.com" :=
                {| doc_email := Some (lit "coach@example.com");
                   doc_password_hash := Some (lit "hash");
                   doc_role := Some (lit "admin") |}]};
     FIRESTORE_CLIENT := true;
     remote_calls := [];
     current_user := None;
     flashes := [] |}.

(** A sign-up form that passes the checks. *)
Definition form_sign_up : gmap str str :=
  {[lit "email" := lit "Pupil@example.com";
    lit "password" := lit "practice123";
    lit "confirm_password" := lit "practice123"]}.

(** ** app.py: the practice route *)

(** An item of [SENTENCES] or [PARAGRAPHS]: a dict with the keys ["id"] and
    ["text"]. *)
Record content_item := ContentItem { item_id : Z; item_text : str }.

Definition item_dict (item : content_item) : list (str * pyval) :=
  [(lit "id", PInt (item_id item)); (lit "text", PStr (item_text item))].

Definition SENTENCES : list content_item :=
  [ContentItem 1 (lit "She sells seashells by the seashore.");
   ContentItem 2 (lit "The quick brown fox jumps over the lazy dog.");
   ContentItem 3 (lit "Practice makes perfect when learning pronunciation.");
   ContentItem 4 (lit "Speaking clearly requires focus and confidence.")].

(** What one request to [transcribe] brings and meets.
    - [audio_in_files]: whether ["audio"] is in [request.files];
    - [practice_form]: [request.form];
    - [upload_filename]: [audio_file.filename];
    - [temp_file]: the name of the file that [NamedTemporaryFile] creates,
      or the exception it raises;
    - [upload_saved]: the exception that [audio_file.save] raises, if any;
    - [transcription]: the value of [transcription.get("text", "")] after
      [load_model] and [model.transcribe], or the exception one of them
      raises;
    - [unlinked]: whether [temp_file.unlink()] goes through. *)
Record recording := Recording {
  audio_in_files : bool;
  practice_form : gmap str str;
  upload_filename : str;
  temp_file : result str;
  upload_saved : option exn;
  transcription : result str;
  unlinked : bool
}.

(** What the view works on: the progress store and the names of the files
    in the directory of temporary files. *)
Record practice := Practice {
  progress : store;
  temp_folder : gset str
}.

(** What the view returns: [jsonify({"error": message}), status]; the
    answer of the [except] clause, with status 500; or the payload with the
    transcript, the target, the score and the content type. *)
Inductive practice_response :=
  | PracticeError (status : Z) (message : str)
  | PracticeFailure (exc : exn)
  | PracticeResult (transcript target : str) (score : Q) (contentType : str).

Section Practice.

(** [int(s)], the builtin, taken as given: [None] stands for
    [ValueError]. *)
Variable py_int : str → option Z.

(** [PARAGRAPHS], taken as given: its texts have characters beyond
    Latin-1. *)
Variable PARAGRAPHS : list content_item.

(** The [finally] clause: the temporary file is removed if it is there and
    the removal goes through. *)
Definition remove_temp (name : str) (ok : bool) (files : gset str) : gset str :=
  if ok then files ∖ {[name]} else files.

(** The body of [transcribe], for a request that passed [login_required];
    [user] is [current_user.id], [None] for a user who is not
    authenticated. *)
Definition transcribe (user : option str) (env : environment)
    (r : recording) (st : practice) : practice_response * practice :=
  if negb (audio_in_files r)
  then (PracticeError 400 (lit "No audio file provided."), st)
  else
    let content_type_raw :=
      default (lit "sentence") (practice_form r !! lit "contentType") in
    let content_type :=
      lower (strip (str_or content_type_raw (lit "sentence"))) in
    if negb (bool_decide (content_type ∈ [lit "sentence"; lit "paragraph"]))
    then (PracticeError 400 (lit "Invalid content type."), st)
    else
      let content_id :=
        str_or (form_get (practice_form r) (lit "contentId"))
          (form_get (practice_form r) (lit "sentenceId")) in
      if negb (truthy content_id)
      then (PracticeError 400 (lit "Content identifier missing."), st)
      else
        match py_int content_id with
        | None =>
            (PracticeError 400 (lit "Content identifier must be an integer."),
             st)
        | Some content_id_int =>
            let items :=
              if bool_decide (content_type = lit "sentence")
              then SENTENCES else PARAGRAPHS in
            match find (λ item, bool_decide (item_id item = content_id_int))
                    items with
            | None =>
                (PracticeError 404
                   (if bool_decide (content_type = lit "paragraph")
                    then lit "Paragraph not found."
                    else lit "Sentence not found."), st)
            | Some content =>
                if bool_decide (upload_filename r = [])
                then (PracticeError 400 (lit "Empty audio file."), st)
                else
                  match temp_file r with
                  | Raise exc => (PracticeFailure exc, st)
                  | Return temp_name =>
                      let files := temp_folder st ∪ {[temp_name]} in
                      match upload_saved r with
                      | Some exc =>
                          (PracticeFailure exc,
                           {| progress := progress st;
                              temp_folder := files |})
                      | None =>
                          let files := remove_temp temp_name (unlinked r) files in
                          match transcription r with
                          | Raise exc =>
                              (PracticeFailure exc,
                               {| progress := progress st;
                                  temp_folder := files |})
                          | Return heard =>
                              let transcript_text := strip heard in
                              match calculate_similarity (item_text content)
                                      transcript_text with
                              | None =>
                                  (PracticeFailure
                                     (RuntimeError (lit "SequenceMatcher")),
                                   {| progress := progress st;
                                      temp_folder := files |})
                              | Some similarity_score =>
                                  (PracticeResult transcript_text
                                     (item_text content) similarity_score
                                     content_type,
                                   {| progress :=
                                        match user with
                                        | Some current_user_id =>
                                            save_progress_entry
                                              current_user_id
                                              (item_dict content)
                                              transcript_text
                                              similarity_score content_type
                                              env (progress st)
                                        | None => progress st
                                        end;
                                      temp_folder := files |})
                              end
                          end
                      end
                  end
            end
        end.

End Practice.

(** Stand-in for [int] that reads one digit. *)
Definition int_digit (s : str) : option Z :=
  match s with
  | [c] => if is_digit c then Some (Z.of_nat (code c) - 48)%Z else None
  | _ => None
  end.

(** A recording of sentence 1 that is heard well. *)
Definition recording1 : recording :=
  {| audio_in_files := true;
     practice_form := {[lit "contentId" := lit "1"]};
     upload_filename := lit "take.webm";
     temp_file := Return (lit "tmp0.webm");
     upload_saved := None;
     transcription := Return (lit " she sells seashells by the seashore ");
     unlinked := true |}.

Definition practice0 : practice :=
  {| progress := store0; temp_folder := ∅ |}.

(** * Properties *)

(** ** Words of a string *)

Section Words.

Lemma split_scan_nil tok : tok ≠ [] → split_scan tok [] = [tok].
Proof. by destruct tok. Qed.

Lemma split_scan_space tok c s :
  is_space c = true → tok ≠ [] →
  split_scan tok (c :: s) = tok :: split_scan [] s.
Proof. intros Hc Htok. simpl. rewrite Hc. by destruct tok. Qed.

Lemma split_scan_run tok w s :
  Forall (λ c, is_space c = false) w →
  split_scan tok (w ++ s) = split_scan (tok ++ w) s.
Proof.
  intros Hw. revert tok.
  induction Hw as [|c w Hc _ IH]; intros tok; simpl.
  - by rewrite app_nil_r.
  - rewrite Hc, IH. by rewrite <- app_assoc.
Qed.

Lemma split_scan_run_nil tok w :
  Forall (λ c, is_space c = false) w → tok ++ w ≠ [] →
  split_scan tok w = [tok ++ w].
Proof.
  intros Hw Hne. rewrite <- (app_nil_r w) at 1.
  rewrite split_scan_run by done. by apply split_scan_nil.
Qed.

Lemma split_scan_words tok s :
  Forall (λ c, is_space c = false) tok →
  Forall word (split_scan tok s).
Proof.
  revert tok. induction s as [|c s IH]; intros tok Htok; simpl.
  - destruct tok as [|t tok]; [constructor|].
    constructor; [by split|constructor].
  - destruct (is_space c) eqn:Hc.
    + destruct tok as [|t tok]; [by apply IH|].
      constructor; [by split|by apply IH].
    + apply IH. apply Forall_app. by repeat constructor.
Qed.

Lemma split_words s : Forall word (split s).
Proof. by apply split_scan_words. Qed.

Lemma is_space_space : is_space space = true.
Proof. reflexivity. Qed.

Lemma join_cons sep w ws :
  ws ≠ [] → join sep (w :: ws) = w ++ sep ++ join sep ws.
Proof. by destruct ws. Qed.

(** Splitting what [join] made of words gives the words back; a last
    run [t] without whitespace sticks to the last word. *)
Lemma split_scan_join_snoc tok ws w t :
  Forall word ws → word w → Forall (λ c, is_space c = false) t →
  split_scan tok (join (lit " ") (ws ++ [w]) ++ t) =
    match ws with
    | [] => [tok ++ w ++ t]
    | w0 :: ws' => (tok ++ w0) :: ws' ++ [w ++ t]
    end.
Proof.
  intros Hws [Hne Hw] Ht. revert tok.
  induction Hws as [|w0 ws [Hne0 Hw0] Hws IH]; intros tok.
  - simpl. apply split_scan_run_nil; [by apply Forall_app|].
    by destruct tok, w.
  - rewrite <- app_comm_cons, join_cons by (by destruct ws).
    rewrite <- !app_assoc, split_scan_run by done.
    change (lit " " ++ ?x) with (space :: x).
    rewrite split_scan_space; [|done|by destruct tok, w0].
    rewrite IH. by destruct ws.
Qed.

Lemma split_join_tail ws w t :
  Forall word (ws ++ [w]) → Forall (λ c, is_space c = false) t →
  split (join (lit " ") (ws ++ [w]) ++ t) = ws ++ [w ++ t].
Proof.
  intros [Hws Hw]%Forall_app Ht. rewrite Forall_singleton in Hw.
  unfold split. rewrite split_scan_join_snoc; [by destruct ws|done..].
Qed.

Lemma split_join ws : Forall word ws → split (join (lit " ") ws) = ws.
Proof.
  intros Hws. destruct ws as [|w ws _] using rev_ind; [done|].
  rewrite <- (app_nil_r (join _ _)).
  rewrite split_join_tail by (done || constructor). by rewrite app_nil_r.
Qed.

End Words.

(** ** Reply truncation *)

Lemma nonspace_dots : Forall (λ c, is_space c = false) (lit "...").
Proof. by repeat constructor. Qed.

(** C5.  A reply of more than 150 words reaches the text-to-speech engine
    as its first 150 words, joined by single spaces, followed by the marker
    ["..."]: split again, that text has exactly those 150 words, the marker
    attached to the last one.  A reply of at most 150 words is handed over
    unchanged. *)
Theorem synthesize_conversational_truncates (text : str) :
  let words := split text in
  (length words ≤ 150 → synthesize_conversational text = text) ∧
  (150 < length words →
     synthesize_conversational text
       = join (lit " ") (take 150 words) ++ lit "..." ∧
     length (take 150 words) = 150 ∧
     ∃ init w,
       take 150 words = init ++ [w] ∧
       split (synthesize_conversational text) = init ++ [w ++ lit "..."]).
Proof.
  intros words. unfold synthesize_conversational. fold words. split.
  - intros Hle. by rewrite (proj2 (Nat.ltb_ge _ _) Hle).
  - intros Hlt. rewrite (proj2 (Nat.ltb_lt _ _) Hlt).
    assert (Hlen : length (take 150 words) = 150) by (rewrite length_take; lia).
    split; [done|]. split; [done|].
    destruct (take 150 words) as [|w init _] eqn:Htake using rev_ind;
      [done|].
    exists init, w. split; [done|].
    apply split_join_tail; [|apply nonspace_dots].
    rewrite <- Htake. apply Forall_take, split_words.
  Qed.

Lemma synthesize_conversational_truncates_witness :
  length (split reply_200) = 200 ∧
  length (take 150 (split reply_200)) = 150 ∧
  synthesize_conversational reply_200
    = join (lit " ") (take 150 (split reply_200)) ++ lit "...".
Proof.
  split; [by vm_compute|].
  destruct (synthesize_conversational_truncates reply_200) as [_ H].
  destruct H as (H1 & H2 & _).
  - vm_compute. lia.
  - by split.
Defined.

(** ** History truncation *)

Section History.

Lemma total_words_app xs ys :
  total_words (xs ++ ys) = total_words xs + total_words ys.
Proof. apply sum_list_with_app. Qed.

Lemma total_words_reverse xs : total_words (rev xs) = total_words xs.
Proof.
  induction xs as [|x xs IH]; [done|]. simpl rev.
  rewrite total_words_app, IH. unfold total_words. simpl. lia.
Qed.

(** What the loop has when it stops: [trimmed] grown by a prefix [kept] of
    the entries still to visit, the first entry left out being the one
    that would break the budget. *)
Lemma truncate_loop_spec entries trimmed :
  (total_words trimmed ≤ 3000 ∨ length trimmed = 1) →
  ∃ kept rest,
    entries = kept ++ rest ∧
    truncate_loop entries (total_words trimmed) trimmed = trimmed ++ kept ∧
    (total_words (trimmed ++ kept) ≤ 3000 ∨ length (trimmed ++ kept) = 1) ∧
    (entries ≠ [] → trimmed ++ kept ≠ []) ∧
    (∀ d, head rest = Some d →
          3000 < total_words (trimmed ++ kept) + entry_words d).
Proof.
  revert trimmed. induction entries as [|e entries IH]; intros trimmed Hinv.
  - exists [], []. split_and!; rewrite ?app_nil_r; done.
  - simpl.
    destruct ((3000 <? total_words trimmed + entry_words e) && truthy trimmed)
      eqn:Hbreak.
    + apply andb_true_iff in Hbreak as [Hover%Nat.ltb_lt Hne].
      exists [], (e :: entries). split_and!; rewrite ?app_nil_r; try done.
      * intros _ ->. done.
      * intros d [= <-]. done.
    + destruct (IH (trimmed ++ [e])) as (kept & rest & -> & Hrun & Hb & _ & Hmax).
      { apply andb_false_iff in Hbreak as [Hfit%Nat.ltb_ge|Hnil].
        - left. rewrite total_words_app. unfold total_words at 2. simpl. lia.
        - right. by destruct trimmed. }
      exists (e :: kept), rest.
      rewrite total_words_app in Hrun. unfold total_words at 2 in Hrun.
      simpl in Hrun. rewrite Nat.add_0_r in Hrun.
      rewrite <- !app_assoc in *. simpl in *.
      split_and!; try done.
      intros _. by destruct trimmed.
Qed.

End History.

(** C3.  [_truncate_history] returns a suffix of the turns it is given, in
    their order: only oldest turns are dropped.  The newest turn is always
    kept.  What is kept has at most 3000 words, unless it is the newest turn
    alone; and no turn is dropped needlessly: the newest dropped turn would
    have taken the kept ones over the budget. *)
Theorem truncate_history_keeps_newest_within_budget (messages : list turn) :
  ∃ dropped,
    messages = dropped ++ _truncate_history messages ∧
    last (_truncate_history messages) = last messages ∧
    (total_words (_truncate_history messages) ≤ 3000
     ∨ ∃ newest, _truncate_history messages = [newest]
                 ∧ last messages = Some newest) ∧
    (∀ d, last dropped = Some d →
          3000 < entry_words d + total_words (_truncate_history messages)).
Proof.
  unfold _truncate_history.
  destruct (truncate_loop_spec (rev messages) []) as
    (kept & rest & Hsplit & Hrun & Hbudget & Hne & Hmax).
  { left. unfold total_words. simpl. lia. }
  change (total_words []) with 0 in Hrun. rewrite Hrun. simpl in *.
  apply (f_equal (@rev turn)) in Hsplit. rewrite rev_involutive, rev_app_distr in Hsplit.
  exists (rev rest). split; [done|].
  assert (Hlast : last (rev kept) = last messages).
  { destruct kept as [|k kept].
    - destruct messages as [|m ms]; [done|].
      destruct Hne; [|done]. intros H%(f_equal (@length turn)).
      by rewrite length_rev in H.
    - rewrite Hsplit. simpl rev. by rewrite app_assoc, !last_snoc. }
  split; [done|]. split.
  - destruct Hbudget as [Hle|Hone].
    + left. by rewrite total_words_reverse.
    + right. destruct kept as [|k [|]]; try done.
      exists k. split; [done|]. by rewrite <- Hlast.
  - intros d Hd. rewrite total_words_reverse.
    specialize (Hmax d). rewrite Nat.add_comm. apply Hmax.
    destruct rest as [|r rest]; [done|].
    simpl in Hd. by rewrite last_snoc in Hd.
Qed.

(** ** The remote dialogue client *)

Section GeminiFacts.

Variable py_str : pyval → str.
Variable network : nat → http_reply.

Lemma attempt_body_outcome w :
  attempt_body py_str network w
  = (outcome py_str (network (posts w)),
     {| posts := S (posts w); sleeps := sleeps w |}).
Proof.
  unfold attempt_body, outcome, mbind, M_bind, requests_post, lift, raise.
  destruct (network (posts w)) as [e|sc body]; [done|].
  destruct (raise_for_status sc); [|done].
  by destruct (response_json body).
Qed.

Lemma py_range_attempts retries :
  py_range 1 (retries + 1) = Z.of_nat <$> seq 1 (Z.to_nat retries).
Proof.
  unfold py_range. replace (retries + 1 - 1)%Z with retries by lia.
  rewrite <- (fmap_S_seq 0), <- list_fmap_compose.
  apply list_fmap_ext. intros _ i _. simpl. lia.
Qed.

(** After [k] attempts that fail retryably, none of them the last, the
    loop is at the next attempt, [k] requests and [k] naps later. *)
Lemma retry_loop_failures retries backoff k : ∀ a rest last w,
  (Z.of_nat (a + k) ≤ retries)%Z →
  (∀ i, i < k → fails_retryably py_str (network (posts w + i))) →
  ∃ last',
    retry_loop py_str network retries backoff
      ((Z.of_nat <$> seq a k) ++ rest) last w
    = retry_loop py_str network retries backoff rest last'
        {| posts := posts w + k;
           sleeps := sleeps w
                     ++ ((λ i, nap backoff (Z.of_nat i)) <$> seq a k) |}.
Proof.
  induction k as [|k IH]; intros a rest last w Hle Hfail.
  - exists last. simpl. rewrite Nat.add_0_r, app_nil_r. by destruct w.
  - destruct (Hfail 0) as (e & He & Hretry); [lia|].
    rewrite Nat.add_0_r in He.
    destruct (IH (S a) rest (Some e)
                {| posts := S (posts w);
                   sleeps := sleeps w ++ [nap backoff (Z.of_nat a)] |})
      as [last' Hrun].
    { lia. }
    { intros i Hi. simpl. replace (S (posts w + i)) with (posts w + S i) by lia.
      apply Hfail. lia. }
    exists last'. simpl in *.
    unfold try_except at 1. rewrite attempt_body_outcome, He.
    assert (Hlt : (Z.of_nat a <? retries)%Z = true) by (apply Z.ltb_lt; lia).
    rewrite Hlt.
    assert (Hgo : ∀ m : M pyval,
      (time_sleep (nap backoff (Z.of_nat a));; m)
        {| posts := S (posts w); sleeps := sleeps w |}
      = m {| posts := S (posts w);
             sleeps := sleeps w ++ [nap backoff (Z.of_nat a)] |}) by done.
    replace (S (posts w + k)) with (posts w + S k) in * by lia.
    rewrite <- app_assoc in Hrun. simpl in Hrun.
    destruct e as [status|msg|kind]; simpl in Hretry.
    + subst status. rewrite bool_decide_eq_true_2 by done. simpl.
      rewrite Hgo. exact Hrun.
    + rewrite Hgo. exact Hrun.
    + rewrite Hgo. exact Hrun.
Qed.

(** The state in which attempt [k + 1] ends, after [k] retryable
    failures. *)
Lemma call_gemini_api_after_failures retries backoff k :
  (Z.of_nat k < retries)%Z →
  (∀ i, i < k → fails_retryably py_str (network i)) →
  ∃ last rest,
    call_gemini_api py_str network retries backoff fresh
    = retry_loop py_str network retries backoff
        (Z.of_nat (S k) :: rest) last
        {| posts := k; sleeps := naps backoff k |}.
Proof.
  intros Hk Hfail. unfold call_gemini_api. rewrite py_range_attempts.
  replace (Z.to_nat retries) with (k + S (Z.to_nat retries - S k)) by lia.
  rewrite seq_app, fmap_app.
  destruct (retry_loop_failures retries backoff k 1
              (Z.of_nat <$> seq (1 + k) (S (Z.to_nat retries - S k)))
              None fresh) as [last Hrun].
  { lia. }
  { intros i Hi. by apply Hfail. }
  exists last, (Z.of_nat <$> seq (S (S k)) (Z.to_nat retries - S k)).
  rewrite Hrun. simpl. f_equal. f_equal. unfold naps.
  by rewrite <- (fmap_S_seq 0), <- list_fmap_compose.
Qed.

Lemma call_gemini_api_returns retries backoff k v :
  (Z.of_nat k < retries)%Z →
  (∀ i, i < k → fails_retryably py_str (network i)) →
  outcome py_str (network k) = Return v →
  call_gemini_api py_str network retries backoff fresh
  = (Return v, {| posts := S k; sleeps := naps backoff k |}).
Proof.
  intros Hk Hfail Hv.
  destruct (call_gemini_api_after_failures retries backoff k) as
    (last & rest & ->); [done..|].
  simpl. unfold try_except. rewrite attempt_body_outcome.
  cbn [posts sleeps]. by rewrite Hv.
Qed.

Lemma call_gemini_api_fatal retries backoff k status :
  (Z.of_nat k < retries)%Z →
  (∀ i, i < k → fails_retryably py_str (network i)) →
  outcome py_str (network k) = Raise (HTTPError status) →
  status ≠ Some 503%Z →
  call_gemini_api py_str network retries backoff fresh
  = (Raise (HTTPError status), {| posts := S k; sleeps := naps backoff k |}).
Proof.
  intros Hk Hfail Hv Hstatus.
  destruct (call_gemini_api_after_failures retries backoff k) as
    (last & rest & ->); [done..|].
  simpl. unfold try_except. rewrite attempt_body_outcome.
  cbn [posts sleeps]. rewrite Hv. by rewrite bool_decide_eq_false_2.
Qed.

Lemma call_gemini_api_exhausted retries backoff k e :
  Z.of_nat (S k) = retries →
  (∀ i, i < k → fails_retryably py_str (network i)) →
  outcome py_str (network k) = Raise e →
  call_gemini_api py_str network retries backoff fresh
  = (Raise e, {| posts := S k; sleeps := naps backoff k |}).
Proof.
  intros Hk Hfail Hv.
  destruct (call_gemini_api_after_failures retries backoff k) as
    (last & rest & ->); [lia|done|].
  simpl. unfold try_except. rewrite attempt_body_outcome.
  cbn [posts sleeps]. rewrite Hv.
  rewrite (proj2 (Z.ltb_ge (Z.of_nat (S k)) retries)) by lia.
  destruct e; by rewrite ?andb_false_r.
Qed.

End GeminiFacts.

Section GeminiClaims.

Variable py_str : pyval → str.
Variable network : nat → http_reply.

Lemma retry_loop_posts retries backoff attempts : ∀ last w,
  posts (retry_loop py_str network retries backoff attempts last w).2
  ≤ posts w + length attempts.
Proof.
  induction attempts as [|a attempts IH]; intros last w.
  - simpl. destruct last; simpl; lia.
  - simpl. unfold try_except. rewrite attempt_body_outcome.
    destruct (outcome py_str (network (posts w))) as [v|e]; [simpl; lia|].
    assert (Hgo : ∀ exc,
      posts ((time_sleep (nap backoff a);;
              retry_loop py_str network retries backoff attempts (Some exc))
               {| posts := S (posts w); sleeps := sleeps w |}).2
      ≤ posts w + S (length attempts)).
    { intros exc. etrans; [apply IH|]. simpl. lia. }
    destruct e as [status|msg|kind];
      repeat case_match; try apply Hgo; simpl; lia.
Qed.

Lemma join_parts_texts parts texts :
  Forall2 text_of_part parts texts → join_parts parts = Return (mjoin texts).
Proof.
  induction 1 as [|part s parts texts Hpart _ IH]; [done|].
  simpl. rewrite IH. unfold part_text.
  destruct part as [| | | | |?|items]; try done. simpl in Hpart.
  destruct (dict_get items (lit "text")) as [[]|]; try done; by subst.
Qed.

Lemma parse_reply_no_candidates items :
  no_candidates items → parse_reply py_str (PDict items) = Raise no_response.
Proof.
  unfold no_candidates, parse_reply. intros H.
  destruct (dict_get items (lit "candidates")) as [v|]; [|done].
  by rewrite H.
Qed.

Lemma outcome_response sc data :
  ¬ (400 ≤ sc < 600)%Z →
  outcome py_str (Response sc (Some data)) = parse_reply py_str data.
Proof.
  intros Hsc. unfold outcome, raise_for_status.
  destruct (400 <=? sc)%Z eqn:H1, (sc <? 600)%Z eqn:H2; try done. lia.
Qed.

End GeminiClaims.

(** C4.  [call_gemini_api] posts at most [retries] requests, 3 by default.
    While attempts fail with HTTP 503 or with an exception that is not an
    [HTTPError], and are not the last, attempt number [n] is followed by a
    nap of [backoff * 2^(n-1)] seconds and by the next attempt; the first
    attempt that succeeds gives the result; when the last attempt fails, its
    error is raised.  With the default 3 attempts, two HTTP 503 responses
    and then a success give the success after exactly the two naps
    [backoff * 1] and [backoff * 2]. *)
Theorem call_gemini_api_retry_policy
    (py_str : pyval → str) (network : nat → http_reply) (backoff : Q) :
  (∀ retries,
     posts (call_gemini_api py_str network retries backoff fresh).2
     ≤ Z.to_nat retries) ∧
  (∀ retries k,
     (Z.of_nat k < retries)%Z →
     (∀ i, i < k → fails_retryably py_str (network i)) →
     (∀ v, outcome py_str (network k) = Return v →
           call_gemini_api py_str network retries backoff fresh
           = (Return v, {| posts := S k; sleeps := naps backoff k |})) ∧
     (∀ e, Z.of_nat (S k) = retries →
           outcome py_str (network k) = Raise e →
           call_gemini_api py_str network retries backoff fresh
           = (Raise e, {| posts := S k; sleeps := naps backoff k |}))) ∧
  (∀ body0 body1 v,
     network 0 = Response 503 body0 →
     network 1 = Response 503 body1 →
     outcome py_str (network 2) = Return v →
     call_gemini_api py_str network 3 backoff fresh
     = (Return v, {| posts := 3; sleeps := [backoff * 1; backoff * 2]%Q |})).
Proof.
  split_and!.
  - intros retries. unfold call_gemini_api.
    etrans; [apply retry_loop_posts|].
    rewrite py_range_attempts, length_fmap, length_seq. simpl. lia.
  - intros retries k Hk Hfail. split.
    + intros v Hv. by apply call_gemini_api_returns.
    + intros e Hlast He. by apply call_gemini_api_exhausted.
  - intros body0 body1 v H0 H1 H2.
    apply (call_gemini_api_returns py_str network 3 backoff 2 v); [lia| |done].
    intros i Hi. exists (HTTPError (Some 503%Z)). split; [|done].
    destruct i as [|[|i]]; [by rewrite H0|by rewrite H1|lia].
Qed.

Lemma call_gemini_api_retry_policy_witness :
  call_gemini_api no_str network_503_503_ok 3 1 fresh
  = (Return (PStr (lit "hi")), {| posts := 3; sleeps := [1 * 1; 1 * 2]%Q |}).
Proof.
  destruct (call_gemini_api_retry_policy no_str network_503_503_ok 1)
    as (_ & _ & H).
  by apply (H None None).
Defined.

(** C10.  An [HTTPError] whose status is not 503 is raised from the attempt
    on which it occurs, whatever the number of attempts left: no request is
    posted after it, and no nap is taken beyond those that followed the
    earlier attempts. *)
Theorem call_gemini_api_reraises_http_error
    (py_str : pyval → str) (network : nat → http_reply)
    (retries : Z) (backoff : Q) (k : nat) (status : option Z) :
  (Z.of_nat k < retries)%Z →
  (∀ i, i < k → fails_retryably py_str (network i)) →
  outcome py_str (network k) = Raise (HTTPError status) →
  status ≠ Some 503%Z →
  call_gemini_api py_str network retries backoff fresh
  = (Raise (HTTPError status), {| posts := S k; sleeps := naps backoff k |}).
Proof. apply call_gemini_api_fatal. Qed.

Lemma call_gemini_api_reraises_http_error_witness :
  call_gemini_api no_str network_404 3 1 fresh
  = (Raise (HTTPError (Some 404%Z)), {| posts := 1; sleeps := [] |}).
Proof.
  apply (call_gemini_api_reraises_http_error no_str network_404 3 1 0).
  - lia.
  - intros i Hi. lia.
  - reflexivity.
  - discriminate.
Defined.

(** C8, as stated, fails: a response without candidates does not make
    [call_gemini_api] raise when attempts remain.  The [RuntimeError] is
    raised inside the [try] and caught by the generic handler; here the
    second attempt succeeds and its text is returned. *)
Lemma call_gemini_api_no_candidates_not_fatal :
  network_empty_then_ok 0 = Response 200 (Some (PDict [])) ∧
  no_candidates [] ∧
  call_gemini_api no_str network_empty_then_ok 3 1 fresh
  = (Return (PStr (lit "hi")), {| posts := 2; sleeps := [1 * 1]%Q |}).
Proof. by split_and!. Qed.

(** C8, amended.  Take the attempt that receives a response which is not an
    HTTP error and decodes to an object, the earlier attempts having failed
    retryably.  If the response has no candidates, the attempt raises
    [RuntimeError("No response from Gemini API")], which is handled like
    every exception that is not an [HTTPError]: raised to the caller from
    the last attempt, followed by a nap and the next attempt otherwise.  If
    the candidates are a list whose first element is an object, the call
    returns, from that object's content: its ["text"] when the content is an
    object that has one; else the concatenation of the texts of its parts
    (the empty string when it has no parts); else, the content not being an
    object, [str(content)]. *)
Theorem call_gemini_api_parses_reply
    (py_str : pyval → str) (network : nat → http_reply)
    (retries : Z) (backoff : Q) (k : nat)
    (sc : Z) (items : list (str * pyval)) :
  (Z.of_nat k < retries)%Z →
  (∀ i, i < k → fails_retryably py_str (network i)) →
  network k = Response sc (Some (PDict items)) →
  ¬ (400 ≤ sc < 600)%Z →
  let run := call_gemini_api py_str network retries backoff fresh in
  let here := {| posts := S k; sleeps := naps backoff k |} in
  (no_candidates items →
     outcome py_str (network k) = Raise no_response ∧
     (Z.of_nat (S k) = retries → run = (Raise no_response, here)) ∧
     (Z.of_nat (S k) < retries →
      ∀ v, outcome py_str (network (S k)) = Return v →
           run = (Return v, {| posts := S (S k);
                               sleeps := naps backoff (S k) |}))%Z) ∧
  (∀ cand more,
     dict_get items (lit "candidates") = Some (PList (PDict cand :: more)) →
     match default PNone (dict_get cand (lit "content")) with
     | PDict content =>
         match dict_get content (lit "text") with
         | Some text => run = (Return text, here)
         | None =>
             (dict_get content (lit "parts") = None →
              run = (Return (PStr []), here)) ∧
             (∀ parts texts,
                dict_get content (lit "parts") = Some (PList parts) →
                Forall2 text_of_part parts texts →
                run = (Return (PStr (mjoin texts)), here))
         end
     | content => run = (Return (PStr (py_str content)), here)
     end).
Proof.
  intros Hk Hfail Hreply Hsc run here.
  assert (Hout : outcome py_str (network k) = parse_reply py_str (PDict items)).
  { rewrite Hreply. by apply outcome_response. }
  split.
  - intros Hnone.
    assert (He : outcome py_str (network k) = Raise no_response).
    { rewrite Hout. by apply parse_reply_no_candidates. }
    split_and!; [done| |].
    + intros Hlast. by apply call_gemini_api_exhausted.
    + intros Hmore v Hv. apply call_gemini_api_returns; [lia| |done].
      intros i Hi. destruct (decide (i = k)) as [->|Hne].
      * by exists no_response.
      * apply Hfail. lia.
  - intros cand more Hcands.
    assert (Hret : ∀ v, parse_reply py_str (PDict items) = Return v →
                        run = (Return v, here)).
    { intros v Hv. apply call_gemini_api_returns; [done..|]. by rewrite Hout. }
    unfold parse_reply in Hret. rewrite Hcands in Hret. simpl in Hret.
    destruct (dict_get cand (lit "content")) as [content|]; simpl in *;
      [|by apply Hret].
    destruct content as [| | | | | |content]; try by apply Hret.
    destruct (dict_get content (lit "text")) as [text|]; [by apply Hret|].
    unfold join_content_parts in Hret. split.
    + intros Hparts. rewrite Hparts in Hret. by apply Hret.
    + intros parts texts Hparts Htexts. rewrite Hparts in Hret.
      rewrite (join_parts_texts _ _ Htexts) in Hret. by apply Hret.
Qed.

Lemma call_gemini_api_parses_reply_witness :
  call_gemini_api no_str network_empty_then_ok 3 1 fresh
  = (Return (PStr (lit "hi")), {| posts := 2; sleeps := naps 1 1 |}).
Proof.
  refine (proj2 (call_gemini_api_parses_reply no_str network_empty_then_ok
                   3 1 1 200 _ _ _ eq_refl _) _ _ eq_refl).
  - lia.
  - intros i Hi. exists no_response. split; [|done].
    destruct i; [reflexivity|lia].
  - lia.
Defined.

(** ** Removing a played reply *)

(** C7, as stated, fails: the name is stripped of surrounding whitespace
    before it is checked, so the name ["a.mp3 "], which does not end in
    [".mp3"], is accepted and the file [a.mp3] is deleted. *)
Lemma cleanup_audio_accepts_padded_name :
  let name := lit "a.mp3 " in
  (basename name ≠ name ∨ endswith name (lit ".mp3") = false) ∧
  cleanup_audio (filename_request name) {[lit "a.mp3"]} = (JsonOk, ∅).
Proof. split; [by right|by vm_compute]. Qed.

(** C7, amended.  A request whose filename is a string that, once stripped
    of leading and trailing whitespace, has a path component (its basename
    differs from it) or does not end in [".mp3"] is rejected with HTTP 400,
    and the files are left as they are. *)
Theorem cleanup_audio_rejects
    (payload : list (str * pyval)) (raw : str) (files : gset str) :
  dict_get payload (lit "filename") = Some (PStr raw) →
  basename (strip raw) ≠ strip raw ∨ endswith (strip raw) (lit ".mp3") = false →
  ∃ message,
    cleanup_audio (Some (PDict payload)) files = (JsonError 400 message, files).
Proof.
  intros Hget Hbad. unfold cleanup_audio.
  assert (Hpayload : or_else (Some (PDict payload)) (PDict []) = PDict payload).
  { destruct payload; [done|]. reflexivity. }
  rewrite Hpayload, Hget.
  assert (Hraw : ∃ raw', or_else (Some (PStr raw)) (PStr []) = PStr raw'
                         ∧ strip raw' = strip raw) by (destruct raw; by eexists).
  destruct Hraw as (raw' & -> & ->).
  destruct (truthy (strip raw)); simpl; [|by eexists].
  destruct Hbad as [Hbase|Hext].
  - rewrite bool_decide_eq_false_2 by done. by eexists.
  - destruct (bool_decide (basename (strip raw) = strip raw)) eqn:Heq;
      simpl; [|by eexists].
    apply bool_decide_eq_true in Heq. rewrite Heq, Hext. by eexists.
Qed.

Lemma cleanup_audio_rejects_witness :
  ∃ message,
    cleanup_audio (filename_request (lit "../../etc/passwd.mp3"))
      {[lit "passwd.mp3"]}
    = (JsonError 400 message, {[lit "passwd.mp3"]}).
Proof.
  apply (cleanup_audio_rejects _ (lit "../../etc/passwd.mp3")).
  - reflexivity.
  - left. by vm_compute.
Defined.

(** ** The progress cache *)

Section ProgressCache.

Lemma keep_last_100 (history : list progress_entry) (entry : progress_entry) :
  let full := history ++ [entry] in
  let kept := if 100 <? length full
              then drop (length full - 100) full else full in
  ∃ dropped,
    full = dropped ++ kept ∧
    length kept ≤ 100 ∧
    (dropped ≠ [] → length kept = 100) ∧
    last kept = Some entry.
Proof.
  intros full kept. subst kept.
  destruct (100 <? length full) eqn:Hlen.
  - apply Nat.ltb_lt in Hlen.
    exists (take (length full - 100) full). split_and!.
    + by rewrite take_drop.
    + rewrite length_drop. lia.
    + intros _. rewrite length_drop. lia.
    + subst full. rewrite length_app in *. simpl in *.
      rewrite drop_app_le by lia. apply last_snoc.
  - apply Nat.ltb_ge in Hlen. exists []. split_and!; try done.
    apply last_snoc.
Qed.

(** No user ever has more than 100 cached entries. *)
Lemma reachable_cache_bounded st :
  reachable st →
  ∀ user_id history,
    PROGRESS_CACHE st !! user_id = Some history → length history ≤ 100.
Proof.
  induction 1 as [remote|st user_id content transcript score ct env _ IH];
    intros u h.
  - simpl. by rewrite lookup_empty.
  - unfold save_progress_entry.
    destruct (truthy user_id); simpl; [|apply IH].
    destruct (decide (u = user_id)) as [->|Hne].
    + rewrite lookup_insert_eq. intros [= <-].
      destruct (keep_last_100 (default [] (PROGRESS_CACHE st !! user_id))
                  (new_entry content transcript score ct env))
        as (_ & _ & Hle & _).
      exact Hle.
    + rewrite lookup_insert_ne by done. apply IH.
Qed.

End ProgressCache.

(** C9.  After [save_progress_entry] with a non-empty user id, the cache of
    that user is the longest suffix of at most 100 entries of what it held
    before followed by the new entry: at most 100 entries, the most
    recently appended ones in the order they were appended, the new entry
    last.  The caches of the other users are untouched. *)
Theorem save_progress_entry_caps_cache
    (user_id : str) (content : list (str * pyval)) (transcript : str)
    (score : Q) (content_type : str) (env : environment) (st : store) :
  user_id ≠ [] →
  let entry := new_entry content transcript score content_type env in
  let st' := save_progress_entry user_id content transcript score
               content_type env st in
  (∃ dropped kept,
     PROGRESS_CACHE st' !! user_id = Some kept ∧
     default [] (PROGRESS_CACHE st !! user_id) ++ [entry] = dropped ++ kept ∧
     length kept ≤ 100 ∧
     (dropped ≠ [] → length kept = 100) ∧
     last kept = Some entry) ∧
  (∀ other, other ≠ user_id →
            PROGRESS_CACHE st' !! other = PROGRESS_CACHE st !! other).
Proof.
  intros Hid entry st'. subst st'. unfold save_progress_entry.
  destruct user_id as [|c user_id]; [done|]. simpl negb. cbv iota.
  fold entry. split.
  - destruct (keep_last_100 (default [] (PROGRESS_CACHE st !! (c :: user_id)))
                entry) as (dropped & Hsplit & Hle & Hfull & Hlast).
    eexists dropped, _. simpl. rewrite lookup_insert_eq. by split_and!.
  - intros other Hne. simpl. by rewrite lookup_insert_ne.
Qed.

Lemma save_progress_entry_caps_cache_witness :
  let entry := new_entry [] (lit "hello") 50 (lit "sentence") environment0 in
  let st' := save_progress_entry (lit "coach") [] (lit "hello") 50
               (lit "sentence") environment0 store0 in
  (∃ dropped kept,
     PROGRESS_CACHE st' !! lit "coach" = Some kept ∧
     default [] (PROGRESS_CACHE store0 !! lit "coach") ++ [entry]
       = dropped ++ kept ∧
     length kept ≤ 100 ∧
     (dropped ≠ [] → length kept = 100) ∧
     last kept = Some entry) ∧
  (∀ other, other ≠ lit "coach" →
            PROGRESS_CACHE st' !! other = PROGRESS_CACHE store0 !! other).
Proof.
  apply (save_progress_entry_caps_cache (lit "coach") [] (lit "hello") 50
           (lit "sentence") environment0 store0).
  discriminate.
Defined.

(** ** Normalisation *)

Section Normalize.

Lemma alnum_not_space c : alnum c = true → is_space c = false.
Proof. destruct c as [[] [] [] [] [] [] [] []]; by vm_compute. Qed.

Lemma split_scan_blank tok s :
  split_scan tok (blank_outside_class s) = runs_scan alnum tok s.
Proof.
  revert tok. induction s as [|c s IH]; intros tok; [done|].
  unfold blank_outside_class in *. rewrite fmap_cons. simpl.
  destruct (alnum c) eqn:Hc.
  - assert (Hin : in_class c = true).
    { unfold in_class. fold (alnum c). by rewrite Hc. }
    by rewrite Hin, (alnum_not_space c Hc), IH.
  - assert (Hsep : is_space (if in_class c then c else space) = true).
    { unfold in_class. fold (alnum c). rewrite Hc. simpl.
      by destruct (is_space c) eqn:Hs. }
    by rewrite Hsep, !IH.
Qed.

Lemma runs_scan_alnum tok s :
  Forall (λ c, alnum c = true) tok →
  Forall (Forall (λ c, alnum c = true)) (runs_scan alnum tok s).
Proof.
  revert tok. induction s as [|c s IH]; intros tok Htok; simpl.
  - destruct tok; [constructor|]. constructor; [done|constructor].
  - destruct (alnum c) eqn:Hc.
    + apply IH. apply Forall_app. by repeat constructor.
    + destruct tok; [by apply IH|]. constructor; [done|by apply IH].
Qed.

End Normalize.

(** C2, as stated, fails: a character outside the class is not deleted but
    replaced by a space, so it separates words. *)
Lemma normalize_text_blanks_not_deletes :
  normalize_text (lit "a-b") = lit "a b" ∧
  normalize_text_claimed (lit "a-b") = lit "ab" ∧
  normalize_text (lit "a-b") ≠ normalize_text_claimed (lit "a-b").
Proof. by split_and!. Qed.

(** C2, amended.  [normalize_text] lowercases, replaces every character
    outside [[a-z0-9\s]] by a space, and collapses whitespace: the result is
    the maximal runs of letters [a]-[z] and digits of the lowercased string,
    joined by single spaces.  Its words, split again, are those runs, so it
    has no leading, trailing or doubled whitespace. *)
Theorem normalize_text_joins_alnum_runs (value : str) :
  let tokens := runs alnum (lower value) in
  normalize_text value = join (lit " ") tokens ∧
  Forall word tokens ∧
  Forall (Forall (λ c, alnum c = true)) tokens ∧
  split (normalize_text value) = tokens.
Proof.
  intros tokens.
  assert (Htok : split (blank_outside_class (lower value)) = tokens)
    by apply split_scan_blank.
  unfold normalize_text. rewrite Htok.
  assert (Hwords : Forall word tokens) by (rewrite <- Htok; apply split_words).
  split_and!; [done|done| |by apply split_join].
  by apply runs_scan_alnum.
Qed.

(** ** The sequence matcher *)

Import SequenceMatcher.

Section LongestMatchBounds.

Variables a b : str.
Variable b2j : gmap ascii (list nat).
Variables alo ahi blo bhi : nat.

#[local] Abbreviation row_ok := (row_within alo blo bhi).
#[local] Abbreviation best_ok := (block_within alo blo bhi).

Lemma j2len_get_pred_ok n j2len j :
  row_ok n j2len → blo ≤ j →
  alo + j2len_get_pred j2len j ≤ n ∨ j2len_get_pred j2len j = 0.
Proof.
  intros Hrow Hj. destruct j as [|j]; [by right|]. simpl.
  destruct (j2len !! j) as [k|] eqn:Hk; [|by right].
  left. simpl. destruct (Hrow j k Hk). lia.
Qed.

Lemma scan_row_ok js i j2len : ∀ newj2len best,
  alo ≤ i → row_ok i j2len → row_ok (S i) newj2len → best_ok (S i) best →
  row_ok (S i) (scan_row blo bhi js i j2len newj2len best).1 ∧
  best_ok (S i) (scan_row blo bhi js i j2len newj2len best).2.
Proof.
  induction js as [|j js IH]; intros newj2len best Hi Hrow Hnew Hbest; [done|].
  simpl. destruct (j <? blo) eqn:Hlo; [by apply IH|].
  destruct (bhi <=? j) eqn:Hhi; [done|].
  apply Nat.ltb_ge in Hlo. apply Nat.leb_gt in Hhi.
  destruct best as [[besti bestj] bestsize].
  assert (Hk : 1 ≤ j2len_get_pred j2len j + 1
               ∧ alo + (j2len_get_pred j2len j + 1) ≤ S i
               ∧ blo + (j2len_get_pred j2len j + 1) ≤ j + 1).
  { destruct j as [|j]; simpl; [lia|].
    destruct (j2len !! j) as [k|] eqn:Hk; simpl; [|lia].
    destruct (Hrow j k Hk). lia. }
  apply IH; [done|done| |].
  - intros j' k'. destruct (decide (j' = j)) as [->|Hne].
    + rewrite lookup_insert_eq. intros [= <-]. lia.
    + rewrite lookup_insert_ne by done. apply Hnew.
  - destruct (bestsize <? j2len_get_pred j2len j + 1); [|done].
    simpl. lia.
Qed.

Lemma row_ok_empty n : row_ok n ∅.
Proof. intros j k. by rewrite lookup_empty. Qed.

Lemma best_ok_mono n m best : n ≤ m → best_ok n best → best_ok m best.
Proof. destruct best as [[??]?]. simpl. lia. Qed.

Lemma scan_rows_ok n : ∀ i j2len best,
  alo ≤ i → row_ok i j2len → best_ok i best →
  best_ok (i + n) (scan_rows a b2j blo bhi (seq i n) j2len best).
Proof.
  induction n as [|n IH]; intros i j2len best Hi Hrow Hbest.
  - by rewrite Nat.add_0_r.
  - simpl.
    set (js := match a !! i with Some elt => default [] (b2j !! elt) | None => [] end).
    destruct (scan_row_ok js i j2len ∅ best) as [Hrow' Hbest'];
      [done|done|apply row_ok_empty|by apply (best_ok_mono i); [lia|]|].
    destruct (scan_row blo bhi js i j2len ∅ best) as [newj2len best'].
    replace (i + S n) with (S i + n) by lia. apply IH; [lia|done..].
Qed.

Lemma extend_back_ok besti : ∀ bestj bestsize,
  best_ok ahi (besti, bestj, bestsize) →
  best_ok ahi (extend_back a b alo blo besti bestj bestsize).
Proof.
  induction besti as [|i IH]; intros bestj bestsize Hbest; [done|].
  simpl.
  destruct ((alo <? S i) && (blo <? bestj) && same_at a b i (bestj - 1))
    eqn:Hgo; [|done].
  apply andb_true_iff in Hgo as [[Ha%Nat.ltb_lt Hb%Nat.ltb_lt]%andb_true_iff _].
  apply IH. simpl in *. lia.
Qed.

Lemma extend_forward_ok todo besti bestj : ∀ bestsize,
  best_ok ahi (besti, bestj, bestsize) →
  best_ok ahi (besti, bestj,
               extend_forward a b ahi bhi todo besti bestj bestsize).
Proof.
  induction todo as [|todo IH]; intros bestsize Hbest; [done|].
  simpl.
  destruct ((besti + bestsize <? ahi) && (bestj + bestsize <? bhi)
            && same_at a b (besti + bestsize) (bestj + bestsize))
    eqn:Hgo; [|done].
  apply andb_true_iff in Hgo as [[Ha%Nat.ltb_lt Hb%Nat.ltb_lt]%andb_true_iff _].
  apply IH. simpl in *. lia.
Qed.

(** The block found lies within the region. *)
Lemma find_longest_match_bounds i j k :
  alo ≤ ahi → blo ≤ bhi →
  find_longest_match a b b2j alo ahi blo bhi = (i, j, k) →
  alo ≤ i ∧ i + k ≤ ahi ∧ blo ≤ j ∧ j + k ≤ bhi.
Proof.
  intros Ha Hb. unfold find_longest_match.
  pose proof (scan_rows_ok (ahi - alo) alo ∅ (alo, blo, 0)) as Hscan.
  replace (alo + (ahi - alo)) with ahi in Hscan by lia.
  destruct (scan_rows a b2j blo bhi (seq alo (ahi - alo)) ∅ (alo, blo, 0))
    as [[i1 j1] k1].
  pose proof (extend_back_ok i1 j1 k1) as Hback.
  destruct (extend_back a b alo blo i1 j1 k1) as [[i2 j2] k2].
  pose proof (extend_forward_ok (ahi - (i2 + k2)) i2 j2 k2) as Hfwd.
  intros [= <- <- <-]. apply Hfwd, Hback, Hscan; [done|apply row_ok_empty|].
  simpl. lia.
Qed.

End LongestMatchBounds.

Section MatchingBlocks.

Variables a b : str.
Variable b2j : gmap ascii (list nat).

Lemma matches_app xs ys : matches (xs ++ ys) = matches xs + matches ys.
Proof. apply sum_list_with_app. Qed.

Lemma weight_cons alo ahi blo bhi queue :
  weight ((alo, ahi, blo, bhi) :: queue) = 2 * (ahi - alo) + 1 + weight queue.
Proof. reflexivity. Qed.

Lemma room_a_cons alo ahi blo bhi queue :
  room_a ((alo, ahi, blo, bhi) :: queue) = ahi - alo + room_a queue.
Proof. reflexivity. Qed.

Lemma room_b_cons alo ahi blo bhi queue :
  room_b ((alo, ahi, blo, bhi) :: queue) = bhi - blo + room_b queue.
Proof. reflexivity. Qed.

Lemma matches_snoc blocks i j k : matches (blocks ++ [(i, j, k)]) = matches blocks + k.
Proof. rewrite matches_app. unfold matches. simpl. lia. Qed.

(** The queue loop ends within the fuel that the weight of the queue asks
    for, and the blocks it adds fit in the room of the queue. *)
Lemma match_loop_terminates fuel : ∀ queue matching_blocks,
  Forall region_ok queue → weight queue ≤ fuel →
  ∃ blocks,
    match_loop a b b2j fuel queue matching_blocks = Some blocks ∧
    matches blocks ≤ matches matching_blocks + room_a queue ∧
    matches blocks ≤ matches matching_blocks + room_b queue.
Proof.
  induction fuel as [|fuel IH]; intros queue mb Hok Hfuel.
  - destruct queue as [|[[[alo ahi] blo] bhi] queue].
    + exists mb. simpl. split_and!; [done|lia..].
    + rewrite weight_cons in Hfuel. lia.
  - destruct queue as [|[[[alo ahi] blo] bhi] queue].
    + exists mb. simpl. split_and!; [done|lia..].
    + apply Forall_cons in Hok as [[Ha Hb] Hok].
      rewrite weight_cons in Hfuel. rewrite room_a_cons, room_b_cons.
      cbn [match_loop].
      destruct (find_longest_match a b b2j alo ahi blo bhi) as [[i j] k] eqn:Hflm.
      destruct (find_longest_match_bounds a b b2j alo ahi blo bhi i j k Ha Hb Hflm)
        as (Hi & Hik & Hj & Hjk).
      destruct (k =? 0) eqn:Hk.
      { destruct (IH queue mb Hok) as (blocks & -> & Hma & Hmb); [lia|].
        exists blocks. split_and!; [done|lia..]. }
      apply Nat.eqb_neq in Hk.
      set (q1 := if (alo <? i) && (blo <? j)
                 then (alo, i, blo, j) :: queue else queue).
      set (q2 := if (i + k <? ahi) && (j + k <? bhi)
                 then (i + k, ahi, j + k, bhi) :: q1 else q1).
      assert (H1 : Forall region_ok q1 ∧ weight q1 ≤ weight queue + 2 * (i - alo) + 1
                   ∧ room_a q1 ≤ room_a queue + (i - alo)
                   ∧ room_b q1 ≤ room_b queue + (j - blo)).
      { subst q1. destruct ((alo <? i) && (blo <? j)).
        - rewrite weight_cons, room_a_cons, room_b_cons.
          split_and!; [by constructor|lia..].
        - split_and!; [done|lia..]. }
      destruct H1 as (Hok1 & Hw1 & Hra1 & Hrb1).
      assert (H2 : Forall region_ok q2 ∧ weight q2 ≤ weight queue + 2 * (ahi - alo)
                   ∧ room_a q2 + k ≤ room_a queue + (ahi - alo)
                   ∧ room_b q2 + k ≤ room_b queue + (bhi - blo)).
      { subst q2. destruct ((i + k <? ahi) && (j + k <? bhi)).
        - rewrite weight_cons, room_a_cons, room_b_cons.
          split_and!; [constructor; [simpl; lia|done]|lia..].
        - split_and!; [done|lia..]. }
      destruct H2 as (Hok2 & Hw2 & Hra2 & Hrb2).
      destruct (IH q2 (mb ++ [(i, j, k)]) Hok2) as (blocks & -> & Hma & Hmb);
        [lia|].
      exists blocks. rewrite matches_snoc in Hma, Hmb.
      split_and!; [done|lia..].
Qed.

Lemma collapse_matches blocks : ∀ i1 j1 k1 non_adjacent,
  matches (collapse blocks i1 j1 k1 non_adjacent)
  = matches non_adjacent + k1 + matches blocks.
Proof.
  induction blocks as [|[[i2 j2] k2] blocks IH]; intros i1 j1 k1 na; simpl.
  - destruct (k1 =? 0) eqn:Hk.
    + apply Nat.eqb_eq in Hk. unfold matches. simpl. lia.
    + rewrite matches_app. unfold matches. simpl. lia.
  - destruct ((i1 + k1 =? i2) && (j1 + k1 =? j2)); rewrite IH.
    + unfold matches. simpl. lia.
    + destruct (k1 =? 0) eqn:Hk.
      * apply Nat.eqb_eq in Hk. unfold matches. simpl. lia.
      * rewrite matches_app. unfold matches. simpl. lia.
Qed.

Lemma matches_sorted blocks :
  matches (merge_sort block_le blocks) = matches blocks.
Proof.
  unfold matches. apply sum_list_with_Permutation_proper, merge_sort_Permutation.
Qed.

End MatchingBlocks.

(** [get_matching_blocks] returns, and the sizes of its blocks add up to no
    more than the length of either string. *)
Lemma get_matching_blocks_total (a b : str) :
  ∃ blocks,
    get_matching_blocks a b = Some blocks ∧
    matches blocks ≤ length a ∧ matches blocks ≤ length b.
Proof.
  unfold get_matching_blocks.
  destruct (match_loop_terminates a b (chain_b b) (2 * length a + 1)
              [(0, length a, 0, length b)] []) as (mb & -> & Hma & Hmb).
  { constructor; [simpl; lia|done]. }
  { unfold weight. simpl. lia. }
  eexists. split; [done|].
  rewrite matches_app, collapse_matches, matches_sorted.
  unfold room_a, room_b, matches in *. simpl in *. lia.
Qed.

(** *** The index of [b] *)

Section ChainB.

Lemma chain_b_loop_lookup c bs : ∀ i b2j,
  default [] (chain_b_loop bs i b2j !! c)
  = default [] (b2j !! c) ++ positions c bs i.
Proof.
  induction bs as [|elt bs IH]; intros i b2j; simpl.
  - by rewrite app_nil_r.
  - rewrite IH. case_bool_decide as Heq.
    + subst elt. rewrite lookup_insert_eq. simpl. by rewrite <- app_assoc.
    + by rewrite lookup_insert_ne.
Qed.

Lemma chain_b_lookup b c js :
  chain_b b !! c = Some js → js = positions c b 0.
Proof.
  intros Hjs.
  assert (Hfull : chain_b_loop b 0 ∅ !! c = Some js).
  { unfold chain_b in Hjs. destruct (200 <=? length b); [|done].
    by apply map_lookup_filter_Some in Hjs as [? _]. }
  pose proof (chain_b_loop_lookup c b 0 ∅) as Hall.
  rewrite Hfull, lookup_empty in Hall. done.
Qed.

Lemma positions_elem c s : ∀ i j,
  j ∈ positions c s i ↔ i ≤ j ∧ s !! (j - i) = Some c.
Proof.
  induction s as [|x s IH]; intros i j; simpl.
  - rewrite elem_of_nil. split; [done|]. intros [_ Hj]. by rewrite lookup_nil in Hj.
  - assert (Hnext : j ∈ positions c s (S i) ↔ S i ≤ j ∧ (x :: s) !! (j - i) = Some c).
    { rewrite IH. split; intros [Hle Hj]; (split; [done|]).
      - by replace (j - i) with (S (j - S i)) by lia.
      - by replace (j - i) with (S (j - S i)) in Hj by lia. }
    case_bool_decide as Heq.
    + rewrite elem_of_cons, Hnext. split.
      * intros [->|[Hle Hj]]; [|split; [lia|done]].
        split; [done|]. rewrite Nat.sub_diag. by subst.
      * intros [Hle Hj]. destruct (decide (j = i)) as [->|Hne]; [by left|].
        right. split; [lia|done].
    + rewrite Hnext. split; [intros [? ?]; split; [lia|done]|].
      intros [Hle Hj]. split; [|done].
      destruct (decide (j = i)) as [->|Hne]; [|lia].
      rewrite Nat.sub_diag in Hj. simpl in Hj. congruence.
Qed.

Lemma positions_sorted c s : ∀ i, StronglySorted lt (positions c s i).
Proof.
  induction s as [|x s IH]; intros i; simpl; [constructor|].
  case_bool_decide; [|apply IH].
  constructor; [apply IH|].
  apply Forall_forall. intros j [Hj _]%positions_elem. lia.
Qed.

End ChainB.

(** *** A string against itself *)

Section SameString.

Variable s : str.
Variable b2j : gmap ascii (list nat).

Hypothesis b2j_positions : ∀ c js, b2j !! c = Some js → js = positions c s 0.

#[local] Abbreviation run := (indexed_run b2j s).
#[local] Abbreviation n := (length s).

Lemma run_indexed i c :
  s !! i = Some c → is_Some (b2j !! c) → run (S i) = S (run i).
Proof. intros Hi Hc. simpl. rewrite Hi. by rewrite bool_decide_eq_true_2. Qed.

Lemma run_not_indexed i c :
  s !! i = Some c → b2j !! c = None → run (S i) = 0.
Proof.
  intros Hi Hc. simpl. rewrite Hi, Hc.
  rewrite bool_decide_eq_false_2; [done|]. by intros [? ?].
Qed.

#[local] Arguments indexed_run : simpl never.

(** One row of the table, for a string against itself: the lengths stay
    below the runs, the cell on the diagonal holds the run, and the best
    block stays on the diagonal. *)
Lemma scan_row_same i c j2len js : ∀ newj2len best,
  s !! i = Some c → is_Some (b2j !! c) →
  (∀ j, j ∈ js → s !! j = Some c) → StronglySorted lt js →
  (∀ j k, j2len !! j = Some k → k ≤ run i ∧ k ≤ run (S j)) →
  j2len_get_pred j2len i = run i →
  (∀ j k, newj2len !! j = Some k → k ≤ run (S i) ∧ k ≤ run (S j)) →
  best.1.1 = best.1.2 →
  (∀ i', i' ≤ i → run i' ≤ best.2) →
  (i ∈ js ∨ (newj2len !! i = Some (run (S i)) ∧ run (S i) ≤ best.2)) →
  let r := scan_row 0 n js i j2len newj2len best in
  (∀ j k, r.1 !! j = Some k → k ≤ run (S i) ∧ k ≤ run (S j)) ∧
  r.1 !! i = Some (run (S i)) ∧
  r.2.1.1 = r.2.1.2 ∧
  (∀ i', i' ≤ S i → run i' ≤ r.2.2).
Proof.
  intros newj2len best Hi Hc. revert newj2len best.
  induction js as [|j js IH];
    intros newj2len best Hjs Hsorted Hrow Hdiag Hnew Hbest Hruns Hseen.
  - simpl. destruct Hseen as [Hin|[Hcell Hrun]]; [by apply elem_of_nil in Hin|].
    split_and!; [done..|].
    intros i' Hi'. destruct (decide (i' = S i)) as [->|]; [done|].
    apply Hruns. lia.
  - assert (Hj : s !! j = Some c) by (apply Hjs; left).
    assert (Hjn : j < n) by (by apply lookup_lt_Some in Hj).
    apply StronglySorted_inv in Hsorted as [Hsorted Hlt].
    rewrite Forall_forall in Hlt.
    cbn [scan_row]. change (j <? 0) with false. cbv iota.
    rewrite (proj2 (Nat.leb_gt _ _) Hjn).
    destruct best as [[besti bestj] bestsize]. simpl in Hbest, Hruns, Hseen.
    subst bestj.
    set (k := j2len_get_pred j2len j + 1).
    assert (Hki : k ≤ run (S i)).
    { rewrite (run_indexed i c) by done. subst k.
      destruct j as [|j']; simpl; [lia|].
      destruct (j2len !! j') as [k'|] eqn:Hk'; simpl; [|lia].
      destruct (Hrow j' k' Hk'). lia. }
    assert (Hkj : k ≤ run (S j)).
    { rewrite (run_indexed j c) by done. subst k.
      destruct j as [|j']; simpl; [lia|].
      destruct (j2len !! j') as [k'|] eqn:Hk'; [|simpl; lia].
      destruct (Hrow j' k' Hk') as [_ Hle]. simpl in *. lia. }
    assert (Hii : j = i → k = run (S i)).
    { intros ->. subst k. rewrite Hdiag, (run_indexed i c) by done. lia. }
    assert (Hoff : j ≠ i → k ≤ bestsize).
    { intros Hne. destruct (decide (j < i)) as [Hlow|Hhigh].
      - etrans; [apply Hkj|]. apply Hruns. lia.
      - destruct Hseen as [Hin|[_ Hrun]]; [|lia].
        apply elem_of_cons in Hin as [->|Hin]; [done|].
        apply Hlt in Hin. lia. }
    apply IH; clear IH.
    + intros j' Hj'. apply Hjs. by right.
    + done.
    + done.
    + done.
    + intros j' k'. destruct (decide (j' = j)) as [->|Hne].
      * rewrite lookup_insert_eq. by intros [= <-].
      * rewrite lookup_insert_ne by done. apply Hnew.
    + destruct (bestsize <? k) eqn:Hup; [|done].
      apply Nat.ltb_lt in Hup. simpl.
      destruct (decide (j = i)) as [->|Hne]; [done|].
      specialize (Hoff Hne). lia.
    + intros i' Hi'. specialize (Hruns i' Hi').
      destruct (bestsize <? k) eqn:Hup; [|done].
      apply Nat.ltb_lt in Hup. simpl. lia.
    + destruct (decide (j = i)) as [->|Hne].
      * right. rewrite lookup_insert_eq, (Hii eq_refl). split; [done|].
        destruct (bestsize <? run (S i)) eqn:Hup; simpl; [done|].
        by apply Nat.ltb_ge in Hup.
      * rewrite lookup_insert_ne by done.
        destruct Hseen as [Hin|[Hcell Hrun]].
        -- left. apply elem_of_cons in Hin as [->|Hin]; done.
        -- right. split; [done|].
           destruct (bestsize <? k) eqn:Hup; [|done].
           apply Nat.ltb_lt in Hup. simpl. lia.
Qed.

(** The rows from [i] on leave the best block on the diagonal. *)
Lemma scan_rows_same m : ∀ i j2len best,
  i + m ≤ n →
  (∀ j k, j2len !! j = Some k → k ≤ run i ∧ k ≤ run (S j)) →
  j2len_get_pred j2len i = run i →
  best.1.1 = best.1.2 →
  (∀ i', i' ≤ i → run i' ≤ best.2) →
  (scan_rows s b2j 0 n (seq i m) j2len best).1.1
  = (scan_rows s b2j 0 n (seq i m) j2len best).1.2.
Proof.
  induction m as [|m IH]; intros i j2len best Him Hrow Hdiag Hbest Hruns;
    [done|].
  cbn [seq scan_rows].
  destruct (lookup_lt_is_Some_2 s i) as [c Hi]; [lia|]. rewrite Hi.
  destruct (b2j !! c) as [js|] eqn:Hc; cbn [default from_option id].
  - pose proof (b2j_positions c js Hc) as ->.
    destruct (scan_row_same i c j2len (positions c s 0) ∅ best)
      as (Hrow' & Hcell & Hbest' & Hruns');
      [done|by eexists| | |done|done| |done|done| |].
    + intros j [_ Hj]%positions_elem. by rewrite Nat.sub_0_r in Hj.
    + apply positions_sorted.
    + intros j k. by rewrite lookup_empty.
    + left. apply positions_elem. split; [lia|]. by rewrite Nat.sub_0_r.
    + destruct (scan_row 0 n (positions c s 0) i j2len ∅ best)
        as [newj2len best'].
      apply IH; [lia|done| |done..]. simpl in *. by rewrite Hcell.
  - simpl. apply IH; [lia| | |done|].
    + intros j k. by rewrite lookup_empty.
    + simpl. rewrite lookup_empty. simpl.
      by rewrite (run_not_indexed i c).
    + intros i' Hi'. destruct (decide (i' = S i)) as [->|].
      * rewrite (run_not_indexed i c) by done. lia.
      * apply Hruns. lia.
Qed.

Lemma same_at_diag i : i < n → same_at s s i i = true.
Proof.
  intros Hi. unfold same_at.
  destruct (lookup_lt_is_Some_2 s i Hi) as [c ->]. by apply bool_decide_eq_true.
Qed.

Lemma extend_back_same d : ∀ bestsize,
  d ≤ n → extend_back s s 0 0 d d bestsize = (0, 0, bestsize + d).
Proof.
  induction d as [|d IH]; intros bestsize Hd.
  - simpl. by rewrite Nat.add_0_r.
  - cbn [extend_back]. replace (S d - 1) with d by lia.
    rewrite same_at_diag by lia. simpl. rewrite IH by lia.
    f_equal. lia.
Qed.

Lemma extend_forward_same todo : ∀ bestsize,
  bestsize + todo = n → extend_forward s s n n todo 0 0 bestsize = n.
Proof.
  induction todo as [|todo IH]; intros bestsize Hn.
  - simpl. lia.
  - cbn [extend_forward]. simpl plus.
    rewrite (proj2 (Nat.ltb_lt bestsize n)) by lia.
    rewrite same_at_diag by lia. simpl. apply IH. lia.
Qed.

(** The longest match of a string with itself is the whole string. *)
Lemma find_longest_match_same :
  find_longest_match s s b2j 0 n 0 n = (0, 0, n).
Proof.
  unfold find_longest_match. rewrite Nat.sub_0_r.
  assert (Hdiag : (scan_rows s b2j 0 n (seq 0 n) ∅ (0, 0, 0)).1.1
                  = (scan_rows s b2j 0 n (seq 0 n) ∅ (0, 0, 0)).1.2).
  { apply scan_rows_same; [done| |done|done|].
    - intros j' k'. by rewrite lookup_empty.
    - intros i' Hi'. by replace i' with 0 by lia. }
  assert (Hok : block_within 0 0 n n
                  (scan_rows s b2j 0 n (seq 0 n) ∅ (0, 0, 0))).
  { apply (scan_rows_ok s b2j 0 0 n n 0 ∅ (0, 0, 0)); [done| |simpl; lia].
    intros j' k'. by rewrite lookup_empty. }
  destruct (scan_rows s b2j 0 n (seq 0 n) ∅ (0, 0, 0)) as [[i j] k].
  simpl in Hdiag. subst j. destruct Hok as (_ & Hik & _).
  rewrite extend_back_same by lia.
  rewrite extend_forward_same; [done|]. simpl. lia.
Qed.

End SameString.

(** *** The blocks are matches *)

Section BlocksMatch.

Variables a b : str.
Variable b2j : gmap ascii (list nat).

Hypothesis b2j_sound : ∀ c js j, b2j !! c = Some js → j ∈ js → b !! j = Some c.

Lemma block_matches_snoc i j k c :
  block_matches a b (i, j, k) →
  a !! (i + k) = Some c → b !! (j + k) = Some c →
  block_matches a b (i, j, k + 1).
Proof.
  intros Hblock Ha Hb t Ht. destruct (decide (t = k)) as [->|Hne].
  - by exists c.
  - apply Hblock. lia.
Qed.

Lemma block_matches_cons i j k c :
  block_matches a b (S i, S j, k) →
  a !! i = Some c → b !! j = Some c →
  block_matches a b (i, j, k + 1).
Proof.
  intros Hblock Ha Hb t Ht. destruct t as [|t].
  - exists c. by rewrite !Nat.add_0_r.
  - destruct (Hblock t) as (c' & Ha' & Hb'); [lia|].
    exists c'. by rewrite <- !Nat.add_succ_comm.
Qed.

Lemma same_at_true i j :
  same_at a b i j = true → ∃ c, a !! i = Some c ∧ b !! j = Some c.
Proof.
  unfold same_at. destruct (a !! i) as [x|], (b !! j) as [y|]; try done.
  intros ->%bool_decide_eq_true. by exists y.
Qed.

Lemma scan_row_matches blo bhi i c j2len js : ∀ newj2len best,
  a !! i = Some c → (∀ j, j ∈ js → b !! j = Some c) →
  row_matches a b i j2len → row_matches a b (S i) newj2len →
  block_matches a b best →
  row_matches a b (S i) (scan_row blo bhi js i j2len newj2len best).1 ∧
  block_matches a b (scan_row blo bhi js i j2len newj2len best).2.
Proof.
  intros newj2len best Hi. revert newj2len best.
  induction js as [|j js IH]; intros newj2len best Hjs Hrow Hnew Hbest; [done|].
  assert (Hj : b !! j = Some c) by (apply Hjs; left).
  assert (Hjs' : ∀ j', j' ∈ js → b !! j' = Some c) by (intros ??; apply Hjs; by right).
  cbn [scan_row]. destruct (j <? blo); [by apply IH|].
  destruct (bhi <=? j); [done|].
  destruct best as [[besti bestj] bestsize].
  set (k := j2len_get_pred j2len j).
  assert (Hk : k ≤ i ∧ k ≤ j ∧ block_matches a b (i - k, j - k, k)).
  { subst k. destruct j as [|j']; simpl.
    - split_and!; [lia..|]. intros t Ht. lia.
    - destruct (j2len !! j') as [k'|] eqn:Hk'; simpl.
      + destruct (Hrow j' k' Hk') as (? & ? & Hblock).
        split_and!; [lia..|]. by replace (S j' - k') with (j' + 1 - k') by lia.
      + split_and!; [lia..|]. intros t Ht. lia. }
  destruct Hk as (Hki & Hkj & Hblock).
  assert (Hblock' : block_matches a b (i + 1 - (k + 1), j + 1 - (k + 1), k + 1)).
  { replace (i + 1 - (k + 1)) with (i - k) by lia.
    replace (j + 1 - (k + 1)) with (j - k) by lia.
    apply (block_matches_snoc _ _ _ c); [done|..].
    - by replace (i - k + k) with i by lia.
    - by replace (j - k + k) with j by lia. }
  apply IH; [done|done| |].
  - intros j' k'. destruct (decide (j' = j)) as [->|Hne].
    + rewrite lookup_insert_eq. intros [= <-]. split_and!; [lia..|].
      by replace (S i - (k + 1)) with (i + 1 - (k + 1)) by lia.
    + rewrite lookup_insert_ne by done. apply Hnew.
  - by destruct (bestsize <? k + 1).
Qed.

Lemma row_matches_empty i : row_matches a b i ∅.
Proof. intros j k. by rewrite lookup_empty. Qed.

Lemma scan_rows_matches blo bhi m : ∀ i j2len best,
  row_matches a b i j2len → block_matches a b best →
  block_matches a b (scan_rows a b2j blo bhi (seq i m) j2len best).
Proof.
  induction m as [|m IH]; intros i j2len best Hrow Hbest; [done|].
  cbn [seq scan_rows].
  destruct (a !! i) as [c|] eqn:Hi.
  - destruct (scan_row_matches blo bhi i c j2len (default [] (b2j !! c)) ∅ best)
      as [Hrow' Hbest']; [done| |done|apply row_matches_empty|done|].
    { intros j Hj.
      destruct (b2j !! c) as [js|] eqn:Hc; [|by apply elem_of_nil in Hj].
      by apply (b2j_sound c js). }
    destruct (scan_row blo bhi (default [] (b2j !! c)) i j2len ∅ best)
      as [newj2len best'].
    by apply IH.
  - simpl. apply IH; [apply row_matches_empty|done].
Qed.

Lemma extend_back_matches alo blo besti : ∀ bestj bestsize,
  block_matches a b (besti, bestj, bestsize) →
  block_matches a b (extend_back a b alo blo besti bestj bestsize).
Proof.
  induction besti as [|i IH]; intros bestj bestsize Hbest; [done|].
  cbn [extend_back].
  destruct ((alo <? S i) && (blo <? bestj) && same_at a b i (bestj - 1))
    eqn:Hgo; [|done].
  apply andb_true_iff in Hgo as [[_ Hb%Nat.ltb_lt]%andb_true_iff Hsame].
  apply same_at_true in Hsame as (c & Hai & Hbj).
  apply IH. apply (block_matches_cons _ _ _ c); [|done..].
  by replace (S (bestj - 1)) with bestj by lia.
Qed.

Lemma extend_forward_matches ahi bhi todo besti bestj : ∀ bestsize,
  block_matches a b (besti, bestj, bestsize) →
  block_matches a b
    (besti, bestj, extend_forward a b ahi bhi todo besti bestj bestsize).
Proof.
  induction todo as [|todo IH]; intros bestsize Hbest; [done|].
  cbn [extend_forward].
  destruct ((besti + bestsize <? ahi) && (bestj + bestsize <? bhi)
            && same_at a b (besti + bestsize) (bestj + bestsize))
    eqn:Hgo; [|done].
  apply andb_true_iff in Hgo as [_ Hsame].
  apply same_at_true in Hsame as (c & Hai & Hbj).
  apply IH. by apply (block_matches_snoc _ _ _ c).
Qed.

Lemma find_longest_match_matches alo ahi blo bhi :
  block_matches a b (find_longest_match a b b2j alo ahi blo bhi).
Proof.
  unfold find_longest_match.
  pose proof (scan_rows_matches blo bhi (ahi - alo) alo ∅ (alo, blo, 0)) as Hscan.
  destruct (scan_rows a b2j blo bhi (seq alo (ahi - alo)) ∅ (alo, blo, 0))
    as [[i1 j1] k1].
  pose proof (extend_back_matches alo blo i1 j1 k1) as Hback.
  destruct (extend_back a b alo blo i1 j1 k1) as [[i2 j2] k2].
  apply extend_forward_matches, Hback, Hscan; [apply row_matches_empty|].
  intros t Ht. lia.
Qed.

Lemma match_loop_matches fuel : ∀ queue matching_blocks blocks,
  Forall (block_matches a b) matching_blocks →
  match_loop a b b2j fuel queue matching_blocks = Some blocks →
  Forall (block_matches a b) blocks.
Proof.
  induction fuel as [|fuel IH]; intros queue mb blocks Hmb;
    destruct queue as [|[[[alo ahi] blo] bhi] queue]; cbn [match_loop].
  - by intros [= <-].
  - done.
  - by intros [= <-].
  - pose proof (find_longest_match_matches alo ahi blo bhi) as Hblock.
    destruct (find_longest_match a b b2j alo ahi blo bhi) as [[i j] k].
    destruct (k =? 0); [by apply IH|].
    apply IH. apply Forall_app. by repeat constructor.
Qed.

Lemma collapse_matches_blocks blocks : ∀ i1 j1 k1 non_adjacent,
  Forall (block_matches a b) blocks →
  block_matches a b (i1, j1, k1) →
  Forall (block_matches a b) non_adjacent →
  Forall (block_matches a b) (collapse blocks i1 j1 k1 non_adjacent).
Proof.
  induction blocks as [|[[i2 j2] k2] blocks IH];
    intros i1 j1 k1 na Hblocks Hcur Hna; simpl.
  - destruct (k1 =? 0); [done|]. apply Forall_app. by repeat constructor.
  - apply Forall_cons in Hblocks as [Hnext Hblocks].
    destruct ((i1 + k1 =? i2) && (j1 + k1 =? j2)) eqn:Hadj.
    + apply andb_true_iff in Hadj as [<-%Nat.eqb_eq <-%Nat.eqb_eq].
      apply IH; [done| |done].
      intros t Ht. destruct (decide (t < k1)) as [Hlow|Hhigh].
      * by apply Hcur.
      * destruct (Hnext (t - k1)) as (c & Hai & Hbj); [lia|].
        exists c. by replace (i1 + t) with (i1 + k1 + (t - k1)) by lia;
          replace (j1 + t) with (j1 + k1 + (t - k1)) by lia.
    + apply IH; [done..|].
      destruct (k1 =? 0); [done|]. apply Forall_app. by repeat constructor.
Qed.

End BlocksMatch.

(** Every block that [get_matching_blocks] returns is a match. *)
Lemma get_matching_blocks_match (a b : str) blocks :
  get_matching_blocks a b = Some blocks → Forall (block_matches a b) blocks.
Proof.
  unfold get_matching_blocks.
  destruct (match_loop a b (chain_b b) (2 * length a + 1)
              [(0, length a, 0, length b)] []) as [mb|] eqn:Hloop; [|done].
  intros [= <-].
  assert (Hmb : Forall (block_matches a b) mb).
  { apply (match_loop_matches a b (chain_b b)) in Hloop; [done| |constructor].
    intros c js j Hjs Hj. apply chain_b_lookup in Hjs as ->.
    apply positions_elem in Hj as [_ Hj]. by rewrite Nat.sub_0_r in Hj. }
  apply Forall_app. split.
  - apply collapse_matches_blocks; [|intros t Ht; lia|constructor].
    by rewrite merge_sort_Permutation.
  - repeat constructor. intros t Ht. lia.
Qed.

(** ** The similarity score *)

Section Rounding.

Lemma round_half_even_bounds (lo hi : Z) (y : Q) :
  (inject_Z lo <= y)%Q → (y <= inject_Z hi)%Q →
  (lo ≤ round_half_even y ≤ hi)%Z.
Proof.
  intros Hlo Hhi. unfold round_half_even.
  assert (Hf1 : (lo <= Qfloor y)%Z).
  { rewrite <- (Qfloor_Z lo). by apply Qfloor_resp_le. }
  assert (Hf2 : (Qfloor y <= hi)%Z).
  { rewrite <- (Qfloor_Z hi). by apply Qfloor_resp_le. }
  pose proof (Qfloor_le y) as Hfl.
  assert (Hup : ¬ (y - inject_Z (Qfloor y) < 1 # 2)%Q → (Qfloor y + 1 ≤ hi)%Z).
  { intros Hr. assert (inject_Z (Qfloor y) < inject_Z hi)%Q as Hlt by lra.
    rewrite <- Zlt_Qlt in Hlt. lia. }
  destruct (y - inject_Z (Qfloor y) ?= 1 # 2)%Q eqn:Hc.
  - apply Qeq_alt in Hc. destruct (Z.even (Qfloor y)); [lia|].
    split; [lia|]. apply Hup. lra.
  - lia.
  - apply Qgt_alt in Hc. split; [lia|]. apply Hup. lra.
Qed.

Lemma round_half_even_comp x y : Qeq x y → round_half_even x = round_half_even y.
Proof.
  intros H. unfold round_half_even. rewrite (Qfloor_comp x y H).
  assert (Hc : ((x - inject_Z (Qfloor y) ?= 1 # 2) = (y - inject_Z (Qfloor y) ?= 1 # 2))%Q).
  { apply Qcompare_comp; [|reflexivity]. by rewrite H. }
  by rewrite Hc.
Qed.

Lemma round2_bounds x : (0 <= x)%Q → (x <= 100)%Q → (0 <= round2 x)%Q ∧ (round2 x <= 100)%Q.
Proof.
  intros H0 H100. unfold round2.
  destruct (round_half_even_bounds 0 10000 (x * 100)) as [Hlo Hhi].
  { change (inject_Z 0) with 0%Q. lra. }
  { change (inject_Z 10000) with 10000%Q. lra. }
  rewrite Zle_Qle in Hlo, Hhi.
  change (inject_Z 0) with 0%Q in Hlo. change (inject_Z 10000) with 10000%Q in Hhi.
  split.
  - apply Qle_shift_div_l; [done|]. lra.
  - apply Qle_shift_div_r; [done|]. lra.
Qed.

Lemma round2_100 x : Qeq x 100 → Qeq (round2 x) 100.
Proof.
  intros H. unfold round2.
  rewrite (round_half_even_comp (x * 100) 10000) by (rewrite H; reflexivity).
  reflexivity.
Qed.

Lemma calculate_ratio_bounds m t :
  2 * m ≤ t → (0 <= calculate_ratio m t)%Q ∧ (calculate_ratio m t <= 1)%Q.
Proof.
  intros H. unfold calculate_ratio.
  destruct (t =? 0) eqn:Ht; [split; lra|].
  apply Nat.eqb_neq in Ht.
  assert (Hm : (0 <= inject_Z (Z.of_nat m))%Q) by (rewrite <- (Zle_Qle 0); lia).
  assert (Htpos : (0 < inject_Z (Z.of_nat t))%Q) by (rewrite <- (Zlt_Qlt 0); lia).
  assert (Hmt : (2 * inject_Z (Z.of_nat m) <= inject_Z (Z.of_nat t))%Q).
  { change 2%Q with (inject_Z 2). rewrite <- inject_Z_mult, <- Zle_Qle. lia. }
  split.
  - apply Qle_shift_div_l; [done|]. lra.
  - apply Qle_shift_div_r; [done|]. lra.
Qed.

Lemma calculate_ratio_same m : 0 < m → Qeq (calculate_ratio m (m + m)) 1.
Proof.
  intros H. unfold calculate_ratio.
  destruct (m + m =? 0) eqn:Ht; [apply Nat.eqb_eq in Ht; lia|].
  rewrite Nat2Z.inj_add, inject_Z_plus.
  assert (Hm : (0 < inject_Z (Z.of_nat m))%Q) by (rewrite <- (Zlt_Qlt 0); lia).
  field. lra.
Qed.

End Rounding.

Lemma match_loop_nil a b b2j fuel matching_blocks :
  match_loop a b b2j fuel [] matching_blocks = Some matching_blocks.
Proof. by destruct fuel. Qed.

Lemma get_matching_blocks_same (s : str) :
  s ≠ [] →
  ∃ blocks, get_matching_blocks s s = Some blocks ∧ matches blocks = length s.
Proof.
  intros Hs. unfold get_matching_blocks.
  replace (2 * length s + 1) with (S (2 * length s)) by lia.
  cbn [match_loop].
  rewrite find_longest_match_same by apply chain_b_lookup.
  assert (Hlen : (length s =? 0) = false) by (apply Nat.eqb_neq; by destruct s).
  rewrite Hlen. simpl andb. rewrite Nat.ltb_irrefl. cbv iota.
  rewrite match_loop_nil. eexists. split; [done|].
  rewrite matches_app, collapse_matches, matches_sorted.
  unfold matches. simpl. lia.
Qed.

Lemma calculate_similarity_empty (reference attempt : str) :
  normalize_text reference = [] ∨ normalize_text attempt = [] →
  calculate_similarity reference attempt = Some 0%Q.
Proof.
  unfold calculate_similarity. intros [-> | ->]; [done|].
  by rewrite orb_true_r.
Qed.

(** The score of two strings whose normalised forms are not empty. *)
Lemma calculate_similarity_nonempty (reference attempt : str) :
  normalize_text reference ≠ [] → normalize_text attempt ≠ [] →
  calculate_similarity reference attempt
  = match ratio (normalize_text reference) (normalize_text attempt) with
    | Some ratio => Some (round2 (ratio * 100))
    | None => None
    end.
Proof.
  intros Hr Ha. unfold calculate_similarity.
  by destruct (normalize_text reference), (normalize_text attempt).
Qed.




(** C6, as stated, fails: two strings whose normalised forms are identical
    and empty score 0, not 100. *)
Lemma calculate_similarity_empty_not_100 :
  normalize_text [] = normalize_text (lit "?!") ∧
  calculate_similarity [] (lit "?!") = Some 0%Q ∧
  ¬ Qeq 0 100.
Proof. split_and!; [by vm_compute|by vm_compute|]. intros H. lra. Qed.

(** C6, amended.  The score is always between 0 and 100; two strings
    whose normalised forms are identical and not empty score 100. *)
Theorem calculate_similarity_range (reference attempt : str) :
  ∃ score,
    calculate_similarity reference attempt = Some score ∧
    (0 <= score)%Q ∧ (score <= 100)%Q ∧
    (normalize_text reference = normalize_text attempt →
     normalize_text reference ≠ [] → Qeq score 100).
Proof.
  destruct (decide (normalize_text reference = []
                    ∨ normalize_text attempt = [])) as [Hempty|Hfull].
  - exists 0%Q.
    rewrite calculate_similarity_empty by done.
    split_and!; [done|lra|lra|]. intros Heq Hne. rewrite <- Heq in Hempty.
    by destruct Hempty.
  - assert (Hr : normalize_text reference ≠ []) by (intros H; apply Hfull; by left).
    assert (Ha : normalize_text attempt ≠ []) by (intros H; apply Hfull; by right).
    rewrite calculate_similarity_nonempty by done.
    destruct (get_matching_blocks_total (normalize_text reference)
                (normalize_text attempt)) as (blocks & Hblocks & Hma & Hmb).
    unfold ratio. rewrite Hblocks. fold (matches blocks).
    eexists. split; [done|].
    destruct (calculate_ratio_bounds (matches blocks)
                (length (normalize_text reference)
                 + length (normalize_text attempt))) as [H0 H1]; [lia|].
    destruct (round2_bounds
                (calculate_ratio (matches blocks)
                   (length (normalize_text reference)
                    + length (normalize_text attempt)) * 100)) as [Hlo Hhi];
      [lra|lra|].
    split_and!; [done|done|].
    intros Heq Hne. apply round2_100.
    destruct (get_matching_blocks_same _ Hne) as (blocks' & Hb' & Hm').
    rewrite <- Heq in Hblocks. rewrite Hblocks in Hb'. injection Hb' as <-.
    rewrite <- Heq, Hm'.
    rewrite calculate_ratio_same; [reflexivity|].
    destruct (normalize_text reference); [done|simpl; lia].
Qed.

(** The end-to-end example of the specification: a transcript that differs
    from its reference in case and punctuation only scores 100. *)
Example seashells_score :
  option_map Qred
    (calculate_similarity (lit "She sells seashells by the seashore.")
       (lit "she sells seashells by the seashore"))
  = Some 100%Q.
Proof. by vm_compute. Qed.

(** * Further properties *)

(** ** Normalisation and score *)

Section NormalizeMore.

Lemma lower_char_alnum c : alnum c = true → lower_char c = c.
Proof. destruct c as [[] [] [] [] [] [] [] []]; by vm_compute. Qed.

Lemma in_class_alnum c : alnum c = true → in_class c = true.
Proof. unfold in_class. fold (alnum c). by intros ->. Qed.

(** Lowering and blanking leave a string of letters, digits and spaces as
    it is. *)
Lemma clean_fixed (s : str) :
  Forall (λ c, alnum c = true ∨ c = space) s →
  blank_outside_class (lower s) = s.
Proof.
  induction 1 as [|c s Hc _ IH]; [done|].
  unfold blank_outside_class, lower in *. rewrite !fmap_cons, IH. f_equal.
  destruct Hc as [Hc| ->]; [|done].
  by rewrite (lower_char_alnum c Hc), (in_class_alnum c Hc).
Qed.

Lemma join_alnum tokens :
  Forall (Forall (λ c, alnum c = true)) tokens →
  Forall (λ c, alnum c = true ∨ c = space) (join (lit " ") tokens).
Proof.
  induction 1 as [|w ws Hw Hws IH]; [constructor|].
  assert (Hw' : Forall (λ c, alnum c = true ∨ c = space) w).
  { eapply Forall_impl; [exact Hw|]. by left. }
  destruct ws as [|w' ws]; [done|].
  rewrite join_cons by done. apply Forall_app. split; [done|].
  apply Forall_cons. split; [by right|done].
Qed.

Lemma runs_scan_words tok s :
  Forall (λ c, alnum c = true) tok →
  Forall word (runs_scan alnum tok s).
Proof.
  intros Htok. rewrite <- split_scan_blank. apply split_scan_words.
  eapply Forall_impl; [exact Htok|]. apply alnum_not_space.
Qed.

Lemma normalize_text_runs value :
  normalize_text value = join (lit " ") (runs alnum (lower value)).
Proof. unfold normalize_text, split. by rewrite split_scan_blank. Qed.

End NormalizeMore.

Lemma normalize_text_fixed (value : str) :
  normalize_text (normalize_text value) = normalize_text value.
Proof.
  rewrite (normalize_text_runs value).
  set (tokens := runs alnum (lower value)).
  assert (Halnum : Forall (Forall (λ c, alnum c = true)) tokens)
    by (by apply runs_scan_alnum).
  assert (Hwords : Forall word tokens) by (by apply runs_scan_words).
  unfold normalize_text. rewrite clean_fixed by (by apply join_alnum).
  by rewrite split_join.
Qed.

(** X1.  Normalising twice is normalising once. *)
Theorem normalize_text_idempotent (value : str) :
  normalize_text (normalize_text value) = normalize_text value.
Proof. apply normalize_text_fixed. Qed.

(** X2.  The score depends on the two strings through their normalised
    forms only: it ignores case, punctuation and the amount of
    whitespace. *)
Theorem calculate_similarity_of_normalized (reference attempt : str) :
  calculate_similarity (normalize_text reference) (normalize_text attempt)
  = calculate_similarity reference attempt.
Proof.
  unfold calculate_similarity. by rewrite !normalize_text_fixed.
Qed.

(** X3.  Two strings whose normalised forms have no character in common
    score 0. *)
Theorem calculate_similarity_disjoint (reference attempt : str) :
  (∀ c, c ∈ normalize_text reference → c ∉ normalize_text attempt) →
  ∃ score,
    calculate_similarity reference attempt = Some score ∧ Qeq score 0.
Proof.
  intros Hdisjoint.
  destruct (decide (normalize_text reference = []
                    ∨ normalize_text attempt = [])) as [Hempty|Hfull].
  { exists 0%Q. by rewrite calculate_similarity_empty. }
  assert (Hr : normalize_text reference ≠ []) by (intros H; apply Hfull; by left).
  assert (Ha : normalize_text attempt ≠ []) by (intros H; apply Hfull; by right).
  rewrite calculate_similarity_nonempty by done.
  destruct (get_matching_blocks_total (normalize_text reference)
              (normalize_text attempt)) as (blocks & Hblocks & _ & _).
  pose proof (get_matching_blocks_match _ _ _ Hblocks) as Hmatch.
  assert (Hzero : matches blocks = 0).
  { clear Hblocks. induction Hmatch as [|[[i j] k] blocks Hblock _ IH]; [done|].
    unfold matches in *. simpl. rewrite IH.
    destruct k as [|k]; [done|].
    destruct (Hblock 0) as (c & Hi & Hj); [lia|].
    destruct (Hdisjoint c); by eapply list_elem_of_lookup_2. }
  unfold ratio. rewrite Hblocks. fold (matches blocks). rewrite Hzero.
  eexists. split; [done|].
  unfold round2.
  rewrite (round_half_even_comp _ 0); [reflexivity|].
  unfold calculate_ratio.
  destruct (normalize_text reference) as [|c r]; [done|].
  simpl. field.
  intros H. unfold Qeq in H. simpl in H. lia.
Qed.

Lemma calculate_similarity_disjoint_witness :
  ∃ score,
    calculate_similarity (lit "abc") (lit "xyz") = Some score ∧ Qeq score 0.
Proof.
  apply (calculate_similarity_disjoint (lit "abc") (lit "xyz")).
  apply Forall_forall. apply (bool_decide_unpack _). by vm_compute.
Defined.

(** ** History truncation *)

Section HistoryMore.

(** What [_truncate_history] returns, read off the loop. *)
Lemma truncate_history_split (messages : list turn) :
  ∃ dropped,
    messages = dropped ++ _truncate_history messages ∧
    (total_words (_truncate_history messages) ≤ 3000
     ∨ length (_truncate_history messages) = 1) ∧
    (∀ d, last dropped = Some d →
          3000 < total_words (_truncate_history messages) + entry_words d).
Proof.
  unfold _truncate_history.
  destruct (truncate_loop_spec (rev messages) []) as
    (kept & rest & Hsplit & Hrun & Hbudget & _ & Hmax).
  { left. unfold total_words. simpl. lia. }
  change (total_words []) with 0 in Hrun. rewrite Hrun. simpl in *.
  apply (f_equal (@rev turn)) in Hsplit.
  rewrite rev_involutive, rev_app_distr in Hsplit.
  exists (rev rest). split; [done|]. split.
  - rewrite total_words_reverse, length_rev. done.
  - intros d Hd. rewrite total_words_reverse. apply Hmax.
    destruct rest as [|r rest]; [done|].
    simpl in Hd. by rewrite last_snoc in Hd.
Qed.

End HistoryMore.

(** X4.  A history of at most 3000 words is passed on whole. *)
Theorem truncate_history_within_budget (messages : list turn) :
  total_words messages ≤ 3000 → _truncate_history messages = messages.
Proof.
  intros Hfit.
  destruct (truncate_history_split messages) as (dropped & Hsplit & _ & Hmax).
  destruct dropped as [|d dropped _] using rev_ind; [done|].
  specialize (Hmax d (last_snoc _ _)).
  rewrite Hsplit in Hfit at 1. rewrite !total_words_app in Hfit.
  unfold total_words at 2 in Hfit. simpl in Hfit. lia.
Qed.

Lemma truncate_history_within_budget_witness :
  _truncate_history [Turn (lit "user") (Some (lit "good morning"))]
  = [Turn (lit "user") (Some (lit "good morning"))].
Proof.
  apply (truncate_history_within_budget
           [Turn (lit "user") (Some (lit "good morning"))]).
  vm_compute. lia.
Defined.

(** X25.  Truncating twice is truncating once: what [_truncate_history]
    returns is within the budget, or a single turn, and is returned
    unchanged when it is truncated again. *)
Theorem truncate_history_idempotent (messages : list turn) :
  _truncate_history (_truncate_history messages) = _truncate_history messages.
Proof.
  destruct (truncate_history_split messages) as (_ & _ & Hbudget & _).
  destruct Hbudget as [Hfit|Hone].
  - destruct (truncate_history_split (_truncate_history messages))
      as (dropped & Hsplit & _ & Hmax).
    destruct dropped as [|d dropped _] using rev_ind; [done|].
    specialize (Hmax d (last_snoc _ _)).
    rewrite Hsplit in Hfit at 1. rewrite !total_words_app in Hfit.
    unfold total_words at 2 in Hfit. simpl in Hfit. lia.
  - destruct (_truncate_history messages) as [|t [|]]; try done.
    unfold _truncate_history. simpl. by rewrite andb_false_r.
Qed.

(** X5.  [process_audio] puts the system instruction first, which makes it
    the oldest turn: once the instruction and the history together have
    more than 3000 words, the instruction is among the turns dropped, and
    what is sent is a suffix of the history alone. *)
Theorem truncate_history_drops_system_first
    (system_msg : turn) (history : list turn) :
  history ≠ [] →
  3000 < total_words (system_msg :: history) →
  ∃ dropped,
    history = dropped ++ _truncate_history (system_msg :: history).
Proof.
  intros Hne Hover.
  destruct (truncate_history_split (system_msg :: history))
    as (dropped & Hsplit & Hbudget & _).
  destruct dropped as [|d dropped].
  - simpl in Hsplit. rewrite <- Hsplit in Hbudget.
    destruct Hbudget as [Hle|Hone]; [lia|].
    destruct history; [done|]. simpl in Hone. lia.
  - injection Hsplit as _ Hsplit. by exists dropped.
Qed.

Lemma truncate_history_drops_system_first_witness :
  ∃ dropped, [long_turn] = dropped ++ _truncate_history [system_msg0; long_turn].
Proof.
  apply (truncate_history_drops_system_first system_msg0 [long_turn]).
  - discriminate.
  - apply Nat.ltb_lt. by vm_compute.
Defined.

(** ** Reply truncation *)

(** X6.  The text handed to the text-to-speech engine never has more than
    150 words. *)
Theorem synthesize_conversational_at_most_150_words (text : str) :
  length (split (synthesize_conversational text)) ≤ 150.
Proof.
  unfold synthesize_conversational.
  destruct (150 <? length (split text)) eqn:Hlen.
  - apply Nat.ltb_lt in Hlen.
    assert (Htake : length (take 150 (split text)) = 150)
      by (rewrite length_take; lia).
    destruct (take 150 (split text)) as [|w init _] eqn:Heq using rev_ind;
      [done|].
    rewrite (split_join_tail init w (lit "...")).
    + rewrite length_app in *. simpl in *. lia.
    + rewrite <- Heq. apply Forall_take, split_words.
    + apply nonspace_dots.
  - by apply Nat.ltb_ge in Hlen.
Qed.

(** ** Removing a played reply *)

Section Basename.

Lemma rfind_from_bounds c s : ∀ i found,
  rfind_from c s i found = found
  ∨ (Z.of_nat i ≤ rfind_from c s i found < Z.of_nat (i + length s))%Z.
Proof.
  induction s as [|x s IH]; intros i found; [by left|].
  simpl. destruct (IH (S i) (if bool_decide (x = c) then Z.of_nat i else found))
    as [->|H].
  - case_bool_decide; [right; lia|by left].
  - right. lia.
Qed.

Lemma rfind_from_found c s : ∀ i found,
  c ∈ s → (Z.of_nat i ≤ rfind_from c s i found)%Z.
Proof.
  induction s as [|x s IH]; intros i found H.
  - by apply elem_of_nil in H.
  - simpl. apply elem_of_cons in H as [->|H].
    + rewrite bool_decide_eq_true_2 by done.
      destruct (rfind_from_bounds x s (S i) (Z.of_nat i)) as [->|?]; lia.
    + specialize (IH (S i) (if bool_decide (x = c) then Z.of_nat i else found) H).
      lia.
Qed.

(** A path that is its own basename has no slash. *)
Lemma basename_fixed p : basename p = p → slash ∉ p.
Proof.
  intros Heq Hin. unfold basename, rfind in Heq.
  pose proof (rfind_from_found slash p 0 (-1) Hin) as Hlo.
  apply (f_equal length) in Heq. rewrite length_drop in Heq.
  destruct p; [by apply elem_of_nil in Hin|]. simpl length in Heq. lia.
Qed.

End Basename.

(** X7.  Whatever the request, [cleanup_audio] removes at most one file of
    the upload folder, and a file it removes has a name without a slash that
    ends in [".mp3"]; the answer is then the success answer. *)
Theorem cleanup_audio_removes_only_mp3
    (request_json : option pyval) (files : gset str) :
  let response := (cleanup_audio request_json files).1 in
  let files' := (cleanup_audio request_json files).2 in
  files' ⊆ files ∧
  ∀ f, f ∈ files → f ∉ files' →
       response = JsonOk ∧ files' = files ∖ {[f]} ∧
       (slash ∉ f) ∧ endswith f (lit ".mp3") = true.
Proof.
  unfold cleanup_audio.
  destruct (or_else request_json (PDict [])) as [| | | | | |payload];
    try (simpl; split; [done|by intros f ? ?]).
  destruct (or_else (dict_get payload (lit "filename")) (PStr []))
    as [| | | |raw| |]; try (simpl; split; [done|by intros f ? ?]).
  destruct (negb (truthy (strip raw)));
    [simpl; split; [done|by intros f ? ?]|].
  destruct (bool_decide (basename (strip raw) = strip raw)) eqn:Hbase;
    [|simpl; split; [done|by intros f ? ?]].
  destruct (endswith (basename (strip raw)) (lit ".mp3")) eqn:Hext;
    [|simpl; split; [done|by intros f ? ?]].
  apply bool_decide_eq_true in Hbase. simpl.
  case_bool_decide as Hin; [|split; [done|by intros f ? ?]].
  split; [by apply subseteq_difference_l|].
  intros f Hf Hgone.
  assert (f = basename (strip raw)) as ->.
  { destruct (decide (f = basename (strip raw))) as [|Hne]; [done|].
    destruct Hgone. apply elem_of_difference. split; [done|].
    by rewrite elem_of_singleton. }
  split_and!; try done.
  apply basename_fixed. by rewrite Hbase at 1.
Qed.

(** ** The progress cache *)

(** X8.  However many sessions are saved, for whichever users and whether
    or not the remote writes go through, no user ever has more than 100
    cached entries. *)
Theorem progress_cache_never_exceeds_100
    (st : store) (user_id : str) (history : list progress_entry) :
  reachable st →
  PROGRESS_CACHE st !! user_id = Some history →
  length history ≤ 100.
Proof. intros Hst. by apply reachable_cache_bounded. Qed.

Lemma progress_cache_never_exceeds_100_witness :
  length [new_entry [] (lit "hello") 50 (lit "sentence") environment0] ≤ 100.
Proof.
  apply (progress_cache_never_exceeds_100
           (save_progress_entry (lit "coach") [] (lit "hello") 50
              (lit "sentence") environment0 store0)
           (lit "coach")).
  - apply reachable_save, reachable_start.
  - by vm_compute.
Defined.

(** ** The remote dialogue client *)

Section GeminiTrace.

Variable py_str : pyval → str.
Variable network : nat → http_reply.

Lemma call_gemini_api_from retries backoff (m : nat) : ∀ k,
  Z.of_nat (k + m) = retries → 0 < m →
  (∀ i, i < k → fails_retryably py_str (network i)) →
  ∃ n,
    (Z.of_nat n < retries)%Z ∧
    (∀ i, i < n → fails_retryably py_str (network i)) ∧
    call_gemini_api py_str network retries backoff fresh
    = (outcome py_str (network n),
       {| posts := S n; sleeps := naps backoff n |}).
Proof.
  induction m as [|m IH]; intros k Hk Hm Hfail; [lia|].
  destruct (outcome py_str (network k)) as [v|e] eqn:Hout.
  { exists k. split; [lia|]. split; [done|]. rewrite Hout.
    apply call_gemini_api_returns; [lia|done..]. }
  destruct m as [|m].
  { exists k. split; [lia|]. split; [done|]. rewrite Hout.
    apply call_gemini_api_exhausted; [lia|done..]. }
  assert (Hnext : retryable e →
    ∃ n, (Z.of_nat n < retries)%Z ∧
         (∀ i, i < n → fails_retryably py_str (network i)) ∧
         call_gemini_api py_str network retries backoff fresh
         = (outcome py_str (network n),
            {| posts := S n; sleeps := naps backoff n |})).
  { intros Hretry. apply (IH (S k)); [lia|lia|].
    intros i Hi. destruct (decide (i = k)) as [->|]; [by exists e|].
    apply Hfail. lia. }
  destruct e as [status|msg|kind]; [|by apply Hnext..].
  destruct (decide (status = Some 503%Z)) as [->|Hstatus]; [by apply Hnext|].
  exists k. split; [lia|]. split; [done|]. rewrite Hout.
  apply call_gemini_api_fatal; [lia|done..].
Qed.

End GeminiTrace.

(** X9.  Whatever the network answers, a call with at least one attempt
    allowed ends with the outcome of the last request it posted: request
    number [n], counted from 0, after [n] requests that failed with HTTP 503
    or with an exception that is not an [HTTPError], each followed by its
    nap, and by no other nap. *)
Theorem call_gemini_api_ends_with_last_request
    (py_str : pyval → str) (network : nat → http_reply)
    (retries : Z) (backoff : Q) :
  (1 ≤ retries)%Z →
  ∃ n,
    (Z.of_nat n < retries)%Z ∧
    (∀ i, i < n → fails_retryably py_str (network i)) ∧
    call_gemini_api py_str network retries backoff fresh
    = (outcome py_str (network n),
       {| posts := S n; sleeps := naps backoff n |}).
Proof.
  intros Hretries.
  apply (call_gemini_api_from py_str network retries backoff
           (Z.to_nat retries) 0); [lia|lia|].
  intros i Hi. lia.
Qed.

Lemma call_gemini_api_ends_with_last_request_witness :
  ∃ n,
    (Z.of_nat n < 3)%Z ∧
    (∀ i, i < n → fails_retryably no_str (network_503_503_ok i)) ∧
    call_gemini_api no_str network_503_503_ok 3 1 fresh
    = (outcome no_str (network_503_503_ok n),
       {| posts := S n; sleeps := naps 1 n |}).
Proof.
  apply (call_gemini_api_ends_with_last_request no_str network_503_503_ok 3 1).
  lia.
Defined.

(** X10.  With no attempt allowed ([retries] zero or negative) nothing is
    posted and no nap is taken, and the call raises
    [RuntimeError("Gemini API call failed")]. *)
Theorem call_gemini_api_without_attempts
    (py_str : pyval → str) (network : nat → http_reply)
    (retries : Z) (backoff : Q) :
  (retries ≤ 0)%Z →
  call_gemini_api py_str network retries backoff fresh
  = (Raise (RuntimeError (lit "Gemini API call failed")), fresh).
Proof.
  intros Hretries. unfold call_gemini_api, py_range.
  by replace (Z.to_nat (retries + 1 - 1)) with 0 by lia.
Qed.

Lemma call_gemini_api_without_attempts_witness :
  call_gemini_api no_str network_404 0 1 fresh
  = (Raise (RuntimeError (lit "Gemini API call failed")), fresh).
Proof.
  apply (call_gemini_api_without_attempts no_str network_404 0 1). lia.
Defined.

(** ** Regular expressions *)

Section Regex.

Import re.

Lemma lang_cat_inv r s w :
  lang (Cat r s) w → ∃ u v, w = u ++ v ∧ lang r u ∧ lang s v.
Proof. inversion 1; subst. by eexists _, _. Qed.

Lemma lang_star_inv r w :
  lang (Star r) w →
  w = [] ∨ ∃ u v, w = u ++ v ∧ u ≠ [] ∧ lang r u ∧ lang (Star r) v.
Proof. inversion 1; subst; [by left|right]. by eexists _, _. Qed.

Lemma lang_alt_inv r s w : lang (Alt r s) w → lang r w ∨ lang s w.
Proof. inversion 1; subst; [by left|by right]. Qed.

Lemma nullable_lang r : nullable r = true ↔ lang r [].
Proof.
  induction r as [| |p|r IHr s IHs|r IHr s IHs|r IH]; simpl.
  - split; [done|]. inversion 1.
  - split; [constructor|done].
  - split; [done|]. inversion 1.
  - rewrite andb_true_iff, IHr, IHs. split.
    + intros [Hr Hs]. by apply (lang_cat r s [] []).
    + intros (u & v & Heq & Hu & Hv)%lang_cat_inv. symmetry in Heq.
      apply app_eq_nil in Heq as [-> ->]. done.
  - rewrite orb_true_iff, IHr, IHs. split.
    + intros [H|H]; [by apply lang_alt_l|by apply lang_alt_r].
    + apply lang_alt_inv.
  - split; [constructor|done].
Qed.

Lemma deriv_lang c r : ∀ s, lang (deriv c r) s ↔ lang r (c :: s).
Proof.
  induction r as [| |p|r IHr t IHt|r IHr t IHt|r IH]; intros s; simpl.
  - split; inversion 1.
  - split; inversion 1.
  - destruct (p c) eqn:Hp; split.
    + inversion 1; subst. by constructor.
    + inversion 1; subst. constructor.
    + inversion 1.
    + inversion 1; subst. congruence.
  - assert (Hcat : lang (Cat (deriv c r) t) s → lang (Cat r t) (c :: s)).
    { intros (u & v & -> & Hu & Hv)%lang_cat_inv.
      apply IHr in Hu. by apply (lang_cat r t (c :: u) v). }
    assert (Hinv : lang (Cat r t) (c :: s) →
              lang (Cat (deriv c r) t) s ∨ (lang r [] ∧ lang (deriv c t) s)).
    { intros (u & v & Heq & Hu & Hv)%lang_cat_inv.
      destruct u as [|x u]; simpl in Heq.
      - right. subst v. split; [done|]. by apply IHt.
      - injection Heq as <- ->. left. apply lang_cat; [|done]. by apply IHr. }
    destruct (nullable r) eqn:Hnull; split.
    + intros [H|H]%lang_alt_inv; [by apply Hcat|].
      apply nullable_lang in Hnull. apply (lang_cat r t [] (c :: s)); [done|].
      by apply IHt.
    + intros H. destruct (Hinv H) as [?|[_ ?]];
        [by apply lang_alt_l|by apply lang_alt_r].
    + apply Hcat.
    + intros H. destruct (Hinv H) as [?|[Hr _]]; [done|].
      apply nullable_lang in Hr. congruence.
  - split.
    + intros [H|H]%lang_alt_inv; [apply lang_alt_l, IHr|apply lang_alt_r, IHt];
        done.
    + intros [H|H]%lang_alt_inv; [apply lang_alt_l, IHr|apply lang_alt_r, IHt];
        done.
  - split.
    + intros (u & v & -> & Hu & Hv)%lang_cat_inv.
      apply IH in Hu. by apply (lang_star_cons r (c :: u) v).
    + intros [?|(u & v & Heq & Hne & Hu & Hv)]%lang_star_inv; [done|].
      destruct u as [|x u]; [done|]. injection Heq as <- ->.
      apply lang_cat; [|done]. by apply IH.
Qed.

Lemma fullmatch_lang r s : fullmatch r s = true ↔ lang r s.
Proof.
  revert r. induction s as [|c s IH]; intros r; simpl.
  - apply nullable_lang.
  - by rewrite IH, deriv_lang.
Qed.

Lemma prefix_matches_lang r s :
  prefix_matches r s = true ↔ ∃ u v, s = u ++ v ∧ lang r u.
Proof.
  revert r. induction s as [|c s IH]; intros r; simpl.
  - rewrite orb_false_r, nullable_lang. split.
    + intros H. by exists [], [].
    + intros (u & v & Heq & Hu). symmetry in Heq.
      apply app_eq_nil in Heq as [-> ->]. done.
  - rewrite orb_true_iff, nullable_lang, IH. split.
    + intros [H|(u & v & -> & Hu)].
      * by exists [], (c :: s).
      * exists (c :: u), v. split; [done|]. by apply deriv_lang.
    + intros (u & v & Heq & Hu). destruct u as [|x u]; [by left|].
      injection Heq as <- ->. right. exists u, v. split; [done|].
      by apply deriv_lang.
Qed.

Lemma search_lang r s :
  search r s = true ↔ ∃ pre u post, s = pre ++ u ++ post ∧ lang r u.
Proof.
  induction s as [|c s IH]; simpl.
  - rewrite !orb_false_r, nullable_lang. split.
    + intros H. by exists [], [], [].
    + intros (pre & u & post & Heq & Hu). symmetry in Heq.
      apply app_eq_nil in Heq as [-> Heq].
      apply app_eq_nil in Heq as [-> ->]. done.
  - rewrite !orb_true_iff, IH, nullable_lang.
    rewrite (prefix_matches_lang (deriv c r) s). split.
    + intros [[H|(u & v & -> & Hu)]|(pre & u & post & -> & Hu)].
      * by exists [], [], (c :: s).
      * exists [], (c :: u), v. split; [done|]. by apply deriv_lang.
      * by exists (c :: pre), u, post.
    + intros (pre & u & post & Heq & Hu).
      destruct pre as [|x pre]; simpl in Heq.
      * destruct u as [|y u]; [by left; left|].
        injection Heq as <- ->. left. right. exists u, post.
        split; [done|]. by apply deriv_lang.
      * injection Heq as <- ->. right. by exists pre, u, post.
Qed.

Lemma lang_class_iff p u : lang (Class p) u ↔ ∃ c, u = [c] ∧ p c = true.
Proof.
  split.
  - inversion 1; subst. by eexists.
  - intros (c & -> & Hc). by constructor.
Qed.

Lemma lang_star_class p u :
  lang (Star (Class p)) u ↔ Forall (λ c, p c = true) u.
Proof.
  split.
  - remember (Star (Class p)) as r eqn:Hr. intros H.
    induction H as [| | | | | |r u v Hne Hu _ Hv IH]; try done.
    injection Hr as ->. apply lang_class_iff in Hu as (c & -> & Hc).
    constructor; [done|]. by apply IH.
  - induction 1 as [|c u Hc _ IH]; [constructor|].
    apply (lang_star_cons (Class p) [c] u); [done|by constructor|done].
Qed.

Lemma lang_plus_class p u :
  lang (Plus (Class p)) u ↔ u ≠ [] ∧ Forall (λ c, p c = true) u.
Proof.
  unfold Plus. split.
  - intros (x & v & -> & Hx & Hv)%lang_cat_inv.
    apply lang_class_iff in Hx as (c & -> & Hc). apply lang_star_class in Hv.
    split; [done|]. by constructor.
  - intros [Hne Hall]. destruct Hall as [|c u Hc Hu]; [done|].
    apply (lang_cat (Class p) _ [c] u); [by constructor|].
    by apply lang_star_class.
Qed.

Lemma search_class p s : search (Class p) s = existsb p s.
Proof.
  apply eq_true_iff_eq. rewrite search_lang, existsb_exists. split.
  - intros (pre & u & post & -> & (c & -> & Hc)%lang_class_iff).
    exists c. split; [|done]. apply in_or_app. right. by left.
  - intros (c & Hin & Hc). apply in_split in Hin as (pre & post & ->).
    exists pre, [c], post. split; [done|]. by constructor.
Qed.

End Regex.

(** ** Validation of sign-up forms *)

Section Forms.

Import re.

Lemma lang_one_char (x : ascii) u :
  lang (Class (λ c, bool_decide (c = x))) u ↔ u = [x].
Proof.
  split.
  - intros (c & -> & Hc)%lang_class_iff. by apply bool_decide_eq_true in Hc as ->.
  - intros ->. apply lang_class_iff. exists x. by rewrite bool_decide_eq_true_2.
Qed.

Lemma lang_EMAIL_PATTERN s :
  lang EMAIL_PATTERN s ↔
  ∃ name domain tld,
    s = name ++ at_sign :: domain ++ dot :: tld ∧
    (name ≠ [] ∧ Forall (λ c, address_char c = true) name) ∧
    (domain ≠ [] ∧ Forall (λ c, address_char c = true) domain) ∧
    (tld ≠ [] ∧ Forall (λ c, address_char c = true) tld).
Proof.
  unfold EMAIL_PATTERN. split.
  - intros (name & s1 & -> & Hname & H1)%lang_cat_inv.
    apply lang_cat_inv in H1 as (a & s2 & -> & ->%lang_one_char & H2).
    apply lang_cat_inv in H2 as (domain & s3 & -> & Hdomain & H3).
    apply lang_cat_inv in H3 as (d & tld & -> & ->%lang_one_char & Htld).
    exists name, domain, tld. by rewrite <- !lang_plus_class.
  - intros (name & domain & tld & -> & Hname & Hdomain & Htld).
    rewrite <- lang_plus_class in Hname, Hdomain, Htld.
    apply lang_cat; [done|].
    apply (lang_cat _ _ [at_sign]); [by apply lang_one_char|].
    apply lang_cat; [done|].
    apply (lang_cat _ _ [dot]); [by apply lang_one_char|done].
Qed.

Lemma match_line_lang r s :
  match_line r s = true ↔ lang r s ∨ ∃ s', s = s' ++ [newline] ∧ lang r s'.
Proof.
  unfold match_line. rewrite orb_true_iff, fullmatch_lang.
  apply or_iff_compat_l.
  destruct s as [|c s _] using rev_ind.
  - split; [done|]. intros (s' & Heq & _). by destruct s'.
  - rewrite last_snoc, removelast_last, andb_true_iff, bool_decide_eq_true,
      fullmatch_lang.
    split.
    + intros [-> H]. by exists s.
    + intros (s' & Heq & H). by apply app_inj_tail in Heq as [-> ->].
Qed.

End Forms.

Lemma validate_email_shape (email : str) :
  _validate_email email = None ↔
  ∃ name domain tld,
    (email = name ++ at_sign :: domain ++ dot :: tld
     ∨ email = (name ++ at_sign :: domain ++ dot :: tld) ++ [re.newline]) ∧
    (name ≠ [] ∧ Forall (λ c, address_char c = true) name) ∧
    (domain ≠ [] ∧ Forall (λ c, address_char c = true) domain) ∧
    (tld ≠ [] ∧ Forall (λ c, address_char c = true) tld).
Proof.
  unfold _validate_email.
  assert (Hmatch : re.match_line EMAIL_PATTERN email = true ↔
    ∃ name domain tld,
      (email = name ++ at_sign :: domain ++ dot :: tld
       ∨ email = (name ++ at_sign :: domain ++ dot :: tld) ++ [re.newline]) ∧
      (name ≠ [] ∧ Forall (λ c, address_char c = true) name) ∧
      (domain ≠ [] ∧ Forall (λ c, address_char c = true) domain) ∧
      (tld ≠ [] ∧ Forall (λ c, address_char c = true) tld)).
  { rewrite match_line_lang. split.
    - intros [H|(s' & -> & H)];
        apply lang_EMAIL_PATTERN in H as (name & domain & tld & -> & H);
        exists name, domain, tld; (split; [|done]); [by left|by right].
    - intros (name & domain & tld & [->| ->] & H); [left|right; eexists; split; [done|]];
        apply lang_EMAIL_PATTERN; by exists name, domain, tld. }
  rewrite <- Hmatch.
  destruct email as [|c email]; simpl negb; cbv iota.
  - split; [done|]. by intros H.
  - destruct (re.match_line EMAIL_PATTERN (c :: email)); simpl; by split.
Qed.

(** X11.  [_validate_email] accepts exactly the strings of the form
    [name@domain.tld], where the three parts are non-empty and have neither
    an [@] nor whitespace, and those strings followed by one newline. *)
Theorem validate_email_accepts (email : str) :
  _validate_email email = None ↔
  ∃ name domain tld,
    (email = name ++ at_sign :: domain ++ dot :: tld
     ∨ email = (name ++ at_sign :: domain ++ dot :: tld) ++ [re.newline]) ∧
    (name ≠ [] ∧ Forall (λ c, address_char c = true) name) ∧
    (domain ≠ [] ∧ Forall (λ c, address_char c = true) domain) ∧
    (tld ≠ [] ∧ Forall (λ c, address_char c = true) tld).
Proof. apply validate_email_shape. Qed.

(** X12.  [_validate_password] has no complaint exactly when the password
    has at least 8 characters, a letter [A]-[Z] or [a]-[z] among them and a
    digit [0]-[9]. *)
Theorem validate_password_accepts (password : str) :
  _validate_password password = [] ↔
  8 ≤ length password ∧
  (∃ c, c ∈ password ∧ is_letter c = true) ∧
  (∃ c, c ∈ password ∧ is_digit c = true).
Proof.
  assert (Hex : ∀ p, existsb p password = true
                     ↔ ∃ c, c ∈ password ∧ p c = true).
  { intros p. rewrite existsb_exists. by setoid_rewrite list_elem_of_In. }
  rewrite <- !Hex. unfold _validate_password. rewrite !search_class.
  clear Hex. destruct password as [|c password].
  { simpl. split; [done|lia]. }
  assert (Hfull : negb (truthy (c :: password)) = false) by done.
  revert Hfull. generalize (c :: password). clear c password.
  intros password ->.
  destruct (Nat.ltb_spec (length password) 8) as [Hlen|Hlen];
    destruct (existsb is_letter password);
    destruct (existsb is_digit password); simpl;
    split; try done; try (intros (? & ? & ?); done || lia).
Qed.

(** ** The dashboard *)

Section Statistics.

#[local] Open Scope Q_scope.

Lemma fold_max_spec xs : ∀ q,
  let best := fold_left (λ best x, if Qle_bool x best then best else x) xs q in
  (best = q ∨ best ∈ xs) ∧ q <= best ∧ Forall (λ x, x <= best) xs.
Proof.
  induction xs as [|x xs IH]; intros q; simpl.
  - split_and!; [by left|apply Qle_refl|constructor].
  - destruct (Qle_bool x q) eqn:Hle.
    + apply Qle_bool_iff in Hle.
      destruct (IH q) as (Hin & Hq & Hall). split_and!; [|done|].
      * destruct Hin as [?|?]; [by left|right; by right].
      * constructor; [by apply (Qle_trans _ q)|done].
    + assert (Hlt : q <= x).
      { apply Qlt_le_weak, Qnot_le_lt. intros H%Qle_bool_iff. congruence. }
      destruct (IH x) as (Hin & Hx & Hall). split_and!.
      * right. destruct Hin as [->|?]; [by left|by right].
      * by apply (Qle_trans _ x).
      * by constructor.
Qed.

Lemma py_max_spec scores :
  scores ≠ [] →
  ∃ best, py_max scores = Some best ∧ best ∈ scores
          ∧ Forall (λ x, x <= best) scores.
Proof.
  destruct scores as [|q scores]; [done|]. intros _. simpl.
  eexists. split; [done|].
  destruct (fold_max_spec scores q) as (Hin & Hq & Hall). split.
  - destruct Hin as [->|?]; [by left|by right].
  - by constructor.
Qed.

End Statistics.

(** X13.  When [summarise_progress] returns, the number of sessions is the
    number of entries, those without a score included.  When no entry has a
    score, there is no best, average or last score.  When some entry has
    one, the best score is one of the scores and none of them is above it,
    and an average is given. *)
Theorem summarise_progress_statistics (entries : list session) (s : summary) :
  summarise_progress entries = Return s →
  total_sessions s = length entries ∧
  match scores_of entries with
  | [] => best_score s = None ∧ average_score s = None ∧ last_score s = None
  | _ :: _ =>
      ∃ best,
        best_score s = Some best ∧
        best ∈ scores_of entries ∧
        Forall (λ q, (q <= best)%Q) (scores_of entries) ∧
        is_Some (average_score s)
  end.
Proof.
  intros Hs. unfold summarise_progress in Hs.
  destruct entries as [|last_entry entries]; [by injection Hs as <-|].
  destruct (scores_of (last_entry :: entries)) as [|q scores] eqn:Hscores.
  - simpl in Hs. by injection Hs as <-.
  - destruct (py_max_spec (q :: scores)) as (best & Hbest & Hin & Hall);
      [done|].
    cbn [truthy] in Hs.
    destruct (session_score last_entry); try done;
      injection Hs as <-; (split; [done|]);
      exists best; by split_and!.
Qed.

Lemma summarise_progress_statistics_witness :
  ∃ s, summarise_progress sessions3 = Return s ∧
       total_sessions s = 3 ∧
       ∃ best,
         best_score s = Some best ∧
         best ∈ scores_of sessions3 ∧
         Forall (λ q, (q <= best)%Q) (scores_of sessions3) ∧
         is_Some (average_score s).
Proof.
  eexists. split; [reflexivity|].
  apply (summarise_progress_statistics sessions3). reflexivity.
Defined.

(** X14.  [summarise_progress] fails, with a [TypeError], exactly when the
    first entry holds [None] as its score while some entry has a score;
    in every other case it returns a summary. *)
Theorem summarise_progress_raises (entries : list session) :
  (∃ e, summarise_progress entries = Raise e) ↔
  (∃ first rest, entries = first :: rest
                 ∧ session_score first = NullScore
                 ∧ scores_of entries ≠ []).
Proof.
  unfold summarise_progress. destruct entries as [|first rest].
  { split; [by intros [e ?]|by intros (? & ? & ? & _)]. }
  destruct (scores_of (first :: rest)) as [|q scores] eqn:Hscores.
  { simpl. split; [by intros [e ?]|by intros (? & ? & _ & _ & ?)]. }
  simpl truthy. cbv iota. split.
  - intros [e He]. exists first, rest.
    by destruct (session_score first).
  - intros (first' & rest' & [= <- <-] & -> & _). by eexists.
Qed.

Section SortedDesc.

Context {A : Type} (key : A → Z).

Lemma insert_desc_perm x xs : insert_desc key x xs ≡ₚ x :: xs.
Proof.
  induction xs as [|y xs IH]; [done|]. simpl.
  destruct (key x <? key y)%Z; [|done].
  rewrite IH. apply Permutation_swap.
Qed.

Lemma sorted_desc_perm xs : sorted_desc key xs ≡ₚ xs.
Proof.
  induction xs as [|x xs IH]; [done|]. simpl.
  by rewrite insert_desc_perm, IH.
Qed.

Lemma insert_desc_sorted x xs :
  StronglySorted (λ a b, (key b ≤ key a)%Z) xs →
  StronglySorted (λ a b, (key b ≤ key a)%Z) (insert_desc key x xs).
Proof.
  induction 1 as [|y xs Hsorted IH Hall]; simpl.
  - by repeat constructor.
  - destruct (Z.ltb_spec (key x) (key y)) as [Hlt|Hge].
    + constructor; [done|].
      rewrite insert_desc_perm. constructor; [lia|done].
    + constructor; [by constructor|].
      constructor; [done|].
      eapply Forall_impl; [exact Hall|]. simpl. lia.
Qed.

Lemma sorted_desc_sorted xs :
  StronglySorted (λ a b, (key b ≤ key a)%Z) (sorted_desc key xs).
Proof.
  induction xs as [|x xs IH]; [constructor|].
  by apply insert_desc_sorted.
Qed.

(** An entry newer than all the others comes first. *)
Lemma sorted_desc_newest xs x :
  Forall (λ y, (key y < key x)%Z) xs →
  sorted_desc key (xs ++ [x]) = x :: sorted_desc key xs.
Proof.
  induction 1 as [|y xs Hy _ IH]; [done|].
  simpl. rewrite IH. simpl.
  by rewrite (proj2 (Z.ltb_lt _ _) Hy).
Qed.

End SortedDesc.

(** X15.  When there is no Firestore client, or the query yields nothing,
    [fetch_progress_entries] answers from the cache: the user's cached
    entries in the order newest first, cut after [limit] of them. *)
Theorem fetch_progress_entries_fallback
    (user_id : str) (limit : Z) (streamed : list session) (st : store) :
  firestore st = None ∨ streamed = [] →
  (0 ≤ limit)%Z →
  ∃ kept rest,
    fetch_progress_entries user_id limit streamed st = session_of <$> kept ∧
    kept ++ rest ≡ₚ default [] (PROGRESS_CACHE st !! user_id) ∧
    StronglySorted (λ x y, (created_at y ≤ created_at x)%Z) (kept ++ rest) ∧
    length kept
    = Z.to_nat limit `min` length (default [] (PROGRESS_CACHE st !! user_id)).
Proof.
  intros Hempty Hlimit. unfold fetch_progress_entries.
  assert (Hentries : match firestore st with
                     | Some _ => streamed
                     | None => []
                     end = []).
  { destruct Hempty as [-> | ->]; [done|]. by destruct (firestore st). }
  rewrite Hentries. simpl negb. cbv iota.
  set (fallback := default [] (PROGRESS_CACHE st !! user_id)).
  unfold slice_to. rewrite (proj2 (Z.ltb_ge _ _) Hlimit).
  exists (take (Z.to_nat limit) (sorted_desc created_at fallback)),
         (drop (Z.to_nat limit) (sorted_desc created_at fallback)).
  rewrite take_drop. split_and!.
  - done.
  - apply sorted_desc_perm.
  - apply sorted_desc_sorted.
  - rewrite length_take. by rewrite (sorted_desc_perm created_at fallback).
Qed.

Lemma fetch_progress_entries_fallback_witness :
  ∃ kept rest,
    fetch_progress_entries (lit "coach") 50 []
      (save_progress_entry (lit "coach") [] (lit "hello") 50 (lit "sentence")
         environment0 store0)
    = session_of <$> kept ∧
    kept ++ rest ≡ₚ [new_entry [] (lit "hello") 50 (lit "sentence") environment0] ∧
    StronglySorted (λ x y, (created_at y ≤ created_at x)%Z) (kept ++ rest) ∧
    length kept = 1.
Proof.
  apply (fetch_progress_entries_fallback (lit "coach") 50 []
           (save_progress_entry (lit "coach") [] (lit "hello") 50
              (lit "sentence") environment0 store0)).
  - by left.
  - lia.
Defined.

(** X16.  Without a Firestore client, a session saved at a time later than
    those of the user's cached sessions is what the dashboard shows first:
    it heads the entries, and the summary reports its score as the last
    score and its time as the time last practised. *)
Theorem dashboard_shows_saved_session
    (user_id : str) (content : list (str * pyval)) (transcript : str)
    (score : Q) (content_type : str) (env : environment)
    (streamed : list session) (st : store) :
  user_id ≠ [] →
  firestore st = None →
  Forall (λ e, (created_at e < now env)%Z)
    (default [] (PROGRESS_CACHE st !! user_id)) →
  let entry := new_entry content transcript score content_type env in
  let st' := save_progress_entry user_id content transcript score
               content_type env st in
  ∃ s older,
    dashboard user_id streamed st' = (Return s, session_of entry :: older) ∧
    last_score s = Some score ∧
    last_practiced s = Some (now env) ∧
    total_sessions s = S (length older) ∧
    total_sessions s ≤ 50.
Proof.
  intros Hid Hremote Hnewer entry st'.
  set (history := default [] (PROGRESS_CACHE st !! user_id)) in *.
  destruct (keep_last_100 history entry) as (dropped & Hsplit & Hlen & _ & Hlast).
  set (kept := if 100 <? length (history ++ [entry])
               then drop (length (history ++ [entry]) - 100) (history ++ [entry])
               else history ++ [entry]) in *.
  assert (Hcache : PROGRESS_CACHE st' !! user_id = Some kept).
  { subst st'. unfold save_progress_entry.
    destruct user_id; [done|]. simpl. by rewrite lookup_insert_eq. }
  assert (Hfs : firestore st' = None).
  { subst st'. unfold save_progress_entry.
    destruct user_id; [done|]. simpl. by rewrite Hremote. }
  destruct kept as [|k kept' _] using rev_ind; [done|].
  rewrite last_snoc in Hlast. injection Hlast as ->.
  assert (Hold : Forall (λ e, (created_at e < created_at entry)%Z) kept').
  { assert (Hsuffix : kept' `suffix_of` history).
    { exists dropped. rewrite app_assoc in Hsplit.
      by apply app_inj_tail in Hsplit as [-> _]. }
    destruct Hsuffix as [pre ->]. by apply Forall_app in Hnewer as [_ ?]. }
  unfold dashboard, fetch_progress_entries. rewrite Hfs, Hcache.
  simpl negb. cbv iota. cbn [default from_option id].
  rewrite (sorted_desc_newest created_at kept' entry Hold).
  unfold slice_to. change (50 <? 0)%Z with false. cbv iota.
  change (Z.to_nat 50) with 50. rewrite firstn_cons, fmap_cons.
  eexists _, _. split; [reflexivity|].
  simpl. rewrite length_fmap, length_take. split_and!; try done; lia.
Qed.

Lemma dashboard_shows_saved_session_witness :
  ∃ s older,
    dashboard (lit "coach") []
      (save_progress_entry (lit "coach") [] (lit "hello") 50 (lit "sentence")
         environment0 store0)
    = (Return s,
       session_of (new_entry [] (lit "hello") 50 (lit "sentence") environment0)
       :: older) ∧
    last_score s = Some 50%Q ∧
    last_practiced s = Some (now environment0) ∧
    total_sessions s = S (length older) ∧
    total_sessions s ≤ 50.
Proof.
  apply (dashboard_shows_saved_session (lit "coach") [] (lit "hello") 50
           (lit "sentence") environment0 [] store0).
  - discriminate.
  - reflexivity.
  - by vm_compute.
Defined.

(** ** One exchange with the companion *)

Section Companion.

Lemma remove_stars_clean s : star ∉ remove_stars s.
Proof.
  unfold remove_stars. intros H. apply list_elem_of_filter in H as [H _]. done.
Qed.

Lemma replies_follow_users_snoc history t : ∀ previous,
  replies_follow_users previous (history ++ [t]) ↔
  replies_follow_users previous history
  ∧ (author t = lit "assistant" →
     ∃ u, from_option Some previous (last history) = Some u
          ∧ author u = lit "user").
Proof.
  induction history as [|x history IH]; intros previous.
  - simpl. tauto.
  - change ((x :: history) ++ [t]) with (x :: (history ++ [t])).
    cbn [replies_follow_users]. rewrite IH.
    assert (Hlast : from_option Some (Some x) (last history)
                    = from_option Some previous (last (x :: history))).
    { destruct history as [|y history]; [done|].
      change (last (x :: y :: history)) with (last (y :: history)).
      destruct (last (y :: history)) eqn:Hy; [done|].
      by apply last_None in Hy. }
    rewrite Hlast. tauto.
Qed.

(** What [process_audio] leaves as the history, whatever it answers. *)
Lemma process_audio_history py_str b st :
  let st' := (process_audio py_str b st).2 in
  session_history st' = session_history st
  ∨ (∃ transcript,
       session_history st'
       = session_history st ++ [Turn (lit "user") (Some transcript)])
  ∨ (∃ transcript reply,
       session_history st'
       = (session_history st ++ [Turn (lit "user") (Some transcript)])
           ++ [Turn (lit "assistant") (Some (remove_stars reply))]).
Proof.
  unfold process_audio.
  destruct (audio_data b); simpl; [|by left].
  destruct (capture b) as [[exc remains]|]; [by left|].
  destruct (transcribe_speech (recognize_google b)) as [transcript|exc];
    [|by left].
  destruct (call_gemini_api _ _ _ _ _).1 as [v|exc];
    [|right; left; by eexists].
  destruct v as [| | | |reply| |]; try (right; left; by eexists).
  right. right. exists transcript, reply.
  destruct (unlinks b) as [[exc first]|]; [done|].
  by destruct (gtts b) as [[exc remains]|].
Qed.

End Companion.

(** X17.  In every session that [process_audio] can leave, starting from an
    empty history, each stored turn is a user turn or an assistant turn
    whose text has no asterisk (the system instruction is never stored),
    and each assistant turn comes directly after a user turn. *)
Theorem session_history_well_formed (py_str : pyval → str) (st : studio) :
  studio_reachable py_str st →
  Forall stored_turn (session_history st)
  ∧ replies_follow_users None (session_history st).
Proof.
  induction 1 as [tmp uploads|b st _ [IHturns IHorder]]; [by split|].
  destruct (process_audio_history py_str b st)
    as [->|[(transcript & ->)|(transcript & reply & ->)]].
  - done.
  - split.
    + apply Forall_app. split; [done|]. constructor; [by left|constructor].
    + apply replies_follow_users_snoc. split; [done|]. by intros [=].
  - split.
    + rewrite !Forall_app. split_and!; [done|..].
      * constructor; [by left|constructor].
      * constructor; [|constructor]. right. split; [done|].
        eexists. split; [done|]. apply remove_stars_clean.
    + apply replies_follow_users_snoc. split.
      * apply replies_follow_users_snoc. split; [done|]. by intros [=].
      * intros _. rewrite last_snoc. by eexists.
Qed.

Lemma session_history_well_formed_witness :
  Forall stored_turn (session_history (process_audio no_str booth_hi studio0).2)
  ∧ replies_follow_users None
      (session_history (process_audio no_str booth_hi studio0).2).
Proof.
  apply (session_history_well_formed no_str
           (process_audio no_str booth_hi studio0).2).
  apply studio_step, (studio_start no_str ∅ ∅).
Defined.

(** X18.  When [process_audio] answers with a reply, it has appended
    exactly two turns to the history, the user's transcript and the
    assistant's text, which are the ones in the answer; the text has no
    asterisk; the audio file named in the answer is in the upload folder;
    and the two temporary files of the request are gone.  When it answers
    with HTTP 400, nothing has changed. *)
Theorem process_audio_reply (py_str : pyval → str) (b : booth) (st : studio) :
  let response := (process_audio py_str b st).1 in
  let st' := (process_audio py_str b st).2 in
  match response with
  | AudioReply transcript response_text audio_filename =>
      session_history st'
      = session_history st
        ++ [Turn (lit "user") (Some transcript);
            Turn (lit "assistant") (Some response_text)]
      ∧ (star ∉ response_text)
      ∧ audio_filename = lit "resp_" ++ uuid4_mp3 b ++ lit ".mp3"
      ∧ audio_filename ∈ upload_folder st'
      ∧ (uuid4_webm b ++ lit ".webm" ∉ tmp_folder st')
      ∧ (uuid4_webm b ++ lit ".wav" ∉ tmp_folder st')
  | AudioError status _ => status = 400%Z ∧ st' = st
  | AudioFailure _ => True
  end.
Proof.
  unfold process_audio.
  destruct (audio_data b); simpl; [|done].
  destruct (capture b) as [[exc remains]|]; [done|].
  destruct (transcribe_speech (recognize_google b)) as [transcript|exc];
    [|done].
  destruct (call_gemini_api _ _ _ _ _).1 as [v|exc]; [|done].
  destruct v as [| | | |reply| |]; try done.
  destruct (unlinks b) as [[exc first]|]; [done|].
  destruct (gtts b) as [[exc remains]|]; [done|]. simpl.
  rewrite <- app_assoc. split_and!; try done.
  - apply remove_stars_clean.
  - apply elem_of_union_r. by apply elem_of_singleton.
  - intros H. apply elem_of_difference in H as [H _].
    apply elem_of_difference in H as [_ H]. apply H. by apply elem_of_singleton.
  - intros H. apply elem_of_difference in H as [_ H].
    apply H. by apply elem_of_singleton.
Qed.

(** X19.  When the recording was taken and transcribed but the dialogue
    call fails, the answer is the failure with that error, the user's turn
    stays in the session without a reply, and the two temporary files of the
    request stay in the temporary folder. *)
Theorem process_audio_dialogue_failure
    (py_str : pyval → str) (b : booth) (st : studio)
    (transcript : str) (exc : exn) :
  audio_data b = true →
  capture b = None →
  transcribe_speech (recognize_google b) = Return transcript →
  (call_gemini_api py_str
     (gemini b (_truncate_history
                  (Turn (lit "system") (Some (AI_SYSTEM_PROMPT b))
                   :: session_history st
                      ++ [Turn (lit "user") (Some transcript)])))
     3 1 fresh).1 = Raise exc →
  let st' := (process_audio py_str b st).2 in
  (process_audio py_str b st).1 = AudioFailure exc
  ∧ session_history st'
    = session_history st ++ [Turn (lit "user") (Some transcript)]
  ∧ uuid4_webm b ++ lit ".webm" ∈ tmp_folder st'
  ∧ uuid4_webm b ++ lit ".wav" ∈ tmp_folder st'
  ∧ upload_folder st' = upload_folder st.
Proof.
  intros Haudio Hcapture Hheard Hcall. unfold process_audio.
  rewrite Haudio, Hcapture, Hheard. simpl. rewrite Hcall. simpl.
  split_and!; try done.
  - apply elem_of_union_l, elem_of_union_r. by apply elem_of_singleton.
  - apply elem_of_union_r. by apply elem_of_singleton.
Qed.

Lemma process_audio_dialogue_failure_witness :
  (process_audio no_str booth_404 studio0).1
  = AudioFailure (HTTPError (Some 404%Z))
  ∧ session_history (process_audio no_str booth_404 studio0).2
    = [Turn (lit "user") (Some (lit "hello"))]
  ∧ lit "0a.webm" ∈ tmp_folder (process_audio no_str booth_404 studio0).2
  ∧ lit "0a.wav" ∈ tmp_folder (process_audio no_str booth_404 studio0).2
  ∧ upload_folder (process_audio no_str booth_404 studio0).2 = ∅.
Proof.
  apply (process_audio_dialogue_failure no_str booth_404 studio0
           (lit "hello") (HTTPError (Some 404%Z))); reflexivity.
Defined.

Section ReplyFile.

Lemma rfind_from_absent c s : ∀ i found,
  c ∉ s → rfind_from c s i found = found.
Proof.
  induction s as [|x s IH]; intros i found Hc; [done|].
  apply not_elem_of_cons in Hc as [Hx Hs]. simpl.
  rewrite bool_decide_eq_false_2 by done. by apply IH.
Qed.

Lemma basename_plain p : slash ∉ p → basename p = p.
Proof. intros Hp. unfold basename, rfind. by rewrite rfind_from_absent. Qed.

Lemma endswith_app s suffix : endswith (s ++ suffix) suffix = true.
Proof.
  unfold endswith. apply bool_decide_eq_true.
  rewrite length_app, Nat.add_sub. by rewrite drop_app_length.
Qed.

Lemma lstrip_plain (c : ascii) (s : str) :
  is_space c = false → lstrip (c :: s) = c :: s.
Proof. intros Hc. simpl. by rewrite Hc. Qed.

(** A name that neither starts nor ends with whitespace is left as it is
    by [strip]. *)
Lemma strip_plain (c d : ascii) (s : str) :
  is_space c = false → is_space d = false →
  strip (c :: s ++ [d]) = c :: s ++ [d].
Proof.
  intros Hc Hd. unfold strip, rstrip. rewrite (lstrip_plain c) by done.
  rewrite app_comm_cons, rev_app_distr.
  change (rev [d] ++ rev (c :: s)) with (d :: rev (c :: s)).
  rewrite (lstrip_plain d) by done.
  change (rev (d :: rev (c :: s))) with (rev (rev (c :: s)) ++ [d]).
  by rewrite rev_involutive.
Qed.

Lemma reply_name_accepted (u : str) (files : gset str) :
  slash ∉ u →
  let name := lit "resp_" ++ u ++ lit ".mp3" in
  name ∈ files →
  cleanup_audio (filename_request name) files = (JsonOk, files ∖ {[name]}).
Proof.
  intros Hu name Hin.
  assert (Hshape : name = ascii_of_nat 114
                          :: (lit "esp_" ++ u ++ lit ".mp") ++ [ascii_of_nat 51]).
  { subst name. rewrite <- !app_assoc. reflexivity. }
  assert (Hstrip : strip name = name).
  { rewrite Hshape. by apply strip_plain. }
  assert (Hbase : basename name = name).
  { apply basename_plain. subst name. rewrite !elem_of_app.
    intros [H|[H|H]]; [|done|]; vm_compute in H;
      repeat (apply elem_of_cons in H as [H|H]; [done|]);
      by apply elem_of_nil in H. }
  assert (Hext : endswith name (lit ".mp3") = true).
  { subst name. rewrite app_assoc. apply endswith_app. }
  unfold cleanup_audio, filename_request.
  assert (Hget : or_else (dict_get [(lit "filename", PStr name)] (lit "filename"))
                   (PStr []) = PStr name).
  { cbn [dict_get]. rewrite bool_decide_eq_true_2 by done.
    rewrite Hshape. reflexivity. }
  cbn [or_else truth truthy]. rewrite Hget, Hstrip, Hbase, Hext.
  rewrite Hshape at 1. cbn [truthy negb].
  rewrite !bool_decide_eq_true_2 by done. reflexivity.
Qed.

End ReplyFile.

Lemma union_difference_fresh (files : gset str) (name : str) :
  name ∉ files → (files ∪ {[name]}) ∖ {[name]} = files.
Proof.
  intros Hfresh. apply set_eq. intros x.
  rewrite elem_of_difference, elem_of_union, elem_of_singleton. split.
  - by intros [[?|?] ?].
  - intros Hx. split; [by left|]. by intros ->.
Qed.

(** X20.  The audio file that a reply names is one that [cleanup_audio]
    accepts: asked to remove it, [cleanup_audio] answers with success and
    removes that file and no other, provided the name drawn for it has no
    slash, which holds for the hexadecimal names drawn; when no file of that
    name was there before the exchange, the upload folder is back to what
    it was. *)
Theorem process_audio_reply_cleanup
    (py_str : pyval → str) (b : booth) (st : studio)
    (transcript response_text audio_filename : str) :
  slash ∉ uuid4_mp3 b →
  (process_audio py_str b st).1
  = AudioReply transcript response_text audio_filename →
  let uploads := upload_folder (process_audio py_str b st).2 in
  cleanup_audio (filename_request audio_filename) uploads
  = (JsonOk, uploads ∖ {[audio_filename]})
  ∧ (audio_filename ∉ upload_folder st →
     uploads ∖ {[audio_filename]} = upload_folder st).
Proof.
  intros Hslash. unfold process_audio.
  destruct (audio_data b); simpl; [|done].
  destruct (capture b) as [[exc remains]|]; [done|].
  destruct (transcribe_speech (recognize_google b)) as [heard|exc]; [|done].
  destruct (call_gemini_api _ _ _ _ _).1 as [v|exc]; [|done].
  destruct v as [| | | |reply| |]; try done.
  destruct (unlinks b) as [[exc first]|]; [done|].
  destruct (gtts b) as [[exc remains]|]; [done|]. simpl.
  intros [= <- <- <-]. split.
  - apply reply_name_accepted; [done|].
    apply elem_of_union_r. by apply elem_of_singleton.
  - apply union_difference_fresh.
Qed.

Lemma process_audio_reply_cleanup_witness :
  cleanup_audio (filename_request (lit "resp_0b.mp3"))
    (upload_folder (process_audio no_str booth_hi studio0).2)
  = (JsonOk,
     upload_folder (process_audio no_str booth_hi studio0).2
     ∖ {[lit "resp_0b.mp3"]})
  ∧ (lit "resp_0b.mp3" ∉ upload_folder studio0 →
     upload_folder (process_audio no_str booth_hi studio0).2
     ∖ {[lit "resp_0b.mp3"]} = upload_folder studio0).
Proof.
  apply (process_audio_reply_cleanup no_str booth_hi studio0
           (lit "hello") (lit "hi") (lit "resp_0b.mp3")).
  - by vm_compute; intros H; repeat (apply elem_of_cons in H as [H|H]; [done|]);
      apply elem_of_nil in H.
  - reflexivity.
Defined.

(** ** More on [strip] *)

Section Strip.

Lemma lstrip_head s :
  lstrip s = [] ∨ ∃ c s', lstrip s = c :: s' ∧ is_space c = false.
Proof.
  induction s as [|c s IH]; [by left|]. simpl.
  destruct (is_space c) eqn:Hc; [done|]. right. by exists c, s.
Qed.

Lemma lstrip_idempotent s : lstrip (lstrip s) = lstrip s.
Proof.
  destruct (lstrip_head s) as [->|(c & s' & -> & Hc)]; [done|].
  by apply lstrip_plain.
Qed.

Lemma lstrip_snoc s c :
  is_space c = false → lstrip (s ++ [c]) = lstrip s ++ [c].
Proof.
  intros Hc. induction s as [|x s IH]; simpl.
  - by rewrite Hc.
  - by destruct (is_space x).
Qed.

Lemma rstrip_cons c s :
  is_space c = false → rstrip (c :: s) = c :: rstrip s.
Proof.
  intros Hc. unfold rstrip. simpl rev at 2.
  rewrite lstrip_snoc by done. by rewrite rev_app_distr.
Qed.

Lemma rstrip_idempotent s : rstrip (rstrip s) = rstrip s.
Proof.
  unfold rstrip. by rewrite rev_involutive, lstrip_idempotent.
Qed.

Lemma strip_idempotent s : strip (strip s) = strip s.
Proof.
  unfold strip.
  destruct (lstrip_head s) as [->|(c & s' & -> & Hc)]; [done|].
  rewrite rstrip_cons by done. rewrite (lstrip_plain c) by done.
  rewrite <- (rstrip_cons c s') by done. apply rstrip_idempotent.
Qed.

End Strip.

Lemma strip_last s c : last (strip s) = Some c → is_space c = false.
Proof.
  unfold strip, rstrip.
  destruct (lstrip_head (rev (lstrip s))) as [->|(x & s' & -> & Hx)]; [done|].
  simpl rev. rewrite last_snoc. by intros [= <-].
Qed.

(** X26.  The views strip an email of surrounding whitespace before they
    validate it.  Of such a value, [_validate_email] accepts exactly the
    form [name@domain.tld] with three non-empty parts free of [@] and of
    whitespace: an accepted email has one [@], no whitespace, and a dot
    after the [@] that neither follows it directly nor ends the email. *)
Theorem validate_email_stripped (raw : str) :
  _validate_email (strip raw) = None ↔
  ∃ name domain tld,
    strip raw = name ++ at_sign :: domain ++ dot :: tld ∧
    (name ≠ [] ∧ Forall (λ c, address_char c = true) name) ∧
    (domain ≠ [] ∧ Forall (λ c, address_char c = true) domain) ∧
    (tld ≠ [] ∧ Forall (λ c, address_char c = true) tld).
Proof.
  rewrite validate_email_shape. split.
  - intros (name & domain & tld & [Heq|Heq] & Hparts);
      [by exists name, domain, tld|].
    pose proof (strip_last raw re.newline) as Hlast.
    rewrite Heq, last_snoc in Hlast. by specialize (Hlast eq_refl).
  - intros (name & domain & tld & Heq & Hparts).
    exists name, domain, tld. split; [by left|done].
Qed.

(** ** The user directory *)

Section AccountFacts.

Lemma Act_bind_eq {A B} (m : Act A) (k : A → Act B) st :
  (m ≫= k) st = k (m st).1 (m st).2.
Proof. unfold mbind, Act_bind. by destruct (m st). Qed.

(** *** Actions that delete nothing *)

Lemma gentle_ret {A} (a : A) : gentle (mret a).
Proof. by intros st. Qed.

Lemma gentle_bind {A B} (m : Act A) (k : A → Act B) :
  gentle m → (∀ a, gentle (k a)) → gentle (m ≫= k).
Proof.
  intros Hm Hk st. rewrite Act_bind_eq.
  destruct (Hm st) as (Hu & Hc & Hs).
  destruct (Hk (m st).1 (m st).2) as (Hu' & Hc' & Hs').
  split_and!; [congruence|congruence|]. intros key Hkey. by apply Hs', Hs.
Qed.

Lemma gentle_read {B} (k : site → Act B) :
  (∀ st,
     current_user (k st st).2 = current_user st ∧
     users_collection (k st st).2 = users_collection st ∧
     ∀ key, is_Some (USERS st !! key) → is_Some (USERS (k st st).2 !! key)) →
  gentle (get_site ≫= k).
Proof. intros Hk st. rewrite Act_bind_eq. apply Hk. Qed.

Lemma gentle_get_site : gentle get_site.
Proof. by intros st. Qed.

Lemma gentle_remote_call : gentle remote_call.
Proof. intros st. unfold remote_call. by destruct (remote_calls st). Qed.

Lemma gentle_set_FIRESTORE_CLIENT : gentle set_FIRESTORE_CLIENT.
Proof. by intros st. Qed.

Lemma refresh_loop_keeps documents : ∀ users key,
  is_Some (users !! key) → is_Some (refresh_loop documents users !! key).
Proof.
  induction documents as [|[id data] documents IH]; intros users key Hkey;
    [done|].
  simpl. apply IH. destruct (record_of_document id data) as [record|]; [|done].
  apply lookup_insert_is_Some.
  destruct (decide (lower (record_email record) = key)); [by left|by right].
Qed.

Lemma gentle_stream_users docs : gentle (stream_users docs).
Proof.
  intros st. unfold stream_users. rewrite Act_bind_eq.
  destruct (gentle_remote_call st) as (Hu & Hc & Hs).
  destruct (remote_call st) as [[] st1]; simpl in *; [|done].
  split_and!; [done..|]. intros key Hkey. by apply refresh_loop_keeps, Hs.
Qed.

Lemma gentle_init_firebase : gentle init_firebase.
Proof.
  apply gentle_bind; [apply gentle_get_site|]. intros st.
  destruct (FIRESTORE_CLIENT st); [apply gentle_ret|].
  destruct (users_collection st) as [docs|]; [|apply gentle_ret].
  apply gentle_bind; [apply gentle_remote_call|]. intros [|];
    [|apply gentle_ret].
  apply gentle_bind; [apply gentle_set_FIRESTORE_CLIENT|]. intros _.
  apply gentle_stream_users.
Qed.

Lemma gentle_get_firestore_client : gentle _get_firestore_client.
Proof.
  apply gentle_bind; [apply gentle_get_site|]. intros st.
  destruct (FIRESTORE_CLIENT st); [apply gentle_ret|].
  apply gentle_bind; [apply gentle_init_firebase|]. intros _.
  apply gentle_bind; [apply gentle_get_site|]. intros st'. apply gentle_ret.
Qed.

Lemma gentle_fetch email : gentle (_fetch_user_from_firestore email).
Proof.
  unfold _fetch_user_from_firestore.
  destruct (negb (truthy email)); [apply gentle_ret|].
  apply gentle_bind; [apply gentle_get_firestore_client|]. intros [docs|];
    [|apply gentle_ret].
  apply gentle_bind; [apply gentle_remote_call|]. intros ok.
  destruct (negb ok); [apply gentle_ret|].
  destruct (docs !! lower email) as [data|]; [|apply gentle_ret].
  destruct (record_of_document (lower email) data) as [record|];
    [|apply gentle_ret].
  apply gentle_read. intros st. rewrite Act_bind_eq. simpl.
  split_and!; [done..|]. intros key Hkey.
  apply lookup_insert_is_Some.
  destruct (decide (lower (record_email record) = key)); [by left|by right].
Qed.

(** *** With the client settled *)

Lemma get_client_settled st :
  client_settled st → _get_firestore_client st = (users_collection st, st).
Proof.
  intros Hsettled. unfold _get_firestore_client.
  rewrite Act_bind_eq. cbn [get_site fst snd].
  destruct (FIRESTORE_CLIENT st) eqn:Hclient; [done|].
  destruct Hsettled as [Hsettled|Hnone]; [congruence|].
  unfold init_firebase. rewrite !Act_bind_eq. cbn [get_site fst snd].
  rewrite Hclient, Hnone. cbn [mret Act_ret fst snd]. by rewrite Hclient.
Qed.

Lemma remote_call_frame st :
  USERS (remote_call st).2 = USERS st ∧
  users_collection (remote_call st).2 = users_collection st ∧
  FIRESTORE_CLIENT (remote_call st).2 = FIRESTORE_CLIENT st.
Proof. unfold remote_call. by destruct (remote_calls st). Qed.

Lemma client_settled_same st st' :
  users_collection st' = users_collection st →
  FIRESTORE_CLIENT st' = FIRESTORE_CLIENT st →
  client_settled st → client_settled st'.
Proof. unfold client_settled. by intros -> ->. Qed.

Lemma keeps_records_ret {A} (a : A) : keeps_records (mret a).
Proof. by intros st. Qed.

Lemma keeps_records_bind {A B} (m : Act A) (k : A → Act B) :
  keeps_records m → (∀ a, keeps_records (k a)) → keeps_records (m ≫= k).
Proof.
  intros Hm Hk st Hsettled. rewrite Act_bind_eq.
  destruct (Hm st Hsettled) as [Hu Hs].
  destruct (Hk (m st).1 (m st).2 Hs) as [Hu' Hs']. split; [congruence|done].
Qed.

Lemma keeps_records_flash message category :
  keeps_records (flash message category).
Proof. by intros st. Qed.

Lemma keeps_records_flash_errors errors : keeps_records (flash_errors errors).
Proof.
  induction errors as [|err errors IH]; [apply keeps_records_ret|].
  apply keeps_records_bind; [apply keeps_records_flash|done].
Qed.

Lemma keeps_records_login_user user : keeps_records (login_user user).
Proof. by intros st. Qed.

Lemma keeps_records_get_site : keeps_records get_site.
Proof. by intros st. Qed.

Lemma keeps_records_remote_call : keeps_records remote_call.
Proof.
  intros st Hsettled. destruct (remote_call_frame st) as (Hu & Hc & Hf).
  split; [done|]. by apply (client_settled_same st).
Qed.

Lemma keeps_records_persist record :
  keeps_records (_persist_user_to_firestore record).
Proof.
  intros st Hsettled. unfold _persist_user_to_firestore.
  rewrite Act_bind_eq. cbn [get_site fst snd].
  destruct (users_collection st) as [docs|] eqn:Hdocs; [|done].
  destruct (_ || _); [done|].
  rewrite Act_bind_eq, (get_client_settled st Hsettled), Hdocs.
  cbn [fst snd]. rewrite Act_bind_eq.
  destruct (remote_call_frame st) as (Hu & Hc & Hf).
  destruct (keeps_records_remote_call st Hsettled) as [_ Hsettled1].
  destruct (remote_call st) as [[] st1]; simpl in *; [|done].
  split; [done|]. left. rewrite Hf.
  destruct Hsettled as [?|?]; [done|congruence].
Qed.

Lemma keeps_records_delete_remote email :
  keeps_records (_delete_user_from_firestore email).
Proof.
  intros st Hsettled. unfold _delete_user_from_firestore.
  rewrite Act_bind_eq. cbn [get_site fst snd].
  destruct (users_collection st) as [docs|] eqn:Hdocs; [|done].
  destruct (negb _); [done|].
  rewrite Act_bind_eq, (get_client_settled st Hsettled), Hdocs.
  cbn [fst snd]. rewrite Act_bind_eq.
  destruct (remote_call_frame st) as (Hu & Hc & Hf).
  destruct (keeps_records_remote_call st Hsettled) as [_ Hsettled1].
  destruct (remote_call st) as [[] st1]; simpl in *; [|done].
  split; [done|]. left. rewrite Hf.
  destruct Hsettled as [?|?]; [done|congruence].
Qed.

(** The remote lookup: it changes neither the documents nor the client,
    and when it finds a record it files it in [USERS] under its lowercased
    email. *)
Lemma fetch_spec email st :
  client_settled st →
  let r := (_fetch_user_from_firestore email st).1 in
  let st' := (_fetch_user_from_firestore email st).2 in
  users_collection st' = users_collection st ∧
  FIRESTORE_CLIENT st' = FIRESTORE_CLIENT st ∧
  match r with
  | None => USERS st' = USERS st
  | Some record =>
      ∃ docs data,
        users_collection st = Some docs ∧ docs !! lower email = Some data ∧
        record_of_document (lower email) data = Some record ∧
        USERS st' = <[lower (record_email record) := record]> (USERS st)
  end.
Proof.
  intros Hsettled. unfold _fetch_user_from_firestore.
  destruct (negb (truthy email)); [done|].
  rewrite Act_bind_eq, (get_client_settled st Hsettled). cbn [fst snd].
  destruct (users_collection st) as [docs|] eqn:Hdocs; [|done].
  rewrite Act_bind_eq.
  destruct (remote_call_frame st) as (Hu & Hc & Hf).
  destruct (remote_call st) as [ok st1]. simpl in *.
  destruct ok; simpl; [|by rewrite Hc, Hf, Hu, Hdocs].
  destruct (docs !! lower email) as [data|] eqn:Hdata; simpl;
    [|by rewrite Hc, Hf, Hu, Hdocs].
  destruct (record_of_document (lower email) data) as [record|] eqn:Hrecord;
    simpl; [|by rewrite Hc, Hf, Hu, Hdocs].
  rewrite Hc, Hf, Hu, Hdocs. split_and!; [done..|].
  by exists docs, data.
Qed.

Lemma record_of_document_role id data record :
  record_of_document id data = Some record →
  record_email record = strip (str_or (default [] (doc_email data)) id)
  ∧ record_role record = default (lit "user") (doc_role data).
Proof.
  unfold record_of_document. destruct (_ || _); [done|]. by intros [= <-].
Qed.

Lemma has_admin_mono st st' :
  USERS st ⊆ USERS st' → has_admin st → has_admin st'.
Proof.
  intros Hsub (key & record & Hkey & Hrole). exists key, record.
  split; [|done]. by eapply lookup_weaken.
Qed.

(** With more than one admin, there is one under another key than a given
    one. *)
Lemma another_admin users key :
  (_count_admins users <=? 1) = false →
  ∃ k r, k ≠ key ∧ users !! k = Some r ∧ record_role r = lit "admin".
Proof.
  intros Hcount%Nat.leb_gt. unfold _count_admins in Hcount.
  set (admins := filter (λ entry : str * user_record,
                           record_role entry.2 = lit "admin") users) in *.
  assert (Hsize : size (delete key admins) ≠ 0).
  { rewrite map_size_delete. destruct (admins !! key); simpl; lia. }
  apply map_size_ne_0_lookup_1 in Hsize as [k [r Hk]].
  apply lookup_delete_Some in Hk as [Hne Hk].
  apply map_lookup_filter_Some in Hk as [Hk Hrole].
  by exists k, r.
Qed.

Lemma remote_in_order_same st st' :
  users_collection st' = users_collection st →
  FIRESTORE_CLIENT st' = FIRESTORE_CLIENT st →
  remote_in_order st → remote_in_order st'.
Proof.
  intros Hc Hf [Hsettled Hfiled]. split.
  - by apply (client_settled_same st).
  - intros docs id data. rewrite Hc. apply Hfiled.
Qed.

Lemma lookup_spec (email : str) (fetch : bool) st :
  remote_in_order st →
  let m : Act (option user_record) :=
    λ st, match USERS st !! lower email with
          | Some record => (Some record, st)
          | None =>
              if fetch then _fetch_user_from_firestore email st
              else (None, st)
          end in
  remote_in_order (m st).2 ∧
  USERS st ⊆ USERS (m st).2 ∧
  match (m st).1 with
  | Some record =>
      USERS (m st).2 !! lower email = Some record ∧
      (USERS (m st).2 = USERS st
       ∨ ∃ docs data,
           users_collection st = Some docs ∧
           docs !! lower email = Some data ∧
           record_role record = default (lit "user") (doc_role data) ∧
           USERS (m st).2 = <[lower email := record]> (USERS st))
  | None => USERS (m st).2 = USERS st ∧ USERS st !! lower email = None
  end.
Proof.
  intros Horder m. subst m. cbv beta.
  destruct (USERS st !! lower email) as [record|] eqn:Hkey; simpl;
    [by split_and!; [..|left]|].
  destruct fetch; [|done].
  destruct Horder as [Hsettled Hfiled].
  destruct (fetch_spec email st Hsettled) as (Hdocs & Hclient & Hfetch).
  assert (Horder' : remote_in_order (_fetch_user_from_firestore email st).2)
    by (by apply (remote_in_order_same st)).
  destruct (_fetch_user_from_firestore email st) as [[record|] st']; simpl in *.
  - destruct Hfetch as (docs & data & Hcoll & Hdata & Hrecord & Husers).
    apply record_of_document_role in Hrecord as [Hemail Hrole].
    assert (Hfiled_key : lower (record_email record) = lower email).
    { rewrite Hemail. by apply (Hfiled docs). }
    rewrite Hfiled_key in Husers. rewrite Husers. split_and!; try done.
    + by apply insert_subseteq.
    + by rewrite lookup_insert_eq.
    + right. by exists docs, data.
  - by rewrite Hfetch.
Qed.

Lemma find_record_spec email st :
  remote_in_order st →
  let r := (find_record (lower email) email st).1 in
  let st' := (find_record (lower email) email st).2 in
  remote_in_order st' ∧
  USERS st ⊆ USERS st' ∧
  match r with
  | Some record => USERS st' !! lower email = Some record
  | None => USERS st' = USERS st ∧ USERS st !! lower email = None
  end.
Proof.
  intros Horder.
  pose proof (lookup_spec email (truthy email) st Horder) as H.
  unfold find_record. rewrite Act_bind_eq. simpl in *.
  destruct (USERS st !! lower email); [by destruct H as (? & ? & ? & _)|].
  destruct (truthy email); [|done].
  destruct (_fetch_user_from_firestore email st) as [[record|] st'];
    simpl in *; [|done].
  by destruct H as (? & ? & ? & _).
Qed.

Lemma known_user_spec email st :
  remote_in_order st →
  let r := (known_user (lower email) email st).1 in
  let st' := (known_user (lower email) email st).2 in
  remote_in_order st' ∧
  USERS st ⊆ USERS st' ∧
  match r with
  | Some record =>
      USERS st' !! lower email = Some record ∧
      (USERS st' = USERS st
       ∨ ∃ docs data,
           users_collection st = Some docs ∧
           docs !! lower email = Some data ∧
           record_role record = default (lit "user") (doc_role data) ∧
           USERS st' = <[lower email := record]> (USERS st))
  | None => USERS st' = USERS st ∧ USERS st !! lower email = None
  end.
Proof.
  intros Horder. pose proof (lookup_spec email true st Horder) as H.
  unfold known_user. rewrite Act_bind_eq. simpl in *.
  by destruct (USERS st !! lower email).
Qed.

Lemma new_email_errors_spec email_raw st :
  remote_in_order st →
  let errors := (new_email_errors email_raw st).1 in
  let st' := (new_email_errors email_raw st).2 in
  remote_in_order st' ∧
  USERS st ⊆ USERS st' ∧
  (errors = [] →
   USERS st' = USERS st ∧ USERS st !! lower email_raw = None
   ∧ _validate_email email_raw = None).
Proof.
  intros Horder. unfold new_email_errors.
  destruct email_raw as [|c email_raw]; [done|].
  cbn [truthy]. rewrite Act_bind_eq.
  destruct (known_user_spec (c :: email_raw) st Horder)
    as (Horder' & Hsub & Hfound).
  destruct (known_user (lower (c :: email_raw)) (c :: email_raw) st)
    as [[record|] st1]; simpl in *.
  - split_and!; try done. intros H. by apply app_eq_nil in H as [_ ?].
  - split_and!; try done. intros H. apply app_eq_nil in H as [H _].
    destruct Hfound as [-> ->]. split_and!; try done.
    by destruct (_validate_email (c :: email_raw)).
Qed.

Lemma store_user_spec email password_hash role st :
  client_settled st →
  let st' := (_store_user email password_hash role st).2 in
  USERS st'
  = <[lower email := {| record_email := email;
                        record_password_hash := password_hash;
                        record_role := role |}]> (USERS st)
  ∧ client_settled st'.
Proof.
  intros Hsettled. unfold _store_user. rewrite !Act_bind_eq.
  cbn [get_site fst snd].
  match goal with
  | |- context [_persist_user_to_firestore ?r ?s] =>
      destruct (keeps_records_persist r s) as [-> ?]; [done|]
  end.
  done.
Qed.

Lemma flash_errors_USERS errors st :
  USERS (flash_errors errors st).2 = USERS st.
Proof.
  revert st. induction errors as [|err errors IH]; intros st; [done|].
  cbn [flash_errors]. rewrite Act_bind_eq. by rewrite IH.
Qed.

(** *** The documents stay in order *)

Lemma keeps_order_ret {A} (a : A) : keeps_order (mret a).
Proof. by intros st. Qed.

Lemma keeps_order_bind {A B} (m : Act A) (k : A → Act B) :
  keeps_order m → (∀ a, keeps_order (k a)) → keeps_order (m ≫= k).
Proof.
  intros Hm Hk st Horder. rewrite Act_bind_eq. by apply Hk, Hm.
Qed.

Lemma keeps_order_flash message category : keeps_order (flash message category).
Proof. by intros st. Qed.

Lemma keeps_order_flash_errors errors : keeps_order (flash_errors errors).
Proof.
  induction errors as [|err errors IH]; [apply keeps_order_ret|].
  apply keeps_order_bind; [apply keeps_order_flash|done].
Qed.

Lemma keeps_order_login_user user : keeps_order (login_user user).
Proof. by intros st. Qed.

Lemma keeps_order_set_USERS users : keeps_order (set_USERS users).
Proof. by intros st. Qed.

Lemma keeps_order_get_site : keeps_order get_site.
Proof. by intros st. Qed.

Lemma keeps_order_remote_call : keeps_order remote_call.
Proof.
  intros st. destruct (remote_call_frame st) as (_ & Hc & Hf).
  by apply remote_in_order_same.
Qed.

Lemma keeps_order_get_firestore_client : keeps_order _get_firestore_client.
Proof. intros st Horder. by rewrite (get_client_settled st (proj1 Horder)). Qed.

Lemma keeps_order_stream_users docs : keeps_order (stream_users docs).
Proof.
  apply keeps_order_bind; [apply keeps_order_remote_call|]. intros [|];
    [|apply keeps_order_ret].
  apply keeps_order_bind; [apply keeps_order_get_site|]. intros st.
  apply keeps_order_set_USERS.
Qed.

Lemma keeps_order_refresh : keeps_order _refresh_users_from_firestore.
Proof.
  apply keeps_order_bind; [apply keeps_order_get_firestore_client|].
  intros [docs|]; [apply keeps_order_stream_users|apply keeps_order_ret].
Qed.

Lemma keeps_order_persist record :
  keeps_order (_persist_user_to_firestore record).
Proof.
  intros st [Hsettled Hfiled]. unfold _persist_user_to_firestore.
  rewrite Act_bind_eq. cbn [get_site fst snd].
  destruct (users_collection st) as [docs|] eqn:Hdocs; [|done].
  destruct (negb (truthy (strip (record_email record))) || _) eqn:Hguard;
    [done|].
  apply orb_false_iff in Hguard as [Hemail _].
  rewrite Act_bind_eq, (get_client_settled st Hsettled), Hdocs.
  cbn [fst snd]. rewrite Act_bind_eq.
  pose proof (keeps_order_remote_call st (conj Hsettled Hfiled)) as Horder1.
  destruct (remote_call_frame st) as (_ & Hc & Hf).
  destruct (remote_call st) as [[] st1]; [|done]. simpl in *.
  destruct Horder1 as [Hsettled1 Hfiled1]. split.
  - left. simpl. rewrite Hf. destruct Hsettled as [?|?]; [done|congruence].
  - intros docs' id data [= <-] Hdata. simpl in *.
    apply lookup_insert_Some in Hdata as [[<- <-]|[Hne Hdata]].
    + simpl. destruct (strip (record_email record)) as [|c s] eqn:Hstrip;
        [done|].
      change (str_or (c :: s) (lower (c :: s))) with (c :: s).
      by rewrite <- Hstrip, strip_idempotent.
    + by apply (Hfiled docs).
Qed.

Lemma keeps_order_delete_remote email :
  keeps_order (_delete_user_from_firestore email).
Proof.
  intros st [Hsettled Hfiled]. unfold _delete_user_from_firestore.
  rewrite Act_bind_eq. cbn [get_site fst snd].
  destruct (users_collection st) as [docs|] eqn:Hdocs; [|done].
  destruct (negb (truthy (strip email))); [done|].
  rewrite Act_bind_eq, (get_client_settled st Hsettled), Hdocs.
  cbn [fst snd]. rewrite Act_bind_eq.
  pose proof (keeps_order_remote_call st (conj Hsettled Hfiled)) as Horder1.
  destruct (remote_call_frame st) as (_ & Hc & Hf).
  destruct (remote_call st) as [[] st1]; [|done]. simpl in *.
  destruct Horder1 as [Hsettled1 Hfiled1]. split.
  - left. simpl. rewrite Hf. destruct Hsettled as [?|?]; [done|congruence].
  - intros docs' id data [= <-] Hdata. simpl in *.
    apply lookup_delete_Some in Hdata as [_ Hdata]. by apply (Hfiled docs).
Qed.

Lemma keeps_order_fetch email : keeps_order (_fetch_user_from_firestore email).
Proof.
  intros st Horder.
  destruct (fetch_spec email st (proj1 Horder)) as (Hc & Hf & _).
  by apply (remote_in_order_same st).
Qed.

Lemma keeps_order_known_user key email : keeps_order (known_user key email).
Proof.
  apply keeps_order_bind; [apply keeps_order_get_site|]. intros st.
  destruct (USERS st !! key); [apply keeps_order_ret|apply keeps_order_fetch].
Qed.

Lemma keeps_order_find_record key email : keeps_order (find_record key email).
Proof.
  apply keeps_order_bind; [apply keeps_order_get_site|]. intros st.
  destruct (USERS st !! key); [apply keeps_order_ret|].
  destruct (truthy email); [apply keeps_order_fetch|apply keeps_order_ret].
Qed.

Lemma keeps_order_new_email_errors email_raw :
  keeps_order (new_email_errors email_raw).
Proof.
  unfold new_email_errors.
  destruct (truthy email_raw); [|apply keeps_order_ret].
  apply keeps_order_bind; [apply keeps_order_known_user|].
  intros ?. apply keeps_order_ret.
Qed.

Lemma keeps_order_store_user email password_hash role :
  keeps_order (_store_user email password_hash role).
Proof.
  apply keeps_order_bind; [apply keeps_order_get_site|]. intros st.
  apply keeps_order_bind; [apply keeps_order_set_USERS|]. intros _.
  apply keeps_order_persist.
Qed.

End AccountFacts.

Create HintDb order.

#[local] Hint Resolve keeps_order_ret keeps_order_flash keeps_order_flash_errors
  keeps_order_login_user keeps_order_set_USERS keeps_order_get_site
  keeps_order_get_firestore_client keeps_order_refresh
  keeps_order_persist keeps_order_delete_remote keeps_order_fetch
  keeps_order_known_user keeps_order_find_record keeps_order_new_email_errors
  keeps_order_store_user : order.

Ltac order_step :=
  first
    [ solve [auto with order]
    | apply keeps_order_bind; [|intros ?]
    | match goal with
      | |- keeps_order (if ?b then _ else _) => destruct b
      | |- keeps_order (match ?x with _ => _ end) => destruct x
      end ].

Section AdminConsole.

Variable generate_password_hash : str → str.

Lemma flash_has_admin message category st :
  has_admin st → has_admin (flash message category st).2.
Proof. done. Qed.

Lemma flash_errors_has_admin errors st :
  has_admin st → has_admin (flash_errors errors st).2.
Proof. apply has_admin_mono. by rewrite flash_errors_USERS. Qed.

Lemma delete_keeps_admin form st :
  remote_in_order st → has_admin st →
  has_admin (_admin_delete_user form st).2.
Proof.
  intros Horder Hadmin. unfold _admin_delete_user.
  set (email_raw := strip (form_get form (lit "email"))).
  rewrite Act_bind_eq.
  destruct (find_record_spec email_raw st Horder) as (Horder1 & Hsub & Hfound).
  apply (has_admin_mono _ _ Hsub) in Hadmin.
  destruct (find_record (lower email_raw) email_raw st) as [[record|] st1];
    simpl in *; [|done].
  rewrite Act_bind_eq. simpl.
  destruct (match current_user st1 with
            | Some user => bool_decide (lower (get_id user) = lower email_raw)
            | None => false
            end); [done|].
  destruct (bool_decide (record_role record = lit "admin")
            && (_count_admins (USERS st1) <=? 1)) eqn:Hlast; [done|].
  rewrite !Act_bind_eq.
  assert (Hafter : ∃ k r, k ≠ lower email_raw ∧ USERS st1 !! k = Some r
                          ∧ record_role r = lit "admin").
  { apply andb_false_iff in Hlast as [Hrole|Hcount].
    - destruct Hadmin as (k & r & Hk & Hr). exists k, r. split_and!; try done.
      intros ->. rewrite Hfound in Hk. injection Hk as ->.
      apply bool_decide_eq_false in Hrole. done.
    - by apply another_admin. }
  destruct Hafter as (k & r & Hne & Hk & Hr).
  apply flash_has_admin. exists k, r. split; [|done].
  set (st2 := (set_USERS (delete (lower email_raw) (USERS st1)) st1).2).
  assert (Hst2 : USERS st2 !! k = Some r).
  { subst st2. simpl. by rewrite lookup_delete_ne. }
  assert (Hsettled2 : client_settled st2) by apply Horder1.
  destruct (truthy email_raw); [|done].
  by destruct (keeps_records_delete_remote email_raw st2 Hsettled2) as [-> _].
Qed.

Lemma create_grows_USERS form st :
  remote_in_order st →
  USERS st ⊆ USERS (_admin_create_user generate_password_hash form st).2.
Proof.
  intros Horder. unfold _admin_create_user.
  set (email_raw := strip (form_get form (lit "email"))).
  rewrite Act_bind_eq.
  destruct (new_email_errors_spec email_raw st Horder)
    as (Horder1 & Hsub & Hclean).
  destruct (new_email_errors email_raw st) as [email_errors st1]; simpl in *.
  destruct (truthy _) eqn:Herrors.
  - by rewrite flash_errors_USERS.
  - destruct email_errors as [|? ?]; [|done].
    destruct Hclean as (Hsame & Hfresh & _); [done|].
    rewrite Act_bind_eq. cbn [flash snd USERS].
    destruct (store_user_spec email_raw
                (generate_password_hash (form_get form (lit "password")))
                (lower (str_or (form_get form (lit "role")) (lit "user"))) st1
                (proj1 Horder1))
      as [-> _].
    rewrite Hsame. by apply insert_subseteq.
Qed.

Lemma update_keeps_admin form st :
  remote_in_order st → has_admin st →
  has_admin (_admin_update_user generate_password_hash form st).2.
Proof.
  intros Horder Hadmin. unfold _admin_update_user.
  set (original_email := strip (form_get form (lit "original_email"))).
  set (new_email := strip (form_get form (lit "email"))).
  rewrite Act_bind_eq.
  destruct (find_record_spec original_email st Horder)
    as (Horder1 & Hsub1 & Hfound).
  apply (has_admin_mono _ _ Hsub1) in Hadmin.
  destruct (find_record (lower original_email) original_email st)
    as [[record|] st1]; simpl in Hfound, Hadmin, Horder1 |- *; [|done].
  clear st Horder Hsub1.
  rewrite Act_bind_eq.
  set (check := match _validate_email new_email with
                | Some email_error => mret [email_error]
                | None => _
                end).
  assert (Hcheck : remote_in_order (check st1).2 ∧
            USERS st1 ⊆ USERS (check st1).2 ∧
            ((check st1).1 = [] →
             USERS (check st1).2 = USERS st1 ∧
             (lower new_email = lower original_email
              ∨ USERS st1 !! lower new_email = None))).
  { subst check. destruct (_validate_email new_email); [done|].
    case_bool_decide as Hsame; simpl;
      [by split_and!; [..|intros _; split; [|left]]|].
    rewrite Act_bind_eq.
    destruct (known_user_spec new_email st1 Horder1) as (Horder2 & Hsub & Hknown).
    destruct (known_user (lower new_email) new_email st1) as [[other|] st2];
      simpl in *; [done|].
    split_and!; [done..|]. intros _. destruct Hknown as [-> ?].
    split; [done|by right]. }
  destruct (check st1) as [email_errors st2]. simpl in Hcheck.
  destruct Hcheck as (Horder2 & Hsub2 & Hclean).
  apply (has_admin_mono _ _ Hsub2) in Hadmin.
  cbv beta iota. cbn [fst snd].
  destruct (truthy _) eqn:Herrors; [by apply flash_errors_has_admin|].
  destruct email_errors as [|? ?]; [|done].
  destruct Hclean as [Hsame Hkey]; [done|].
  clear Hsub2.
  rewrite <- Hsame in Hfound, Hkey.
  rewrite Act_bind_eq. cbn [get_site fst snd].
  set (role := lower (str_or (form_get form (lit "role")) (record_role record))).
  destruct (bool_decide (record_role record = lit "admin")
            && negb (bool_decide (role = lit "admin"))
            && (_count_admins (USERS st2) <=? 1)) eqn:Hlast; [done|].
  set (new_record := {| record_email := new_email;
                        record_password_hash := _;
                        record_role := role |}).
  match goal with
  | |- has_admin ((set_USERS ?users ≫= ?k) st2).2 =>
      assert (Hkeeps : ∀ a, keeps_records (k a)); [|
        rewrite Act_bind_eq;
        apply (has_admin_mono (set_USERS users st2).2);
        [by destruct (Hkeeps (set_USERS users st2).1 (set_USERS users st2).2
                        (proj1 Horder2)) as [-> _]|]]
  end.
  { intros _. apply keeps_records_bind; [apply keeps_records_persist|].
    intros _. apply keeps_records_bind.
    { destruct (negb (bool_decide (lower new_email = lower original_email))
                && truthy original_email); [|apply keeps_records_ret].
      apply keeps_records_delete_remote. }
    intros _. apply keeps_records_bind; [apply keeps_records_get_site|].
    intros st'. apply keeps_records_bind; [|intros _; apply keeps_records_flash].
    destruct (current_user st') as [user|]; [|apply keeps_records_ret].
    destruct (bool_decide (lower (get_id user) = lower original_email));
      [|apply keeps_records_ret].
    apply keeps_records_bind; [apply keeps_records_login_user|].
    intros _. apply keeps_records_flash. }
  cbn [set_USERS snd].
  assert (Hother : ∀ k r, k ≠ lower original_email → USERS st2 !! k = Some r →
            record_role r = lit "admin" →
            has_admin
              {| USERS := <[lower new_email := new_record]>
                            (delete (lower original_email) (USERS st2));
                 users_collection := users_collection st2;
                 FIRESTORE_CLIENT := FIRESTORE_CLIENT st2;
                 remote_calls := remote_calls st2;
                 current_user := current_user st2;
                 flashes := flashes st2 |}).
  { intros k r Hne Hk Hr. exists k, r. split; [|done]. simpl.
    assert (k ≠ lower new_email).
    { destruct Hkey as [->|Hfresh]; [done|]. intros ->. congruence. }
    by rewrite lookup_insert_ne, lookup_delete_ne. }
  destruct (bool_decide (role = lit "admin")) eqn:Hwill.
  - apply bool_decide_eq_true in Hwill.
    exists (lower new_email), new_record. split; [|done].
    simpl. by rewrite lookup_insert_eq.
  - rewrite andb_true_r in Hlast.
    apply andb_false_iff in Hlast as [Hwas|Hcount].
    + destruct Hadmin as (k & r & Hk & Hr). apply (Hother k r); try done.
      intros ->. rewrite Hfound in Hk. injection Hk as ->.
      apply bool_decide_eq_false in Hwas. done.
    + destruct (another_admin _ (lower original_email) Hcount)
        as (k & r & Hne & Hk & Hr).
      by apply (Hother k r).
Qed.

Lemma create_keeps_order form :
  keeps_order (_admin_create_user generate_password_hash form).
Proof. unfold _admin_create_user. repeat order_step. Qed.

Lemma update_keeps_order form :
  keeps_order (_admin_update_user generate_password_hash form).
Proof. unfold _admin_update_user. repeat order_step. Qed.

Lemma delete_keeps_order form : keeps_order (_admin_delete_user form).
Proof. unfold _admin_delete_user. repeat order_step. Qed.

Lemma admin_users_keeps_order method args form :
  keeps_order (admin_users generate_password_hash method args form).
Proof.
  unfold admin_users. repeat case_bool_decide;
    auto using create_keeps_order, update_keeps_order, delete_keeps_order
      with order.
  repeat order_step.
Qed.

Lemma admin_users_has_admin args form st :
  remote_in_order st → has_admin st →
  has_admin (admin_users generate_password_hash (lit "POST") args form st).2.
Proof.
  intros Horder Hadmin. unfold admin_users.
  rewrite bool_decide_eq_true_2 by done. repeat case_bool_decide.
  - apply has_admin_mono with st; [|done]. by apply create_grows_USERS.
  - by apply update_keeps_admin.
  - by apply delete_keeps_admin.
  - done.
Qed.

Lemma register_grows_USERS method form st :
  remote_in_order st →
  USERS st ⊆ USERS (register generate_password_hash method form st).2.
Proof.
  intros Horder. unfold register. rewrite Act_bind_eq. cbn [get_site fst snd].
  destruct (current_user st); [done|].
  destruct (negb (bool_decide (method = lit "POST"))); [done|].
  set (email_raw := strip (form_get form (lit "email"))).
  rewrite Act_bind_eq.
  destruct (new_email_errors_spec email_raw st Horder)
    as (Horder1 & Hsub & Hclean).
  destruct (new_email_errors email_raw st) as [email_errors st1]; simpl in *.
  destruct (truthy _) eqn:Herrors.
  - by rewrite flash_errors_USERS.
  - destruct email_errors as [|? ?]; [|done].
    destruct Hclean as (Hsame & Hfresh & _); [done|].
    rewrite !Act_bind_eq. cbn [flash login_user snd USERS].
    destruct (store_user_spec email_raw
                (generate_password_hash (form_get form (lit "password")))
                (lit "user") st1 (proj1 Horder1))
      as [-> _].
    rewrite Hsame. by apply insert_subseteq.
Qed.

(** A record that the checks on a new email bring into [USERS] is a copy of
    the Firestore document under its key. *)
Lemma new_email_errors_origin email_raw st key record :
  remote_in_order st →
  USERS (new_email_errors email_raw st).2 !! key = Some record →
  USERS st !! key = None →
  ∃ docs data,
    users_collection st = Some docs ∧ docs !! key = Some data ∧
    record_role record = default (lit "user") (doc_role data).
Proof.
  intros Horder. unfold new_email_errors.
  destruct (truthy email_raw); [|simpl; congruence].
  rewrite Act_bind_eq. cbn [mret Act_ret snd].
  destruct (known_user_spec email_raw st Horder) as (_ & _ & Hknown).
  destruct (known_user (lower email_raw) email_raw st) as [[fetched|] st1];
    simpl in *.
  - destruct Hknown as [Hkey [->|(docs & data & Hdocs & Hdata & Hrole & ->)]];
      [congruence|].
    intros Hnew Hold.
    apply lookup_insert_Some in Hnew as [[<- <-]|[_ Hnew]]; [|congruence].
    by exists docs, data.
  - destruct Hknown as [-> _]. congruence.
Qed.

End AdminConsole.

Section OwnAccount.

Lemma gentle_find_record key email : gentle (find_record key email).
Proof.
  apply gentle_bind; [apply gentle_get_site|]. intros st.
  destruct (USERS st !! key); [apply gentle_ret|].
  destruct (truthy email); [apply gentle_fetch|apply gentle_ret].
Qed.

Lemma get_client_is_collection st client :
  (_get_firestore_client st).1 = Some client →
  users_collection (_get_firestore_client st).2 = Some client.
Proof.
  unfold _get_firestore_client. rewrite Act_bind_eq. cbn [get_site fst snd].
  destruct (FIRESTORE_CLIENT st); [done|].
  rewrite !Act_bind_eq. cbn [get_site mret Act_ret fst snd].
  by destruct (FIRESTORE_CLIENT (init_firebase st).2).
Qed.

(** What [_delete_user_from_firestore] does to the documents and to
    [USERS]. *)
Lemma delete_remote_spec email st docs :
  users_collection st = Some docs →
  let st' := (_delete_user_from_firestore email st).2 in
  (users_collection st' = Some docs
   ∨ users_collection st' = Some (delete (lower (strip email)) docs)) ∧
  ∀ key, is_Some (USERS st !! key) → is_Some (USERS st' !! key).
Proof.
  intros Hdocs. unfold _delete_user_from_firestore.
  rewrite Act_bind_eq. cbn [get_site fst snd]. rewrite Hdocs.
  destruct (negb (truthy (strip email))); [by split; [left|]|].
  rewrite Act_bind_eq.
  destruct (gentle_get_firestore_client st) as (_ & Hc & Hs).
  pose proof (get_client_is_collection st) as Hclient.
  destruct (_get_firestore_client st) as [[client|] st1]; simpl in *;
    [|by split; [left; congruence|]].
  assert (client = docs) as -> by (specialize (Hclient _ eq_refl); congruence).
  rewrite Act_bind_eq.
  destruct (gentle_remote_call st1) as (_ & Hc2 & Hs2).
  destruct (remote_call st1) as [[] st2]; simpl in *.
  - split; [by right|]. intros key Hkey. by apply Hs2, Hs.
  - split; [left; congruence|]. intros key Hkey. by apply Hs2, Hs.
Qed.

End OwnAccount.

(** X21.  An action of the admin console never removes the last admin.
    Take a state in which the Firestore client is not about to be created
    (it exists, or Firestore is not to be had), in which the Firestore
    documents, if there are any, are filed under the lowercased email they
    hold, and in which some record of [USERS] is an admin's.  Then after one
    [POST] to [admin_users] (create, update, delete or an unknown action,
    whatever the form holds and whichever remote calls fail), some record
    of [USERS] is still an admin's, and the two conditions on Firestore
    hold again.  (A [GET] refreshes [USERS] from the documents and is not
    covered.) *)
Theorem admin_action_keeps_an_admin
    (generate_password_hash : str → str) (args form : gmap str str)
    (st : site) :
  remote_in_order st → has_admin st →
  let st' := (admin_users generate_password_hash (lit "POST") args form st).2 in
  has_admin st' ∧ remote_in_order st'.
Proof.
  intros Horder Hadmin. split.
  - by apply admin_users_has_admin.
  - by apply admin_users_keeps_order.
Qed.

Lemma admin_action_keeps_an_admin_witness :
  has_admin
    (admin_users (λ password, password) (lit "POST") ∅ form_demote_coach
       site0).2
  ∧ remote_in_order
      (admin_users (λ password, password) (lit "POST") ∅ form_demote_coach
         site0).2.
Proof.
  apply (admin_action_keeps_an_admin (λ password, password) ∅
           form_demote_coach site0).
  - split; [by right|]. intros docs id data H. discriminate H.
  - exists (lit "coach@example.com"). eexists.
    split; [apply lookup_singleton_eq|reflexivity].
Defined.

(** X22.  [_admin_delete_user] never deletes the account of the user who is
    signed in: whatever the form holds, the record under that user's
    lowercased id stays in [USERS], and the Firestore document under it is
    left as it is. *)
Theorem admin_delete_user_spares_own_account
    (form : gmap str str) (st : site) (user : User) :
  current_user st = Some user →
  let own := lower (get_id user) in
  let st' := (_admin_delete_user form st).2 in
  (is_Some (USERS st !! own) → is_Some (USERS st' !! own)) ∧
  (∀ docs, users_collection st = Some docs →
           ∃ docs', users_collection st' = Some docs'
                    ∧ docs' !! own = docs !! own).
Proof.
  intros Huser own st'. subst st'. unfold _admin_delete_user.
  set (email_raw := strip (form_get form (lit "email"))).
  rewrite Act_bind_eq.
  destruct (gentle_find_record (lower email_raw) email_raw st)
    as (Hcurrent & Hdocs & Hkeep).
  destruct (find_record (lower email_raw) email_raw st) as [[record|] st1];
    simpl in Hdocs, Hcurrent, Hkeep |- *.
  2: { split; [apply Hkeep|]. intros docs Hd. exists docs.
       cbn [flash snd users_collection]. by rewrite Hdocs. }
  rewrite Act_bind_eq. cbn [get_site fst snd].
  rewrite Hcurrent, Huser. fold own.
  case_bool_decide as Hown.
  { split; [apply Hkeep|]. intros docs Hd. exists docs.
    cbn [flash snd users_collection]. by rewrite Hdocs. }
  destruct (bool_decide (record_role record = lit "admin")
            && (_count_admins (USERS st1) <=? 1)).
  { split; [apply Hkeep|]. intros docs Hd. exists docs.
    cbn [flash snd users_collection]. by rewrite Hdocs. }
  rewrite !Act_bind_eq. cbn [flash snd USERS users_collection].
  set (st2 := (set_USERS (delete (lower email_raw) (USERS st1)) st1).2).
  assert (Husers2 : is_Some (USERS st !! own) → is_Some (USERS st2 !! own)).
  { intros H. subst st2. simpl. rewrite lookup_delete_ne by done.
    by apply Hkeep. }
  assert (Hdocs2 : users_collection st2 = users_collection st) by done.
  destruct (truthy email_raw).
  - split.
    + intros H. destruct (users_collection st2) as [docs|] eqn:Hd.
      * destruct (delete_remote_spec email_raw st2 docs Hd) as [_ Hs].
        by apply Hs, Husers2.
      * unfold _delete_user_from_firestore. rewrite Act_bind_eq.
        cbn [get_site fst snd]. rewrite Hd. by apply Husers2.
    + intros docs Hd. rewrite <- Hdocs2 in Hd.
      destruct (delete_remote_spec email_raw st2 docs Hd) as [[-> | ->] _].
      * by exists docs.
      * eexists. split; [done|]. apply lookup_delete_ne.
        subst email_raw. by rewrite strip_idempotent.
  - split; [done|]. intros docs Hd. exists docs. by rewrite <- Hd.
Qed.

Lemma admin_delete_user_spares_own_account_witness :
  (is_Some (USERS site0 !! lower (lit "coach@example.com")) →
   is_Some (USERS (_admin_delete_user form_delete_coach site0).2
              !! lower (lit "coach@example.com"))) ∧
  (∀ docs, users_collection site0 = Some docs →
           ∃ docs',
             users_collection (_admin_delete_user form_delete_coach site0).2
             = Some docs'
             ∧ docs' !! lower (lit "coach@example.com")
               = docs !! lower (lit "coach@example.com")).
Proof.
  apply (admin_delete_user_spares_own_account form_delete_coach site0
           (mkUser (lit "coach@example.com") (lit "admin"))).
  reflexivity.
Defined.

(** X23.  Signing up never touches an account that exists and never makes
    an admin.  Take a state in which the Firestore client is not about to
    be created (it exists, or Firestore is not to be had) and in which the
    Firestore documents, if there are any, are filed under the lowercased
    email they hold.  Then after [register], whatever the method and the
    form, every record that [USERS] held is still there unchanged, and a
    record that is new in [USERS] has the role ["user"], unless it is the
    copy of a Firestore document, which the check for an existing account
    fetched. *)
Theorem register_adds_only_users
    (generate_password_hash : str → str) (method : str) (form : gmap str str)
    (st : site) :
  remote_in_order st →
  let st' := (register generate_password_hash method form st).2 in
  USERS st ⊆ USERS st' ∧
  ∀ key record,
    USERS st' !! key = Some record → USERS st !! key = None →
    record_role record = lit "user"
    ∨ ∃ docs data,
        users_collection st = Some docs ∧ docs !! key = Some data ∧
        record_role record = default (lit "user") (doc_role data).
Proof.
  intros Horder st'. split; [by apply register_grows_USERS|].
  subst st'. unfold register. rewrite Act_bind_eq. cbn [get_site fst snd].
  destruct (current_user st); [simpl; congruence|].
  destruct (negb (bool_decide (method = lit "POST"))); [simpl; congruence|].
  set (email_raw := strip (form_get form (lit "email"))).
  rewrite Act_bind_eq.
  pose proof (new_email_errors_origin email_raw st) as Horigin.
  destruct (new_email_errors_spec email_raw st Horder)
    as (Horder1 & _ & Hclean).
  destruct (new_email_errors email_raw st) as [email_errors st1]; simpl in *.
  intros key record. destruct (truthy _) eqn:Herrors.
  - rewrite flash_errors_USERS. intros Hnew Hold. right. by apply Horigin.
  - destruct email_errors as [|? ?]; [|done].
    destruct Hclean as (Hsame & Hfresh & _); [done|].
    rewrite !Act_bind_eq. cbn [flash login_user snd USERS].
    destruct (store_user_spec email_raw
                (generate_password_hash (form_get form (lit "password")))
                (lit "user") st1 (proj1 Horder1))
      as [-> _].
    rewrite Hsame. intros Hnew Hold.
    apply lookup_insert_Some in Hnew as [[_ <-]|[_ Hnew]]; [by left|congruence].
Qed.

Lemma register_adds_only_users_witness :
  USERS site1
  ⊆ USERS (register (λ password, password) (lit "POST") form_sign_up site1).2 ∧
  ∀ key record,
    USERS (register (λ password, password) (lit "POST") form_sign_up site1).2
      !! key = Some record →
    USERS site1 !! key = None →
    record_role record = lit "user"
    ∨ ∃ docs data,
        users_collection site1 = Some docs ∧ docs !! key = Some data ∧
        record_role record = default (lit "user") (doc_role data).
Proof.
  apply (register_adds_only_users (λ password, password) (lit "POST")
           form_sign_up site1).
  split; [by left|]. intros docs id data [= <-] Hdata.
  apply lookup_singleton_Some in Hdata as [<- <-]. reflexivity.
Defined.

(** X24.  An account is found under its email whatever the case of the
    letters.  Take a state in which the Firestore client is not about to be
    created (it exists, or Firestore is not to be had).  Then after
    [_store_user(email, ...)], [User.get] of an email that lowercases to the
    same string gives the user with the email and the role that were
    stored. *)
Theorem stored_user_is_found
    (email password_hash role query : str) (st : site) :
  client_settled st →
  lower query = lower email →
  (User_get query (_store_user email password_hash role st).2).1
  = Some (mkUser email role).
Proof.
  intros Hsettled Hquery. unfold User_get, known_user. rewrite !Act_bind_eq.
  cbn [get_site fst snd].
  destruct (store_user_spec email password_hash role st Hsettled) as [-> _].
  by rewrite Hquery, lookup_insert_eq.
Qed.

Lemma stored_user_is_found_witness :
  (User_get (lit "COACH@example.com")
     (_store_user (lit "Coach@Example.com") (lit "hash") (lit "admin")
        site1).2).1
  = Some (mkUser (lit "Coach@Example.com") (lit "admin")).
Proof.
  apply (stored_user_is_found (lit "Coach@Example.com") (lit "hash")
           (lit "admin") (lit "COACH@example.com") site1).
  - by left.
  - by vm_compute.
Defined.

(** ** The practice route *)

Section PracticeFacts.

(** The score is between 0 and 100. *)
Lemma calculate_similarity_bounds reference attempt similarity :
  calculate_similarity reference attempt = Some similarity →
  (0 <= similarity)%Q ∧ (similarity <= 100)%Q.
Proof.
  destruct (decide (normalize_text reference = []
                    ∨ normalize_text attempt = [])) as [Hempty|Hfull].
  - rewrite calculate_similarity_empty by done. intros [= <-]. split; lra.
  - assert (Hr : normalize_text reference ≠ [])
      by (intros H; apply Hfull; by left).
    assert (Ha : normalize_text attempt ≠ [])
      by (intros H; apply Hfull; by right).
    rewrite calculate_similarity_nonempty by done.
    destruct (get_matching_blocks_total (normalize_text reference)
                (normalize_text attempt)) as (blocks & Hblocks & Hma & Hmb).
    unfold ratio. rewrite Hblocks. fold (matches blocks). intros [= <-].
    destruct (calculate_ratio_bounds (matches blocks)
                (length (normalize_text reference)
                 + length (normalize_text attempt))) as [H0 H1]; [lia|].
    apply round2_bounds; lra.
Qed.

Variable py_int : str → option Z.
Variable PARAGRAPHS : list content_item.

(** A request that gets past the checks: what is left to do depends on the
    item found and the content type only. *)
Lemma transcribe_checked user env r st :
  (∃ status message,
     transcribe py_int PARAGRAPHS user env r st
     = (PracticeError status message, st)
     ∧ (status = 400%Z ∨ status = 404%Z))
  ∨ (∃ content content_type,
       (content_type = lit "sentence" ∨ content_type = lit "paragraph") ∧
       transcribe py_int PARAGRAPHS user env r st
       = match temp_file r with
         | Raise exc => (PracticeFailure exc, st)
         | Return temp_name =>
             let files := temp_folder st ∪ {[temp_name]} in
             match upload_saved r with
             | Some exc =>
                 (PracticeFailure exc,
                  {| progress := progress st; temp_folder := files |})
             | None =>
                 let files := remove_temp temp_name (unlinked r) files in
                 match transcription r with
                 | Raise exc =>
                     (PracticeFailure exc,
                      {| progress := progress st; temp_folder := files |})
                 | Return heard =>
                     match calculate_similarity (item_text content)
                             (strip heard) with
                     | None =>
                         (PracticeFailure (RuntimeError (lit "SequenceMatcher")),
                          {| progress := progress st; temp_folder := files |})
                     | Some similarity_score =>
                         (PracticeResult (strip heard) (item_text content)
                            similarity_score content_type,
                          {| progress :=
                               match user with
                               | Some current_user_id =>
                                   save_progress_entry current_user_id
                                     (item_dict content) (strip heard)
                                     similarity_score content_type env
                                     (progress st)
                               | None => progress st
                               end;
                             temp_folder := files |})
                     end
                 end
             end
         end).
Proof.
  unfold transcribe.
  destruct (audio_in_files r); simpl negb; cbv iota;
    [|left; eexists _, _; split; [done|by left]].
  set (content_type := lower (strip (str_or _ (lit "sentence")))).
  case_bool_decide as Htype; simpl negb; cbv iota;
    [|left; eexists _, _; split; [done|by left]].
  destruct (truthy (str_or _ _)); simpl negb; cbv iota;
    [|left; eexists _, _; split; [done|by left]].
  destruct (py_int _) as [n|];
    [|left; eexists _, _; split; [done|by left]].
  destruct (find _ _) as [content|];
    [|left; eexists _, _; split; [done|by right]].
  case_bool_decide; [left; eexists _, _; split; [done|by left]|].
  right. exists content, content_type. split; [|done].
  apply elem_of_cons in Htype as [->|Htype]; [by left|].
  apply elem_of_cons in Htype as [->|Htype]; [by right|].
  by apply elem_of_nil in Htype.
Qed.

End PracticeFacts.

(** X27.  When [transcribe] answers with a result, the score in it is the
    similarity of the target and the transcript, a number from 0 to 100, and
    the content type is ["sentence"] or ["paragraph"]; for a signed-in user
    with a non-empty id, the newest entry of that user's cache is this
    session, with the same transcript, target and score. *)
Theorem transcribe_scores_and_records
    (py_int : str → option Z) (PARAGRAPHS : list content_item)
    (user : option str) (env : environment) (r : recording) (st : practice)
    (heard text : str) (similarity : Q) (kind : str) :
  (transcribe py_int PARAGRAPHS user env r st).1
  = PracticeResult heard text similarity kind →
  let st' := (transcribe py_int PARAGRAPHS user env r st).2 in
  calculate_similarity text heard = Some similarity ∧
  (0 <= similarity)%Q ∧ (similarity <= 100)%Q ∧
  (kind = lit "sentence" ∨ kind = lit "paragraph") ∧
  ∀ current_user_id,
    user = Some current_user_id → current_user_id ≠ [] →
    ∃ entry,
      last (default [] (PROGRESS_CACHE (progress st') !! current_user_id))
      = Some entry ∧
      transcript entry = heard ∧ score entry = similarity ∧
      target entry = Some (PStr text) ∧ content_type entry = kind.
Proof.
  destruct (transcribe_checked py_int PARAGRAPHS user env r st)
    as [(status & message & -> & _)|(content & content_type & Hkind & ->)];
    [done|].
  destruct (temp_file r) as [temp_name|]; [|done].
  destruct (upload_saved r); [done|]. cbv zeta.
  destruct (transcription r) as [said|]; [|done].
  destruct (calculate_similarity (item_text content) (strip said))
    as [similarity_score|] eqn:Hscore; [|done].
  simpl. intros [= <- <- <- <-].
  destruct (calculate_similarity_bounds _ _ _ Hscore) as [Hlo Hhi].
  split_and!; try done.
  intros uid -> Hid. unfold save_progress_entry.
  destruct uid as [|c uid]; [done|]. simpl negb. cbv iota.
  set (entry := new_entry _ _ _ _ _).
  destruct (keep_last_100 (default [] (PROGRESS_CACHE (progress st) !! (c :: uid)))
              entry) as (_ & _ & _ & _ & Hlast).
  exists entry. cbn [PROGRESS_CACHE]. rewrite lookup_insert_eq.
  split; [exact Hlast|done].
Qed.

Lemma transcribe_scores_and_records_witness :
  calculate_similarity (lit "She sells seashells by the seashore.")
    (lit "she sells seashells by the seashore") = Some (10000 # 100)%Q ∧
  (0 <= 10000 # 100)%Q ∧ (10000 # 100 <= 100)%Q.
Proof.
  destruct (transcribe_scores_and_records int_digit [] (Some (lit "coach"))
              environment0 recording1 practice0
              (lit "she sells seashells by the seashore")
              (lit "She sells seashells by the seashore.")
              (10000 # 100)%Q (lit "sentence")) as (H1 & H2 & H3 & _).
  - by vm_compute.
  - by split_and!.
Defined.

(** X28.  When [transcribe] turns a request down for what it holds, the
    status is 400 or 404, and neither the progress store nor the temporary
    files have changed. *)
Theorem transcribe_rejection_changes_nothing
    (py_int : str → option Z) (PARAGRAPHS : list content_item)
    (user : option str) (env : environment) (r : recording) (st : practice)
    (status : Z) (message : str) :
  (transcribe py_int PARAGRAPHS user env r st).1
  = PracticeError status message →
  (status = 400%Z ∨ status = 404%Z)
  ∧ (transcribe py_int PARAGRAPHS user env r st).2 = st.
Proof.
  destruct (transcribe_checked py_int PARAGRAPHS user env r st)
    as [(status' & message' & -> & Hstatus)|(content & content_type & _ & ->)].
  - simpl. by intros [= <- <-].
  - destruct (temp_file r) as [temp_name|]; [|done].
    destruct (upload_saved r); [done|]. cbv zeta.
    destruct (transcription r) as [said|]; [|done].
    by destruct (calculate_similarity _ _).
Qed.

Lemma transcribe_rejection_changes_nothing_witness :
  (404 = 400 ∨ 404 = 404)%Z
  ∧ (transcribe int_digit [] (Some (lit "coach")) environment0
       {| audio_in_files := true;
          practice_form := {[lit "contentId" := lit "9"]};
          upload_filename := lit "take.webm";
          temp_file := Return (lit "tmp0.webm");
          upload_saved := None;
          transcription := Return [];
          unlinked := true |} practice0).2 = practice0.
Proof.
  apply (transcribe_rejection_changes_nothing int_digit []
           (Some (lit "coach")) environment0 _ practice0 404
           (lit "Sentence not found.")).
  by vm_compute.
Defined.

(** X29.  The temporary file of a request that got past the checks: once
    the upload is saved to it, it is removed before the answer, whether the
    transcription succeeds or fails, provided the removal goes through; when
    saving the upload fails, it is left behind. *)
Theorem transcribe_temp_file
    (py_int : str → option Z) (PARAGRAPHS : list content_item)
    (user : option str) (env : environment) (r : recording) (st : practice)
    (temp_name : str) :
  (∀ status message,
     (transcribe py_int PARAGRAPHS user env r st).1
     ≠ PracticeError status message) →
  temp_file r = Return temp_name →
  let st' := (transcribe py_int PARAGRAPHS user env r st).2 in
  (upload_saved r = None → unlinked r = true → temp_name ∉ temp_folder st')
  ∧ (upload_saved r ≠ None → temp_name ∈ temp_folder st').
Proof.
  intros Hpassed Htemp.
  destruct (transcribe_checked py_int PARAGRAPHS user env r st)
    as [(status & message & Heq & _)|(content & content_type & _ & Heq)].
  { destruct (Hpassed status message). by rewrite Heq. }
  rewrite Heq, Htemp. clear Heq Hpassed. cbv zeta.
  destruct (upload_saved r) as [exc|].
  - split; [done|]. intros _. simpl.
    apply elem_of_union_r. by apply elem_of_singleton.
  - split; [|done]. intros _ ->. unfold remove_temp.
    assert (Hgone : temp_name ∉ (temp_folder st ∪ {[temp_name]}) ∖ {[temp_name]}).
    { intros [_ H]%elem_of_difference. apply H. by apply elem_of_singleton. }
    destruct (transcription r) as [said|]; [|done].
    by destruct (calculate_similarity _ _).
Qed.

Lemma transcribe_temp_file_witness :
  (upload_saved recording1 = None → unlinked recording1 = true →
   lit "tmp0.webm"
   ∉ temp_folder (transcribe int_digit [] (Some (lit "coach")) environment0
                    recording1 practice0).2)
  ∧ (upload_saved recording1 ≠ None →
     lit "tmp0.webm"
     ∈ temp_folder (transcribe int_digit [] (Some (lit "coach")) environment0
                      recording1 practice0).2).
Proof.
  apply (transcribe_temp_file int_digit [] (Some (lit "coach")) environment0
           recording1 practice0 (lit "tmp0.webm")).
  - intros status message. by vm_compute.
  - reflexivity.
Defined.
